(** * tbdd: the Given/When/Then lifecycle engine

    A shallow embedding of package [tbdd] (the [lifecycle] type, its
    [newI] engine, the exported [Lifecycle] wrappers and the [GWT] / [WT]
    builders) together with the properties of phase ordering, scope naming,
    failure reporting and variant fan-out.

    Conventions of the embedding.

    - A Go [func] field that may be nil is an [option].
    - Go closures mutate the engine's variables through the pointers their
      argument struct exposes.  A callback is a function from the struct
      (pointer fields holding the current contents of their pointees) to the
      struct with the final contents; the engine stores the pointer fields
      back.  The setup closure returned by [Arrange] is created while
      [Arrange] holds its argument, so it acts on the same pointees.
    - Everything a callback can reach outside the engine (captured variables,
      the pointees of a reference-typed test case) is the world [W], threaded
      through every call.
    - A callback is total and leaves the [*testing.T] it receives alone: it
      neither panics nor fails the test by itself.
    - The sequence that [Variants] returns is finite.
    - The host is observed through a log of events: scopes opened with
      [Run], soft and hard failures, and one marker per executed phase.
      The markers are ghost state: the engine never reads the log. *)

From Stdlib Require Import String Ascii List ZArith Bool Lia DecimalString Sorted.
From Stdlib Require Import DecimalPos DecimalZ.
From ExtLib Require Import Structures.Monad.
Import ListNotations.
Import MonadNotation.
Local Open Scope string_scope.
Local Open Scope list_scope.
Local Open Scope monad_scope.
Local Open Scope Z_scope.

(** String concatenation, Go's [+] on strings. *)
Infix "+:+" := String.append (at level 60, right associativity).

Set Implicit Arguments.

(** ** Go primitives *)

(** The double-quote character, as it occurs in the failure formats. *)
Definition dquote : string :=
  String (Ascii false true false false false true false false) EmptyString.

(** [strconv.Itoa]. *)
Definition Itoa (i : Z) : string := NilZero.string_of_int (Z.to_int i).

(** Go's [int] is 64 bits wide: [i++] wraps around. *)
Definition int_wrap (z : Z) : Z := (z + 2 ^ 63) mod 2 ^ 64 - 2 ^ 63.

Definition isSome {A} (o : option A) : bool :=
  match o with Some _ => true | None => false end.

Definition isNil {A} (o : option A) : bool := negb (isSome o).

(** ** The host test context *)

(** A [*testing.T]: a live test, or the nil pointer. *)
Inductive ptrT := Live | Nil.

(** A value of interface [testingT]: a [*testing.T], or the recording
    double [*mT] of the package's own tests, whose [Fatalf] and [Error]
    record and return and whose [Run] records the name and calls the body
    with a nil [*testing.T]. *)
Inductive testingT := StdT (p : ptrT) | mT.

(** Arguments of a formatted hard failure. *)
Inductive arg := AStr (s : string) | AInt (i : Z).

(** The three scopes the engine opens. *)
Inductive scope := SGiven | SWhen | SThen.

(** The phases of one replay, in the order documented on [Lifecycle]. *)
Inductive phase :=
| PArrange | PAfterArrange | PGiven | PAfterGiven | PDescribe | PValidate
| PAct | PAfterAct | PAssert | PAfterAssert.

(** How a computation ends: normally, by [runtime.Goexit] as raised by
    [Fatalf] of a live [*testing.T] (it unwinds to the enclosing scope), or
    by a Go panic (it unwinds everything). *)
Inductive status (A : Type) :=
| Ret (a : A)
| Goexit
| Panicked.
Arguments Goexit {A}.
Arguments Panicked {A}.

Section Engine.

Context {T R W : Type}.

(** ** Observations *)

Inductive event :=
| EvRun (k : scope) (name : string)       (* t.Run(name, ...) entered *)
| EvExit (k : scope)                      (* the body of that scope is over *)
| EvRunHook (name : string)               (* runHook(name) *)
| EvError (msg : string)                  (* t.Error(msg) *)
| EvFatalf (format : string) (args : list arg)
| EvCloneTC (x : T)                       (* CloneTC(x) *)
| EvVariants (seed : T)                   (* Variants(_, seed) *)
| EvArrange
| EvAfterArrange (arrangeRan nilGivenFunc emptyGivenString : bool)
| EvGiven
| EvAfterGiven (givenRan : bool)
| EvDescribe
| EvValidate                              (* the checks after Describe start *)
| EvAct
| EvAfterAct
| EvAssert
| EvAfterAssert.

Definition phase_of (e : event) : option phase :=
  match e with
  | EvArrange => Some PArrange
  | EvAfterArrange _ _ _ => Some PAfterArrange
  | EvGiven => Some PGiven
  | EvAfterGiven _ => Some PAfterGiven
  | EvDescribe => Some PDescribe
  | EvValidate => Some PValidate
  | EvAct => Some PAct
  | EvAfterAct => Some PAfterAct
  | EvAssert => Some PAssert
  | EvAfterAssert => Some PAfterAssert
  | _ => None
  end.

(** ** The execution monad

    A computation starts in a world and ends with a status, the final world
    and the events it logged. *)

Definition result (A : Type) : Type := status A * W * list event.

Definition M (A : Type) : Type := W -> result A.

Definition st {A} (r : result A) : status A := fst (fst r).
Definition world {A} (r : result A) : W := snd (fst r).
Definition trace {A} (r : result A) : list event := snd r.

Definition prepend {A} (tr : list event) (r : result A) : result A :=
  let '(s, w, tr') := r in (s, w, tr ++ tr').

Definition mret {A} (a : A) : M A := fun w => (Ret a, w, []).

Definition mbind {A B} (m : M A) (k : A -> M B) : M B :=
  fun w =>
    match m w with
    | (Ret a, w1, tr1) => prepend tr1 (k a w1)
    | (Goexit, w1, tr1) => (Goexit, w1, tr1)
    | (Panicked, w1, tr1) => (Panicked, w1, tr1)
    end.

#[global] Instance Monad_M : Monad M := {| ret := @mret; bind := @mbind |}.

Definition emit (e : event) : M unit := fun w => (Ret tt, w, [e]).
Definition goexit {A} : M A := fun w => (Goexit, w, []).
Definition panic {A} : M A := fun w => (Panicked, w, []).

(** Calling a user function: it only changes the world. *)
Definition call {A} (f : W -> A * W) : M A :=
  fun w => (Ret (fst (f w)), snd (f w), []).

(** The boundary of a scope run by a live [*testing.T]: a [Goexit] of the
    body ends the body only; a panic is not recovered. *)
Definition scoped (m : M unit) : M unit :=
  fun w =>
    match m w with
    | (Goexit, w1, tr1) => (Ret tt, w1, tr1)
    | r => r
    end.

(** *** Methods of [testingT] *)

Definition Helper (t : testingT) : M unit :=
  match t with
  | StdT Nil => panic
  | _ => ret tt
  end.

Definition Error (t : testingT) (msg : string) : M unit :=
  match t with
  | StdT Nil => panic
  | _ => emit (EvError msg)
  end.

Definition Fatalf (t : testingT) (format : string) (args : list arg) : M unit :=
  match t with
  | StdT Live => emit (EvFatalf format args) ;; goexit
  | StdT Nil => panic
  | mT => emit (EvFatalf format args)
  end.

Definition Run (t : testingT) (k : scope) (name : string)
    (body : ptrT -> M unit) : M unit :=
  match t with
  | StdT Live => emit (EvRun k name) ;; scoped (body Live) ;; emit (EvExit k)
  | StdT Nil => panic
  | mT => emit (EvRun k name) ;; body Nil ;; emit (EvExit k)
  end.

(** [defaultGetT]: the type assertion yields nil unless [t] holds a
    non-nil [*testing.T], and nil panics ([None]). *)
Definition defaultGetT (t : testingT) : option ptrT :=
  match t with
  | StdT Live => Some Live
  | _ => None
  end.

(** A call [getT(t)]. *)
Definition callGetT (getT : testingT -> option ptrT) (t : testingT) : M ptrT :=
  match getT t with
  | Some p => ret p
  | None => panic
  end.

(** *** [nillableT] *)

Definition nillableT_Helper (t : ptrT) : M unit :=
  match t with
  | Live => Helper (StdT Live)
  | Nil => ret tt
  end.

Definition nillableT_Run (t : ptrT) (runHook : option (string -> W -> W))
    (k : scope) (name : string) (body : ptrT -> M unit) : M unit :=
  match t with
  | Live => Run (StdT Live) k name body
  | Nil =>
      match runHook with
      | Some h => emit (EvRunHook name) ;; call (fun w => (tt, h name w))
      | None => ret tt
      end ;;
      body Nil
  end.

(** ** Data model

    The structs keep their Go names; those that share a name with a field
    of [Hooks] or of [lifecycle] ([Arrange], [AfterArrange], [AfterGiven],
    [Describe], [AfterAct], [Assert], [AfterAssert]) carry the suffix [T]. *)

(** Argument of the [AfterArrange] hook; [aa_TC] is a pointer in Go. *)
Record AfterArrangeT := {
  aa_TC : T;
  ArrangeRan : bool;
  NilGivenFunc : bool;
  EmptyGivenString : bool }.

(** Argument of the [AfterGiven] hook; all but [GivenRan] are pointers. *)
Record AfterGivenT := {
  ag_TC : T;
  ag_Given : string;
  ag_When : string;
  ag_Then : string;
  GivenRan : bool }.

(** Argument of [Describe], all by value. *)
Record DescribeT := {
  d_TC : T;
  d_Given : string;
  d_When : string;
  d_Then : string }.

Record DescribeResponse := {
  r_When : string;
  r_Then : string }.

(** Argument of the [AfterAct] hook: two pointers. *)
Record AfterActT := {
  aac_TC : T;
  aac_Result : R }.

(** Argument of [Assert], by value. *)
Record AssertT := {
  as_TC : T;
  as_Result : R }.

(** Argument of the [AfterAssert] hook: two pointers. *)
Record AfterAssertT := {
  aas_TC : T;
  aas_Result : R }.

Definition DescribeFunc : Type := ptrT -> DescribeT -> W -> DescribeResponse * W.
Definition ActFunc : Type := ptrT -> T -> W -> R * W.
Definition AssertFunc : Type := ptrT -> AssertT -> W -> W.

Record Hooks := {
  AfterArrange : option (ptrT -> AfterArrangeT -> W -> AfterArrangeT * W);
  AfterGiven : option (ptrT -> AfterGivenT -> W -> AfterGivenT * W);
  AfterAct : option (ptrT -> AfterActT -> W -> AfterActT * W);
  AfterAssert : option (ptrT -> AfterAssertT -> W -> AfterAssertT * W) }.

(** Argument of [Arrange]; every field but [ar_Given] is a pointer. *)
Record ArrangeT := {
  ar_TC : T;
  ar_Hooks : Hooks;
  ar_Describe : option DescribeFunc;
  ar_Act : option ActFunc;
  ar_Assert : option AssertFunc;
  ar_Given : string;
  ar_When : string;
  ar_Then : string }.

(** The setup closure returned by [Arrange]: a [func] of a [*testing.T]. *)
Definition GivenFunc : Type := ptrT -> ArrangeT -> W -> ArrangeT * W.

(** [Arrange] returns the given description, the setup closure (nil
    allowed) and leaves its effects in the pointees. *)
Definition ArrangeFunc : Type :=
  ptrT -> ArrangeT -> W -> (string * option GivenFunc * ArrangeT) * W.

Record TestVariant := {
  v_TC : T;
  Kind : string;
  SkipTC : bool;
  SkipCloneTC : bool }.

(** The sequence returned by [Variants] is pulled to its end by the range
    loop of [newI], which never breaks: it is the list of what it yields.
    What the generator does to the world is placed at its call, before the
    first entry is visited. *)
Definition VariantsFunc : Type := ptrT -> T -> W -> list TestVariant * W.

Record lifecycle := {
  Given : string;
  When : string;
  Then : string;
  hooks : Hooks;
  TC : T;
  CloneTC : option (T -> W -> T * W);
  Variants : option VariantsFunc;
  Arrange : option ArrangeFunc;
  Describe : option DescribeFunc;
  Act : option ActFunc;
  Assert : option AssertFunc;
  getT : option (testingT -> ptrT);
  runHook : option (string -> W -> W) }.

(** *** Failure texts *)

Definition prefixNote : string :=
  " (prefix = " +:+ dquote +:+ "%s" +:+ dquote +:+ ")".

Definition msgWhenEmpty : string := "When string of BDD test must not be empty".
Definition msgThenEmpty : string := "Then string of BDD test must not be empty".
Definition msgActNil : string := "Act function of BDD test is not defined".
Definition msgAssertNil : string := "Assert function of BDD test is not defined".
Definition fmtNotConfigured : string :=
  "when+then not run: BDD test not configured properly" +:+ prefixNote.
Definition fmtNilGiven : string :=
  "test setup not run: Arrange returned a nil given function" +:+ prefixNote.
Definition fmtEmptyGiven : string :=
  "test setup not run: Arrange function returned an empty Given string"
  +:+ prefixNote.
Definition fmtNoKind : string :=
  "BDD configuration error: test case variant at index %d has no Kind detail".

(** ** Assignments to the working copy [b] of one replay *)

(** [b.When = r.When; b.Then = r.Then] *)
Definition setDescribed (b : lifecycle) (r : DescribeResponse) : lifecycle :=
  {| Given := Given b; When := r_When r; Then := r_Then r; hooks := hooks b;
     TC := TC b; CloneTC := CloneTC b; Variants := Variants b;
     Arrange := Arrange b; Describe := Describe b; Act := Act b;
     Assert := Assert b; getT := getT b; runHook := runHook b |}.

(** The pointees [&b.hooks, &b.Describe, &b.Act, &b.Assert, &b.When,
    &b.Then] after a callback holding an [Arrange] struct has run. *)
Definition storeArrange (b : lifecycle) (cfg : ArrangeT) : lifecycle :=
  {| Given := Given b; When := ar_When cfg; Then := ar_Then cfg;
     hooks := ar_Hooks cfg;
     TC := TC b; CloneTC := CloneTC b; Variants := Variants b;
     Arrange := Arrange b; Describe := ar_Describe cfg; Act := ar_Act cfg;
     Assert := ar_Assert cfg; getT := getT b; runHook := runHook b |}.

(** [b.Given = given] *)
Definition setGiven (b : lifecycle) (given : string) : lifecycle :=
  {| Given := given; When := When b; Then := Then b; hooks := hooks b;
     TC := TC b; CloneTC := CloneTC b; Variants := Variants b;
     Arrange := Arrange b; Describe := Describe b; Act := Act b;
     Assert := Assert b; getT := getT b; runHook := runHook b |}.

(** The pointees [&b.Given, &b.When, &b.Then] after [AfterGiven]. *)
Definition storeAfterGiven (b : lifecycle) (ag : AfterGivenT) : lifecycle :=
  {| Given := ag_Given ag; When := ag_When ag; Then := ag_Then ag;
     hooks := hooks b;
     TC := TC b; CloneTC := CloneTC b; Variants := Variants b;
     Arrange := Arrange b; Describe := Describe b; Act := Act b;
     Assert := Assert b; getT := getT b; runHook := runHook b |}.

(** The [Arrange] struct over the current variables; [seed] is the by-value
    [Given] field. *)
Definition arrangeView (b : lifecycle) (tc : T) (seed : string) : ArrangeT :=
  {| ar_TC := tc; ar_Hooks := hooks b; ar_Describe := Describe b;
     ar_Act := Act b; ar_Assert := Assert b; ar_Given := seed;
     ar_When := When b; ar_Then := Then b |}.

(** ** The engine: [lifecycle.newI] *)

Definition isEmpty (s : string) : bool :=
  match s with
  | EmptyString => true
  | String _ _ => false
  end.

(** [getT := b.getT; if getT == nil { getT = defaultGetT }] *)
Definition resolveGetT (b : lifecycle) : testingT -> option ptrT :=
  match getT b with
  | Some g => fun t => Some (g t)
  | None => defaultGetT
  end.

(** [lifecycle.afterArrange]; the result is the test case behind [tc]. *)
Definition afterArrange (b : lifecycle) (t : ptrT) (tc : T)
    (arrangeRan nilGivenFunc emptyGivenString : bool) : M T :=
  match AfterArrange (hooks b) with
  | Some h =>
      emit (EvAfterArrange arrangeRan nilGivenFunc emptyGivenString) ;;
      r <- call (h t {| aa_TC := tc; ArrangeRan := arrangeRan;
                        NilGivenFunc := nilGivenFunc;
                        EmptyGivenString := emptyGivenString |}) ;;
      ret (aa_TC r)
  | None => ret tc
  end.

(** The naming prefix built at the head of the closure [f] of [newI]. *)
Definition composePrefix (tableTestIndex : Z) (prefix : string) : string :=
  let prefix :=
    if 0 <=? tableTestIndex then
      let s := Itoa tableTestIndex in
      if isEmpty prefix then s else s +:+ "/" +:+ prefix
    else prefix in
  if negb (isEmpty prefix) then prefix +:+ "/" else prefix.

(** [hasGivenPhase := (b.Arrange != nil || b.Given != "")] *)
Definition hasGivenPhase (b : lifecycle) : bool :=
  isSome (Arrange b) || negb (isEmpty (Given b)).

Section Replay.

(** Variables captured by the closures of [newI]. *)
Variable gT : testingT -> option ptrT.
Variable rHook : option (string -> W -> W).
Variable tableTestIndex : Z.

(** The body of the then-scope. *)
Definition thenBody (b : lifecycle) (tc : T) (res : R) (t : ptrT) : M unit :=
  nillableT_Helper t ;;
  match Assert b with
  | Some a =>
      emit EvAssert ;;
      call (fun w => (tt, a t {| as_TC := tc; as_Result := res |} w))
  | None => panic
  end ;;
  match AfterAssert (hooks b) with
  | Some h =>
      emit EvAfterAssert ;;
      _ <- call (h t {| aas_TC := tc; aas_Result := res |}) ;;
      ret tt
  | None => ret tt
  end.

(** The body of the when-scope. *)
Definition whenBody (b : lifecycle) (tc : T) (t : ptrT) : M unit :=
  nillableT_Helper t ;;
  res <- match Act b with
         | Some a => emit EvAct ;; call (a t tc)
         | None => panic
         end ;;
  r <- match AfterAct (hooks b) with
       | Some h =>
           emit EvAfterAct ;;
           call (h t {| aac_TC := tc; aac_Result := res |})
       | None => ret {| aac_TC := tc; aac_Result := res |}
       end ;;
  nillableT_Run t rHook SThen ("then " +:+ Then b)
    (thenBody b (aac_TC r) (aac_Result r)).

(** The Describe phase of the closure [test]. *)
Definition describe (b : lifecycle) (tc : T) (t : testingT) : M lifecycle :=
  match Describe b with
  | Some d =>
      p <- callGetT gT t ;;
      emit EvDescribe ;;
      r <- call (d p {| d_TC := tc; d_Given := Given b;
                        d_When := When b; d_Then := Then b |}) ;;
      ret (setDescribed b r)
  | None => ret b
  end.

(** The rest of the closure [test]: the four checks, the hard failure, and
    the when- and then-scopes.  [prefix] is the composed prefix and [hgp]
    the captured [hasGivenPhase]. *)
Definition checks (prefix : string) (hgp : bool) (b : lifecycle) (tc : T)
    (t : testingT) : M unit :=
  emit EvValidate ;;
  (if isEmpty (When b) then Error t msgWhenEmpty else ret tt) ;;
  (if isEmpty (Then b) then Error t msgThenEmpty else ret tt) ;;
  (if isNil (Act b) then Error t msgActNil else ret tt) ;;
  (if isNil (Assert b) then Error t msgAssertNil else ret tt) ;;
  if isEmpty (When b) || isEmpty (Then b) || isNil (Act b) || isNil (Assert b)
  then Fatalf t fmtNotConfigured [AStr prefix]
  else
    let whenStr := "when " +:+ When b in
    let whenStr :=
      if negb (isEmpty prefix) && negb hgp then prefix +:+ whenStr
      else whenStr in
    Run t SWhen whenStr (whenBody b tc).

(** The closure [test] as first assigned. *)
Definition test (prefix : string) (hgp : bool) (b : lifecycle) (tc : T)
    (t : testingT) : M unit :=
  Helper t ;;
  b <- describe b tc t ;;
  checks prefix hgp b tc t.

(** The body of the given-scope; [seed] is the [Given] the [Arrange] struct
    was built with. *)
Definition givenBody (prefix : string) (b : lifecycle) (tc : T)
    (given : option GivenFunc) (seed : string) (t : ptrT) : M unit :=
  Helper (StdT t) ;;
  x <- match given with
       | Some g =>
           emit EvGiven ;;
           cfg <- call (g t (arrangeView b tc seed)) ;;
           ret (storeArrange b cfg, ar_TC cfg, true)
       | None => ret (b, tc, false)
       end ;;
  let '(b, tc, givenRan) := x in
  y <- match AfterGiven (hooks b) with
       | Some h =>
           emit (EvAfterGiven givenRan) ;;
           ag <- call (h t {| ag_TC := tc; ag_Given := Given b;
                              ag_When := When b; ag_Then := Then b;
                              GivenRan := givenRan |}) ;;
           ret (storeAfterGiven b ag, ag_TC ag)
       | None => ret (b, tc)
       end ;;
  test prefix true (fst y) (snd y) (StdT t).

(** The closure [test] of the given phase, from the [AfterArrange] dispatch
    that follows a successful or absent Arrange. *)
Definition givenRest (prefix : string) (b : lifecycle) (tc : T)
    (arrangeRan : bool) (given : option GivenFunc) (seed : string)
    (t : testingT) : M unit :=
  p <- callGetT gT t ;;
  tc <- afterArrange b p tc arrangeRan (isNil given) (isEmpty (Given b)) ;;
  if isEmpty (Given b) then Fatalf t fmtEmptyGiven [AStr prefix]
  else
    Run t SGiven (prefix +:+ "given " +:+ Given b)
      (givenBody prefix b tc given seed).

(** The closure [test] of the given phase. *)
Definition givenTest (prefix : string) (b : lifecycle) (tc : T)
    (t : testingT) : M unit :=
  Helper t ;;
  match Arrange b with
  | Some a =>
      p <- callGetT gT t ;;
      emit EvArrange ;;
      r <- call (a p (arrangeView b tc (Given b))) ;;
      let '(label, given, cfg) := r in
      let seed := Given b in
      let b := setGiven (storeArrange b cfg) label in
      let tc := ar_TC cfg in
      match given with
      | None =>
          p <- callGetT gT t ;;
          _ <- afterArrange b p tc true true (isEmpty (Given b)) ;;
          Fatalf t fmtNilGiven [AStr prefix]
      | Some _ => givenRest prefix b tc true given seed t
      end
  | None => givenRest prefix b tc false None (Given b) t
  end.

(** The closure [f] of [newI]: it returns the closure [test]. *)
Definition f (b : lifecycle) (t : testingT) (tc : T) (prefix : string)
    : M (testingT -> M unit) :=
  Helper t ;;
  let prefix := composePrefix tableTestIndex prefix in
  if hasGivenPhase b then ret (givenTest prefix b tc)
  else
    p <- callGetT gT t ;;
    tc <- afterArrange b p tc false true true ;;
    x <- match AfterGiven (hooks b) with
         | Some h =>
             p <- callGetT gT t ;;
             emit (EvAfterGiven false) ;;
             ag <- call (h p {| ag_TC := tc; ag_Given := Given b;
                                ag_When := When b; ag_Then := Then b;
                                GivenRan := false |}) ;;
             ret (storeAfterGiven b ag, ag_TC ag)
         | None => ret (b, tc)
         end ;;
    ret (test prefix false (fst x) (snd x)).

(** One replay: the expression [f(t, tc, prefix)(t)]. *)
Definition replay (b : lifecycle) (t : testingT) (tc : T) (prefix : string)
    : M unit :=
  run <- f b t tc prefix ;;
  run t.

(** [if f := b.CloneTC; f != nil { tc = f(tc) }] *)
Definition cloneTC (b : lifecycle) (tc : T) : M T :=
  match CloneTC b with
  | Some c => emit (EvCloneTC tc) ;; call (c tc)
  | None => ret tc
  end.

(** The range loop over the variants; [i] is the loop counter before the
    iteration. *)
Fixpoint rangeVariants (b : lifecycle) (t : testingT)
    (vs : list TestVariant) (i : Z) : M unit :=
  match vs with
  | [] => ret tt
  | v :: vs' =>
      let i := int_wrap (i + 1) in
      if SkipTC v then rangeVariants b t vs' i
      else if isEmpty (Kind v) then
        Fatalf t fmtNoKind [AInt i] ;;
        rangeVariants b t vs' i
      else
        tc <- (if SkipCloneTC v then ret (v_TC v) else cloneTC b (v_TC v)) ;;
        replay b t tc (Kind v) ;;
        rangeVariants b t vs' i
  end.

(** The block that runs the non-variant basis test case on its own copy
    [tc := tc] of the captured test case. *)
Definition basis (b : lifecycle) (t : testingT) (tc : T) : M unit :=
  tc1 <- cloneTC b tc ;;
  replay b t tc1 "".

(** The function returned by [newI]. *)
Definition runAll (b : lifecycle) (t : testingT) : M unit :=
  Helper t ;;
  let tc := TC b in
  basis b t tc ;;
  match Variants b with
  | None => ret tt
  | Some variants =>
      p <- callGetT gT t ;;
      emit (EvVariants tc) ;;
      vs <- call (variants p tc) ;;
      rangeVariants b t vs (-1)
  end.

End Replay.

(** [lifecycle.newI]: the captured [getT] and [runHook] are those of the
    receiver. *)
Definition newI (b : lifecycle) (t : testingT) (tableTestIndex : Z)
    : M (testingT -> M unit) :=
  Helper t ;;
  ret (runAll (resolveGetT b) (runHook b) tableTestIndex b).

(** [lifecycle.new] *)
Definition new (b : lifecycle) (t : testingT) : M (testingT -> M unit) :=
  Helper t ;;
  newI b t (-1).

(** [type Lifecycle lifecycle] *)
Definition Lifecycle : Type := lifecycle.

(** [Lifecycle.NewI] and [Lifecycle.New] take a [*testing.T]. *)
Definition NewI (b : Lifecycle) (t : ptrT) (tableTestIndex : Z)
    : M (testingT -> M unit) :=
  Helper (StdT t) ;;
  newI b (StdT t) tableTestIndex.

Definition New (b : Lifecycle) (t : ptrT) : M (testingT -> M unit) :=
  Helper (StdT t) ;;
  new b (StdT t).

(** Building the test function and calling it at once, as every caller
    does: [b.NewI(t, i)(t)]. *)
Definition runNewI (b : lifecycle) (tableTestIndex : Z) (t : testingT)
    : M unit :=
  run <- newI b t tableTestIndex ;;
  run t.

(** ** The builders [GWT] and [WT] *)

Definition noHooks : Hooks :=
  {| AfterArrange := None; AfterGiven := None; AfterAct := None;
     AfterAssert := None |}.

(** [*cfg.TC = tc] *)
Definition setArTC (cfg : ArrangeT) (tc : T) : ArrangeT :=
  {| ar_TC := tc; ar_Hooks := ar_Hooks cfg; ar_Describe := ar_Describe cfg;
     ar_Act := ar_Act cfg; ar_Assert := ar_Assert cfg;
     ar_Given := ar_Given cfg; ar_When := ar_When cfg;
     ar_Then := ar_Then cfg |}.

(** [GWT]; a panic is the left summand, with its message. *)
Definition GWT (tc : T)
    (given : string) (givenF : option (ptrT -> T -> W -> T * W))
    (when_ : string) (whenF : option ActFunc)
    (then_ : string) (thenF : option (ptrT -> T -> R -> W -> W))
    : string + Lifecycle :=
  let arrange : string + option ArrangeFunc :=
    match givenF with
    | Some gf =>
        if isEmpty given then
          inl "tbdd.GWT: given description must be non-empty when given function is non-nil"
        else
          inr (Some (fun (_ : ptrT) (cfg : ArrangeT) (w : W) =>
                 ((given,
                   Some (fun (t : ptrT) (cur : ArrangeT) (w' : W) =>
                           let r := gf t (ar_TC cur) w' in
                           (setArTC cur (fst r), snd r)),
                   cfg), w)))
    | None => inr None
    end in
  match arrange with
  | inl msg => inl msg
  | inr arrange =>
      if isEmpty when_ then inl "tbdd.GWT: when description must be non-empty"
      else match whenF with
      | None => inl "tbdd.GWT: when function must be non-nil"
      | Some _ =>
          if isEmpty then_ then
            inl "tbdd.GWT: then description must be non-empty"
          else match thenF with
          | None => inl "tbdd.GWT: then function must be non-nil"
          | Some tf =>
              inr {| Given := given; When := when_; Then := then_;
                     hooks := noHooks; TC := tc; CloneTC := None;
                     Variants := None; Arrange := arrange; Describe := None;
                     Act := whenF;
                     Assert := Some (fun t cfg w =>
                                 tf t (as_TC cfg) (as_Result cfg) w);
                     getT := None; runHook := None |}
          end
      end
  end.

Definition WT (tc : T)
    (when_ : string) (whenF : option ActFunc)
    (then_ : string) (thenF : option (ptrT -> T -> R -> W -> W))
    : string + Lifecycle :=
  GWT tc "" None when_ whenF then_ thenF.

(** ** Reading a log *)

Definition rank (p : phase) : nat :=
  match p with
  | PArrange => 0 | PAfterArrange => 1 | PGiven => 2 | PAfterGiven => 3
  | PDescribe => 4 | PValidate => 5 | PAct => 6 | PAfterAct => 7
  | PAssert => 8 | PAfterAssert => 9
  end%nat.

(** The phases of a log, in the order they were executed. *)
Fixpoint phases (tr : list event) : list phase :=
  match tr with
  | [] => []
  | e :: tr' =>
      match phase_of e with
      | Some p => p :: phases tr'
      | None => phases tr'
      end
  end.

(** The scopes opened through [Run], in order. *)
Fixpoint scopes (tr : list event) : list (scope * string) :=
  match tr with
  | [] => []
  | EvRun k name :: tr' => (k, name) :: scopes tr'
  | _ :: tr' => scopes tr'
  end.

(** The hard failures, in order. *)
Fixpoint fatals (tr : list event) : list (string * list arg) :=
  match tr with
  | [] => []
  | EvFatalf format args :: tr' => (format, args) :: fatals tr'
  | _ :: tr' => fatals tr'
  end.

(** The seeds handed to [Variants], in order. *)
Fixpoint seeds (tr : list event) : list T :=
  match tr with
  | [] => []
  | EvVariants s :: tr' => s :: seeds tr'
  | _ :: tr' => seeds tr'
  end.

(** Reading a log with a lower bound [n] on the rank of the next phase:
    [Some m] when every phase respects the bound left by the one before,
    [m] being the bound at the end. *)
Fixpoint advance (n : nat) (tr : list event) : option nat :=
  match tr with
  | [] => Some n
  | e :: tr' =>
      match phase_of e with
      | Some p => if (n <=? rank p)%nat then advance (S (rank p)) tr' else None
      | None => advance n tr'
      end
  end.

(** The soft failures, in order. *)
Fixpoint errors (tr : list event) : list string :=
  match tr with
  | [] => []
  | EvError msg :: tr' => msg :: errors tr'
  | _ :: tr' => errors tr'
  end.

(** ** Descriptors of the scenarios *)

(** Hooks that only touch the test case. *)
Definition tcHooks (h1 h2 : T -> W -> T * W)
    (h3 h4 : T -> R -> W -> (T * R) * W) : Hooks :=
  {| AfterArrange := Some (fun _ a w =>
       let r := h1 (aa_TC a) w in
       ({| aa_TC := fst r; ArrangeRan := ArrangeRan a;
           NilGivenFunc := NilGivenFunc a;
           EmptyGivenString := EmptyGivenString a |}, snd r));
     AfterGiven := Some (fun _ a w =>
       let r := h2 (ag_TC a) w in
       ({| ag_TC := fst r; ag_Given := ag_Given a; ag_When := ag_When a;
           ag_Then := ag_Then a; GivenRan := GivenRan a |}, snd r));
     AfterAct := Some (fun _ a w =>
       let r := h3 (aac_TC a) (aac_Result a) w in
       ({| aac_TC := fst (fst r); aac_Result := snd (fst r) |}, snd r));
     AfterAssert := Some (fun _ a w =>
       let r := h4 (aas_TC a) (aas_Result a) w in
       ({| aas_TC := fst (fst r); aas_Result := snd (fst r) |}, snd r)) |}.

(** An [Arrange] that works on the test case, returns the label [label]
    and, when [giv] is given, a setup closure that works on the test case. *)
Definition tcArrange (label : string) (arr : T -> W -> T * W)
    (giv : option (T -> W -> T * W)) : ArrangeFunc :=
  fun _ cfg w =>
    let r := arr (ar_TC cfg) w in
    ((label,
      match giv with
      | Some g => Some (fun (_ : ptrT) (cur : ArrangeT) (w1 : W) =>
                          let r1 := g (ar_TC cur) w1 in
                          (setArTC cur (fst r1), snd r1))
      | None => None
      end,
      setArTC cfg (fst r)), snd r).

(** Scenario C: Arrange returns the label [ctx] and a setup closure, with
    [When = w], [Then = t] and the four hooks configured. *)
Definition scenarioC (tc : T) (arr giv : T -> W -> T * W)
    (act : ActFunc) (asrt : AssertFunc) (h1 h2 : T -> W -> T * W)
    (h3 h4 : T -> R -> W -> (T * R) * W) : lifecycle :=
  {| Given := ""; When := "w"; Then := "t";
     hooks := tcHooks h1 h2 h3 h4;
     TC := tc; CloneTC := None; Variants := None;
     Arrange := Some (tcArrange "ctx" arr (Some giv));
     Describe := None; Act := Some act; Assert := Some asrt;
     getT := None; runHook := None |}.

(** A variant entry. *)
Definition variantOf (tc : T) (kind : string) (skip : bool) : TestVariant :=
  {| v_TC := tc; Kind := kind; SkipTC := skip; SkipCloneTC := false |}.

(** A descriptor with labels, a constant [Act], an [Assert] that does
    nothing, and, when [vs] is given, a generator that yields [vs]. *)
Definition scenarioPlain (tc : T) (res : R) (given when_ then_ : string)
    (vs : option (list TestVariant)) (gt : option (testingT -> ptrT))
    : lifecycle :=
  {| Given := given; When := when_; Then := then_; hooks := noHooks;
     TC := tc; CloneTC := None;
     Variants := match vs with
                 | Some l => Some (fun _ _ w => (l, w))
                 | None => None
                 end;
     Arrange := None; Describe := None;
     Act := Some (fun _ _ w => (res, w));
     Assert := Some (fun _ _ w => w);
     getT := gt; runHook := None |}.

(** Scenario B: nothing is configured. *)
Definition scenarioB (tc : T) (gt : option (testingT -> ptrT)) : lifecycle :=
  {| Given := ""; When := ""; Then := ""; hooks := noHooks;
     TC := tc; CloneTC := None; Variants := None;
     Arrange := None; Describe := None; Act := None; Assert := None;
     getT := gt; runHook := None |}.

(** A descriptor whose [Arrange] returns [label] and a nil setup closure. *)
Definition scenarioNilGiven (tc : T) (res : R) (label : string) (hs : Hooks)
    : lifecycle :=
  {| Given := ""; When := "w"; Then := "t"; hooks := hs;
     TC := tc; CloneTC := None; Variants := None;
     Arrange := Some (tcArrange label (fun x w => (x, w)) None);
     Describe := None;
     Act := Some (fun _ _ w => (res, w));
     Assert := Some (fun _ _ w => w);
     getT := None; runHook := None |}.



(** A descriptor whose [Arrange] returns an empty label and a setup closure
    that does nothing. *)
Definition scenarioEmptyGiven (tc : T) (res : R) (hs : Hooks) : lifecycle :=
  {| Given := ""; When := "w"; Then := "t"; hooks := hs;
     TC := tc; CloneTC := None; Variants := None;
     Arrange := Some (tcArrange "" (fun x w => (x, w))
                                (Some (fun x w => (x, w))));
     Describe := None;
     Act := Some (fun _ _ w => (res, w));
     Assert := Some (fun _ _ w => w);
     getT := None; runHook := None |}.

(** A descriptor with [CloneTC], a generator that yields [vs], and the
    [getT] and [runHook] of a self-test: the hook records the names it is
    given in the world. *)
Definition scenarioClone (tc : T) (res : R) (clone : T -> T)
    (vs : list TestVariant) (record : string -> W -> W) : lifecycle :=
  {| Given := ""; When := "w"; Then := "t"; hooks := noHooks;
     TC := tc; CloneTC := Some (fun x w => (clone x, w));
     Variants := Some (fun _ _ w => (vs, w));
     Arrange := None; Describe := None;
     Act := Some (fun _ _ w => (res, w));
     Assert := Some (fun _ _ w => w);
     getT := Some (fun _ => Nil); runHook := Some record |}.

(** Scenario B with a [Given] label. *)
Definition scenarioBGiven (tc : T) (given : string)
    (gt : option (testingT -> ptrT)) : lifecycle :=
  {| Given := given; When := ""; Then := ""; hooks := noHooks;
     TC := tc; CloneTC := None; Variants := None;
     Arrange := None; Describe := None; Act := None; Assert := None;
     getT := gt; runHook := None |}.

(** The [getT] the package's tests substitute. *)
Definition nilGetT (t : testingT) : ptrT := Nil.

(** ** Specification vocabulary *)

(** The checks of the validation gate, in the words of the lifecycle
    documentation: the messages of the violated ones, in order. *)
Definition violations (b : lifecycle) : list string :=
  (if isEmpty (When b) then [msgWhenEmpty] else []) ++
  (if isEmpty (Then b) then [msgThenEmpty] else []) ++
  (if isNil (Act b) then [msgActNil] else []) ++
  (if isNil (Assert b) then [msgAssertNil] else []).

(** How a hard failure on [t] leaves the calling function. *)
Definition afterFatalf (t : testingT) : status unit :=
  match t with
  | StdT Live => Goexit
  | _ => Ret tt
  end.

(** Every event of whatever world [m] starts in satisfies [P]. *)
Definition emits {A} (P : event -> Prop) (m : M A) : Prop :=
  forall w, Forall P (trace (m w)).

(** Started with bound [n], the phases of [m] are in order and leave a
    bound of at most [k]. *)
Definition phased {A} (n k : nat) (m : M A) : Prop :=
  forall w, exists k', advance n (trace (m w)) = Some k' /\ (k' <= k)%nat.


(** What the part of a replay after Describe may log: [cp] is the composed
    prefix, [hgp] tells whether the replay has a given phase and [b] is the
    working copy the checks read. *)
Definition gateEvent (cp : string) (hgp : bool) (b : lifecycle) (e : event)
    : Prop :=
  match e with
  | EvRun SWhen name => name = (if hgp then "" else cp) +:+ "when " +:+ When b
  | EvRun SThen name => name = "then " +:+ Then b
  | EvRunHook name => name = "then " +:+ Then b
  | EvFatalf format args => format = fmtNotConfigured /\ args = [AStr cp]
  | EvExit SWhen | EvExit SThen | EvError _ | EvValidate | EvAct | EvAfterAct
  | EvAssert | EvAfterAssert => True
  | _ => False
  end.

(** What one replay may log. *)
Definition replayEvent (cp : string) (hgp : bool) (e : event) : Prop :=
  match e with
  | EvRun SGiven name =>
      hgp = true /\ exists lbl, name = cp +:+ "given " +:+ lbl
  | EvRun SWhen name =>
      exists lbl, name = (if hgp then "" else cp) +:+ "when " +:+ lbl
  | EvRun SThen name => exists lbl, name = "then " +:+ lbl
  | EvExit SGiven => hgp = true
  | EvFatalf format args => args = [AStr cp]
  | EvCloneTC _ | EvVariants _ => False
  | _ => True
  end.

(** Whatever [m] returns satisfies [Q]. *)
Definition returns {A} (Q : A -> Prop) (m : M A) : Prop :=
  forall w a, st (m w) = Ret a -> Q a.

(** The loop counter of the range loop after [n] more iterations. *)
Fixpoint counterAfter (i : Z) (n : nat) : Z :=
  match n with
  | O => i
  | S n' => counterAfter (int_wrap (i + 1)) n'
  end.


(** The hook-dispatch events of the path through a nil setup closure. *)
Definition nilGivenDispatch (hs : Hooks) (label : string) : list event :=
  match AfterArrange hs with
  | Some _ => [EvAfterArrange true true (isEmpty label)]
  | None => []
  end.

(** No call of the generator. *)
Definition noSeed (e : event) : Prop :=
  match e with
  | EvVariants _ => False
  | _ => True
  end.

(** The construction-time invariants of [GWT], negated: some invariant is
    violated. *)
Definition gwtViolated (given : string)
    (givenF : option (ptrT -> T -> W -> T * W))
    (when_ : string) (whenF : option ActFunc)
    (then_ : string) (thenF : option (ptrT -> T -> R -> W -> W)) : bool :=
  (isSome givenF && isEmpty given) || isEmpty when_ || isNil whenF
  || isEmpty then_ || isNil thenF.

(** What the hook events of a replay tell: [ran] says whether [Arrange] is
    configured and [hgp] whether the replay has a given phase. *)
Definition hookFlags (ran hgp : bool) (e : event) : Prop :=
  match e with
  | EvAfterArrange arrangeRan nilGivenFunc emptyGivenString =>
      arrangeRan = ran /\
      (ran = false -> nilGivenFunc = true) /\
      (hgp = false -> emptyGivenString = true)
  | EvAfterGiven givenRan => givenRan = (ran && hgp)
  | _ => True
  end.



(** What an event is to a replay that may have failed: a phase, a failure,
    the opening of a scope, or something else. *)
Inductive kind := KPhase (p : phase) | KFail | KOpen | KQuiet.

Definition kind_of (e : event) : kind :=
  match e with
  | EvError _ | EvFatalf _ _ => KFail
  | EvRun _ _ | EvRunHook _ => KOpen
  | _ => match phase_of e with
         | Some p => KPhase p
         | None => KQuiet
         end
  end.

(** One step of reading a log with a bound: a phase must respect the bound
    and raises it past its rank, a failure raises it past every rank, and a
    scope may only open under a bound that some phase can still respect. *)
Definition stepF (n : nat) (k : kind) : option nat :=
  match k with
  | KPhase p => if (n <=? rank p)%nat then Some (S (rank p)) else None
  | KFail => Some (Nat.max n 10)
  | KOpen => if (n <=? 9)%nat then Some n else None
  | KQuiet => Some n
  end.

Fixpoint advanceF (n : nat) (tr : list event) : option nat :=
  match tr with
  | [] => Some n
  | e :: tr' =>
      match stepF n (kind_of e) with
      | Some n' => advanceF n' tr'
      | None => None
      end
  end.

(** [phased] for [advanceF]. *)
Definition phasedF {A} (n k : nat) (m : M A) : Prop :=
  forall w, exists k', advanceF n (trace (m w)) = Some k' /\ (k' <= k)%nat.

(** Running a phase or opening a scope. *)
Definition isWork (e : event) : bool :=
  match kind_of e with
  | KPhase _ | KOpen => true
  | _ => false
  end.

Definition isFailure (e : event) : bool :=
  match kind_of e with
  | KFail => true
  | _ => false
  end.

(** [m] never panics. *)
Definition safe {A} (m : M A) : Prop := forall w, st (m w) <> Panicked.


(** The opening of a given-scope. *)
Definition opensGiven (e : event) : bool :=
  match e with
  | EvRun SGiven _ => true
  | _ => false
  end.

(** An event of the phases before Describe. *)
Definition setupOnly (e : event) : Prop :=
  match e with
  | EvArrange | EvAfterArrange _ _ _ | EvGiven | EvAfterGiven _ => True
  | _ => False
  end.

(** An event that is neither the marker of the checks nor a soft failure. *)
Definition offGate (e : event) : Prop :=
  match e with
  | EvValidate | EvError _ => False
  | _ => True
  end.

(** What a replay has logged when it reaches Describe: the phases before
    Describe and, when the replay has a given phase, the opening of the
    given-scope under the composed prefix [cp]. *)
Definition beforeGate (cp : string) (hgp : bool) (pre : list event) : Prop :=
  if hgp then
    exists pre1 lbl pre2,
      pre = pre1 ++ EvRun SGiven (cp +:+ "given " +:+ lbl) :: pre2 /\
      Forall setupOnly pre1 /\ Forall setupOnly pre2
  else Forall setupOnly pre.

(** The log [tr] is [pre], then the log [trd] of a Describe phase that
    leaves the working copy [b'], then the log of the checks of [b'], then
    [post]. *)
Definition gateSplit (gT : testingT -> option ptrT)
    (rHook : option (string -> W -> W)) (cp : string) (hgp : bool)
    (tr pre trd post : list event) (b' : lifecycle) : Prop :=
  exists b0 tc' t' w0 w',
    describe gT b0 tc' t' w0 = (Ret b', w', trd) /\
    t' <> StdT Nil /\
    tr = pre ++ trd ++ trace (checks rHook cp hgp b' tc' t' w') ++ post.

(** The indices that the no-Kind failures of a log report, in order. *)
Fixpoint noKindReports (tr : list event) : list Z :=
  match tr with
  | [] => []
  | EvFatalf format [AInt n] :: tr' =>
      if String.eqb format fmtNoKind then n :: noKindReports tr'
      else noKindReports tr'
  | _ :: tr' => noKindReports tr'
  end.

(** The positions, counted from [n], of the entries of a sequence that are
    not skipped and have an empty [Kind]. *)
Fixpoint noKindPositions (vs : list TestVariant) (n : nat) : list nat :=
  match vs with
  | [] => []
  | v :: vs' =>
      if negb (SkipTC v) && isEmpty (Kind v)
      then n :: noKindPositions vs' (S n)
      else noKindPositions vs' (S n)
  end.

(** The test cases handed to [CloneTC], in order. *)
Fixpoint clones (tr : list event) : list T :=
  match tr with
  | [] => []
  | EvCloneTC x :: tr' => x :: clones tr'
  | _ :: tr' => clones tr'
  end.

(** The entries of a walk whose test case is cloned: those that are run and
    not marked [SkipCloneTC]. *)
Definition cloned (v : TestVariant) : bool :=
  negb (SkipTC v) && negb (isEmpty (Kind v)) && negb (SkipCloneTC v).

(** The opening of a scope on the host. *)
Definition opens (e : event) : bool :=
  match e with
  | EvRun _ _ => true
  | _ => false
  end.

(** [m] either opens a scope and returns, or opens none and ends the calling
    test function. *)
Definition scopeOrExit (m : M unit) : Prop :=
  forall w,
    st (m w) = if existsb opens (trace (m w)) then Ret tt else Goexit.

(** [m] returns, whatever the world it starts in. *)
Definition completes {A} (m : M A) : Prop :=
  forall w, exists a, st (m w) = Ret a.

(** * Properties *)

(** ** The execution monad *)

Lemma prepend_nil {A} (r : result A) : prepend [] r = r.
Proof. destruct r as [[s w] tr]. reflexivity. Qed.

Lemma st_prepend {A} (tr : list event) (r : result A) :
  st (prepend tr r) = st r.
Proof. destruct r as [[s w] tr']. reflexivity. Qed.

Lemma world_prepend {A} (tr : list event) (r : result A) :
  world (prepend tr r) = world r.
Proof. destruct r as [[s w] tr']. reflexivity. Qed.

Lemma trace_prepend {A} (tr : list event) (r : result A) :
  trace (prepend tr r) = tr ++ trace r.
Proof. destruct r as [[s w] tr']. reflexivity. Qed.

Lemma bind_run {A B} (m : M A) (k : A -> M B) (w : W) :
  bind m k w =
  match st (m w) with
  | Ret a => prepend (trace (m w)) (k a (world (m w)))
  | Goexit => (Goexit, world (m w), trace (m w))
  | Panicked => (Panicked, world (m w), trace (m w))
  end.
Proof.
  simpl. unfold mbind. destruct (m w) as [[[a| |] w1] tr1]; reflexivity.
Qed.

Lemma trace_bind {A B} (m : M A) (k : A -> M B) (w : W) :
  trace (bind m k w) =
  match st (m w) with
  | Ret a => trace (m w) ++ trace (k a (world (m w)))
  | _ => trace (m w)
  end.
Proof.
  rewrite bind_run. destruct (st (m w)); [apply trace_prepend | |]; reflexivity.
Qed.

Lemma trace_scoped (m : M unit) (w : W) : trace (scoped m w) = trace (m w).
Proof. unfold scoped. destruct (m w) as [[[a| |] w1] tr1]; reflexivity. Qed.

Lemma call_run {A} (f : W -> A * W) (w : W) :
  call f w = (Ret (fst (f w)), snd (f w), []).
Proof. reflexivity. Qed.

Lemma st_bind {A B} (m : M A) (k : A -> M B) (w : W) :
  st (bind m k w) =
  match st (m w) with
  | Ret a => st (k a (world (m w)))
  | Goexit => Goexit
  | Panicked => Panicked
  end.
Proof.
  rewrite bind_run. destruct (st (m w)); [apply st_prepend | |]; reflexivity.
Qed.

Lemma prepend_prepend {A} (l1 l2 : list event) (r : result A) :
  prepend l1 (prepend l2 r) = prepend (l1 ++ l2) r.
Proof. destruct r as [[s w] tr]. unfold prepend. simpl. rewrite app_assoc. reflexivity. Qed.

Lemma bind_ret_l {A B} (a : A) (k : A -> M B) (w : W) :
  bind (ret a) k w = k a w.
Proof. simpl. unfold mbind, mret. apply prepend_nil. Qed.

Lemma bind_ext {A B} (m : M A) (k k' : A -> M B) (w : W) :
  (forall a w', k a w' = k' a w') -> bind m k w = bind m k' w.
Proof.
  intros H. simpl. unfold mbind.
  destruct (m w) as [[[a| |] w1] tr1]; try reflexivity.
  rewrite H. reflexivity.
Qed.

Lemma bind_assoc {A B C} (m : M A) (k : A -> M B) (h : B -> M C) (w : W) :
  bind (bind m k) h w = bind m (fun a => bind (k a) h) w.
Proof.
  simpl. unfold mbind.
  destruct (m w) as [[[a| |] w1] tr1]; try reflexivity.
  destruct (k a w1) as [[[b| |] w2] tr2]; try reflexivity.
  unfold prepend, st, world, trace. simpl.
  destruct (h b w2) as [[s w3] tr3]. simpl.
  rewrite app_assoc. reflexivity.
Qed.

(** ** A logic of logs: [emits] *)

Lemma returns_ret {A} (Q : A -> Prop) (a : A) : Q a -> returns Q (ret a).
Proof. intros H w a' E. injection E as <-. exact H. Qed.

Lemma returns_bind {A B} (Q : B -> Prop) (m : M A) (k : A -> M B) :
  (forall a, returns Q (k a)) -> returns Q (bind m k).
Proof.
  intros H w b E. rewrite st_bind in E.
  destruct (st (m w)) as [a| |]; try discriminate.
  exact (H a _ _ E).
Qed.

Lemma emits_bind_post {A B} (P : event -> Prop) (Q : A -> Prop)
    (m : M A) (k : A -> M B) :
  returns Q m -> emits P m -> (forall a, Q a -> emits P (k a)) ->
  emits P (bind m k).
Proof.
  intros HQ Hm Hk w. rewrite trace_bind.
  destruct (st (m w)) as [a| |] eqn:E; try apply Hm.
  apply Forall_app. split; [apply Hm | apply Hk; exact (HQ w a E)].
Qed.

Lemma emits_ret {A} (P : event -> Prop) (a : A) : emits P (ret a).
Proof. intros w. constructor. Qed.

Lemma emits_emit (P : event -> Prop) (e : event) : P e -> emits P (emit e).
Proof. intros H w. repeat constructor. exact H. Qed.

Lemma emits_call {A} (P : event -> Prop) (f : W -> A * W) : emits P (call f).
Proof. intros w. rewrite call_run. constructor. Qed.

Lemma emits_panic {A} (P : event -> Prop) : emits P (@panic A).
Proof. intros w. constructor. Qed.

Lemma emits_goexit {A} (P : event -> Prop) : emits P (@goexit A).
Proof. intros w. constructor. Qed.

Lemma emits_bind {A B} (P : event -> Prop) (m : M A) (k : A -> M B) :
  emits P m -> (forall a, emits P (k a)) -> emits P (bind m k).
Proof.
  intros Hm Hk w. rewrite trace_bind.
  destruct (st (m w)); try apply Hm.
  apply Forall_app. split; [apply Hm | apply Hk].
Qed.

Lemma emits_scoped (P : event -> Prop) (m : M unit) :
  emits P m -> emits P (scoped m).
Proof. intros H w. rewrite trace_scoped. apply H. Qed.

Lemma emits_impl {A} (P Q : event -> Prop) (m : M A) :
  (forall e, P e -> Q e) -> emits P m -> emits Q m.
Proof. intros HPQ H w. eapply Forall_impl; [exact HPQ | apply H]. Qed.

Lemma emits_In {A} (P : event -> Prop) (m : M A) (w : W) (e : event) :
  In e (trace (m w)) -> emits P m -> P e.
Proof. intros Hin H. exact (proj1 (Forall_forall _ _) (H w) e Hin). Qed.

(** One syntax-directed step of an [emits] proof. *)
Ltac emits_step :=
  match goal with
  | |- emits _ (bind _ _) => apply emits_bind; [| intros ?]
  | |- emits _ (ret _) => apply emits_ret
  | |- emits _ (emit _) => apply emits_emit
  | |- emits _ (call _) => apply emits_call
  | |- emits _ panic => apply emits_panic
  | |- emits _ goexit => apply emits_goexit
  | |- emits _ (scoped _) => apply emits_scoped
  | |- emits _ (match ?x with _ => _ end) => destruct x
  end.

Section ReplayFacts.

Variable gT : testingT -> option ptrT.
Variable rHook : option (string -> W -> W).
Variable tableTestIndex : Z.

Lemma emits_Helper (P : event -> Prop) (t : testingT) : emits P (Helper t).
Proof. unfold Helper. repeat emits_step. Qed.

Lemma emits_callGetT (P : event -> Prop) (t : testingT) :
  emits P (callGetT gT t).
Proof. unfold callGetT. repeat emits_step. Qed.

Lemma emits_Error (P : event -> Prop) (t : testingT) (msg : string) :
  P (EvError msg) -> emits P (Error t msg).
Proof. intros H. unfold Error. repeat emits_step; exact H. Qed.

Lemma emits_Fatalf (P : event -> Prop) (t : testingT) format args :
  P (EvFatalf format args) -> emits P (Fatalf t format args).
Proof. intros H. unfold Fatalf. repeat emits_step; exact H. Qed.

Lemma emits_Run (P : event -> Prop) (t : testingT) k name body :
  P (EvRun k name) -> P (EvExit k) -> (forall p, emits P (body p)) ->
  emits P (Run t k name body).
Proof. intros H1 H2 H3. unfold Run. repeat emits_step; auto. Qed.

Lemma emits_nillableT_Helper (P : event -> Prop) (t : ptrT) :
  emits P (nillableT_Helper t).
Proof. unfold nillableT_Helper. destruct t; [apply emits_Helper | apply emits_ret]. Qed.

Lemma emits_nillableT_Run (P : event -> Prop) (t : ptrT) k name body :
  P (EvRun k name) -> P (EvExit k) -> P (EvRunHook name) ->
  (forall p, emits P (body p)) ->
  emits P (nillableT_Run t rHook k name body).
Proof.
  intros H1 H2 H3 H4. unfold nillableT_Run.
  destruct t; [apply emits_Run; assumption |].
  repeat emits_step; auto.
Qed.

(** ** Scope names and failures of one replay *)

Lemma whenStr_eq (prefix whenStr : string) (hgp : bool) :
  (if negb (isEmpty prefix) && negb hgp then prefix +:+ whenStr else whenStr)
  = (if hgp then "" else prefix) +:+ whenStr.
Proof. destruct prefix, hgp; reflexivity. Qed.

Lemma emits_thenBody (P : event -> Prop) b tc res t :
  P EvAssert -> P EvAfterAssert -> emits P (thenBody b tc res t).
Proof.
  intros H1 H2. unfold thenBody.
  apply emits_bind; [apply emits_nillableT_Helper | intros _].
  repeat emits_step; assumption.
Qed.

Lemma emits_whenBody (P : event -> Prop) b tc t :
  P EvAct -> P EvAfterAct -> P EvAssert -> P EvAfterAssert ->
  P (EvRun SThen ("then " +:+ Then b)) -> P (EvExit SThen) ->
  P (EvRunHook ("then " +:+ Then b)) ->
  emits P (whenBody rHook b tc t).
Proof.
  intros H1 H2 H3 H4 H5 H6 H7. unfold whenBody.
  apply emits_bind; [apply emits_nillableT_Helper | intros _].
  apply emits_bind; [repeat emits_step; assumption | intros res].
  apply emits_bind; [repeat emits_step; assumption | intros r].
  apply emits_nillableT_Run; try assumption.
  intros p. apply emits_thenBody; assumption.
Qed.

Lemma emits_checks cp hgp b tc t :
  emits (gateEvent cp hgp b) (checks rHook cp hgp b tc t).
Proof.
  unfold checks.
  apply emits_bind; [apply emits_emit; exact I | intros _].
  do 4 (apply emits_bind;
        [match goal with
         | |- emits _ (if ?c then _ else _) =>
             destruct c; [apply emits_Error; exact I | apply emits_ret]
         end
        | intros _]).
  match goal with |- emits _ (if ?c then _ else _) => destruct c end.
  - apply emits_Fatalf. split; reflexivity.
  - rewrite whenStr_eq.
    apply emits_Run; [reflexivity | exact I |].
    intros p. apply emits_whenBody; simpl; auto.
Qed.

Lemma gateEvent_replayEvent cp hgp b e :
  gateEvent cp hgp b e -> replayEvent cp hgp e.
Proof.
  destruct e as [[| |] name|[| |]|name|msg|format args|x|s| | | | | | | | | |];
    simpl; try tauto; intros H; eauto.
Qed.

Lemma emits_describe (P : event -> Prop) b tc t :
  P EvDescribe -> emits P (describe gT b tc t).
Proof.
  intros H. unfold describe. destruct (Describe b); [| apply emits_ret].
  apply emits_bind; [apply emits_callGetT | intros p].
  repeat emits_step. exact H.
Qed.

Lemma emits_test cp hgp b tc t :
  emits (replayEvent cp hgp) (test gT rHook cp hgp b tc t).
Proof.
  unfold test.
  apply emits_bind; [apply emits_Helper | intros _].
  apply emits_bind; [apply emits_describe; exact I | intros b'].
  eapply emits_impl; [apply gateEvent_replayEvent | apply emits_checks].
Qed.

Lemma emits_afterArrange (P : event -> Prop) b p tc ran nilg emptyg :
  P (EvAfterArrange ran nilg emptyg) ->
  emits P (afterArrange b p tc ran nilg emptyg).
Proof. intros H. unfold afterArrange. repeat emits_step. exact H. Qed.

Lemma emits_givenBody cp b tc given seed t :
  emits (replayEvent cp true) (givenBody gT rHook cp b tc given seed t).
Proof.
  unfold givenBody.
  apply emits_bind; [apply emits_Helper | intros _].
  apply emits_bind; [repeat emits_step; exact I | intros [[b1 tc1] givenRan]].
  apply emits_bind; [repeat emits_step; exact I | intros y].
  apply emits_test.
Qed.

Lemma emits_givenRest cp b tc ran given seed t :
  emits (replayEvent cp true) (givenRest gT rHook cp b tc ran given seed t).
Proof.
  unfold givenRest.
  apply emits_bind; [apply emits_callGetT | intros p].
  apply emits_bind; [apply emits_afterArrange; exact I | intros tc1].
  destruct (isEmpty (Given b)).
  - apply emits_Fatalf. reflexivity.
  - apply emits_Run; simpl; eauto. intros p'. apply emits_givenBody.
Qed.

Lemma emits_givenTest cp b tc t :
  emits (replayEvent cp true) (givenTest gT rHook cp b tc t).
Proof.
  unfold givenTest.
  apply emits_bind; [apply emits_Helper | intros _].
  destruct (Arrange b) as [a|]; [| apply emits_givenRest].
  apply emits_bind; [apply emits_callGetT | intros p].
  apply emits_bind; [apply emits_emit; exact I | intros _].
  apply emits_bind; [apply emits_call | intros [[label given] cfg]].
  destruct given as [g|]; [apply emits_givenRest |].
  apply emits_bind; [apply emits_callGetT | intros p'].
  apply emits_bind; [apply emits_afterArrange; exact I | intros _].
  apply emits_Fatalf. reflexivity.
Qed.

(** What the closure [f] returns. *)
Lemma f_returns b t tc prefix :
  returns (fun run =>
             if hasGivenPhase b
             then run = givenTest gT rHook (composePrefix tableTestIndex prefix) b tc
             else exists b' tc',
                 run = test gT rHook (composePrefix tableTestIndex prefix)
                            false b' tc')
          (f gT rHook tableTestIndex b t tc prefix).
Proof.
  unfold f. apply returns_bind. intros _.
  destruct (hasGivenPhase b).
  - apply returns_ret. reflexivity.
  - do 3 (apply returns_bind; intros ?).
    apply returns_ret. eauto.
Qed.

Lemma emits_f b t tc prefix :
  emits (replayEvent (composePrefix tableTestIndex prefix) (hasGivenPhase b))
        (f gT rHook tableTestIndex b t tc prefix).
Proof.
  unfold f.
  apply emits_bind; [apply emits_Helper | intros _].
  destruct (hasGivenPhase b); [apply emits_ret |].
  apply emits_bind; [apply emits_callGetT | intros p].
  apply emits_bind; [apply emits_afterArrange; exact I | intros tc1].
  apply emits_bind; [| intros x; apply emits_ret].
  destruct (AfterGiven (hooks b)); [| apply emits_ret].
  apply emits_bind; [apply emits_callGetT | intros p'].
  repeat emits_step. exact I.
Qed.

(** Every event of a replay is one that [replayEvent] allows. *)
Lemma emits_replay b t tc prefix :
  emits (replayEvent (composePrefix tableTestIndex prefix) (hasGivenPhase b))
        (replay gT rHook tableTestIndex b t tc prefix).
Proof.
  unfold replay.
  eapply emits_bind_post; [apply f_returns | apply emits_f |].
  intros run Hrun. simpl in Hrun. destruct (hasGivenPhase b).
  - subst run. apply emits_givenTest.
  - destruct Hrun as (b' & tc' & ->). apply emits_test.
Qed.

(** ** The order of the phases: [phased] *)

Lemma advance_app (n : nat) (l1 l2 : list event) :
  advance n (l1 ++ l2) =
  match advance n l1 with
  | Some m => advance m l2
  | None => None
  end.
Proof.
  revert n. induction l1 as [|e l1 IH]; intros n; simpl; [reflexivity |].
  destruct (phase_of e) as [p|]; [| apply IH].
  destruct (n <=? rank p)%nat; [apply IH | reflexivity].
Qed.

Lemma advance_ge (l : list event) (n m : nat) :
  advance n l = Some m -> (n <= m)%nat.
Proof.
  revert n. induction l as [|e l IH]; intros n; simpl.
  - intros E. injection E as <-. lia.
  - destruct (phase_of e) as [p|]; [| apply IH].
    destruct (Nat.leb_spec n (rank p)); [| discriminate].
    intros E. apply IH in E. lia.
Qed.

Lemma advance_mono (l : list event) (n n' m : nat) :
  advance n l = Some m -> (n' <= n)%nat ->
  exists m', advance n' l = Some m' /\ (m' <= m)%nat.
Proof.
  destruct l as [|e l]; simpl.
  - intros E Hle. injection E as <-. eauto.
  - revert e n n'. induction l as [|e2 l IH]; intros e n n'.
    + simpl. destruct (phase_of e) as [p|].
      * destruct (Nat.leb_spec n (rank p)); [| discriminate].
        intros E Hle. destruct (Nat.leb_spec n' (rank p)); [eauto | lia].
      * intros E Hle. injection E as <-. eauto.
    + destruct (phase_of e) as [p|].
      * destruct (Nat.leb_spec n (rank p)); [| discriminate].
        intros E Hle. destruct (Nat.leb_spec n' (rank p)); [eauto | lia].
      * intros E Hle. exact (IH e2 n n' E Hle).
Qed.

(** A log that [advance] accepts lists its phases by strictly increasing
    rank. *)
Lemma advance_sorted (l : list event) (n m : nat) :
  advance n l = Some m ->
  StronglySorted lt (map rank (phases l)) /\
  Forall (fun r => (n <= r)%nat) (map rank (phases l)).
Proof.
  revert n. induction l as [|e l IH]; intros n; simpl.
  - intros _. split; constructor.
  - destruct (phase_of e) as [p|]; [| apply IH].
    destruct (Nat.leb_spec n (rank p)) as [Hle|]; [| discriminate].
    intros E. destruct (IH _ E) as [Hs Hb]. simpl. split.
    + constructor; [exact Hs |].
      eapply Forall_impl; [| exact Hb]. simpl. intros r Hr. lia.
    + constructor; [exact Hle |].
      eapply Forall_impl; [| exact Hb]. simpl. intros r Hr. lia.
Qed.

Lemma advance_silent (l : list event) (n : nat) :
  Forall (fun e => phase_of e = None) l -> advance n l = Some n.
Proof.
  induction 1 as [|e l He _ IH]; simpl; [reflexivity |].
  rewrite He. exact IH.
Qed.

Lemma phased_weaken {A} (n n' k k' : nat) (m : M A) :
  phased n k m -> (n' <= n)%nat -> (k <= k')%nat -> phased n' k' m.
Proof.
  intros H Hn Hk w. destruct (H w) as (j & E & Hj).
  destruct (advance_mono _ E Hn) as (j' & E' & Hj').
  exists j'. split; [exact E' | lia].
Qed.

Lemma phased_silent {A} (n k : nat) (m : M A) :
  emits (fun e => phase_of e = None) m -> (n <= k)%nat -> phased n k m.
Proof.
  intros H Hle w. exists n. split; [apply advance_silent, H | exact Hle].
Qed.

Lemma phased_emit (n k : nat) (e : event) (p : phase) :
  phase_of e = Some p -> (n <= rank p)%nat -> (S (rank p) <= k)%nat ->
  phased n k (emit e).
Proof.
  intros E H1 H2 w. exists (S (rank p)). simpl. rewrite E.
  destruct (Nat.leb_spec n (rank p)); [auto | lia].
Qed.

Lemma phased_bind_post {A B} (Q : A -> Prop) (n mid k : nat)
    (m : M A) (f : A -> M B) :
  returns Q m -> phased n mid m -> (forall a, Q a -> phased mid k (f a)) ->
  (mid <= k)%nat -> phased n k (bind m f).
Proof.
  intros HQ Hm Hf Hle w. rewrite trace_bind.
  destruct (Hm w) as (j & E & Hj).
  destruct (st (m w)) as [a| |] eqn:Est; try (exists j; split; [exact E | lia]).
  rewrite advance_app, E.
  destruct (Hf a (HQ w a Est) (world (m w))) as (j2 & E2 & Hj2).
  destruct (advance_mono _ E2 Hj) as (j3 & E3 & Hj3).
  exists j3. split; [exact E3 | lia].
Qed.

Lemma phased_bind {A B} (n mid k : nat) (m : M A) (f : A -> M B) :
  phased n mid m -> (forall a, phased mid k (f a)) -> (mid <= k)%nat ->
  phased n k (bind m f).
Proof.
  intros Hm Hf Hle.
  apply phased_bind_post with (Q := fun _ => True) (mid := mid); auto.
  intros w a _. exact I.
Qed.

Lemma phased_scoped (n k : nat) (m : M unit) :
  phased n k m -> phased n k (scoped m).
Proof. intros H w. rewrite trace_scoped. apply H. Qed.

Ltac silent := apply phased_silent; [| lia].

Lemma phased_Run (n k : nat) (t : testingT) sc name body :
  (n <= k)%nat -> (forall p, phased n k (body p)) ->
  phased n k (Run t sc name body).
Proof.
  intros Hle H. unfold Run. destruct t as [[|]|].
  - apply phased_bind with (mid := n); [| intros _ | lia].
    { silent. apply emits_emit. reflexivity. }
    apply phased_bind with (mid := k); [| intros _ | lia].
    { apply phased_scoped, H. }
    silent. apply emits_emit. reflexivity.
  - silent. apply emits_panic.
  - apply phased_bind with (mid := n); [| intros _ | lia].
    { silent. apply emits_emit. reflexivity. }
    apply phased_bind with (mid := k); [apply H | intros _ | lia].
    silent. apply emits_emit. reflexivity.
Qed.

Lemma phased_nillableT_Run (n k : nat) (t : ptrT) sc name body :
  (n <= k)%nat -> (forall p, phased n k (body p)) ->
  phased n k (nillableT_Run t rHook sc name body).
Proof.
  intros Hle H. unfold nillableT_Run. destruct t.
  - apply phased_Run; assumption.
  - apply phased_bind with (mid := n); [| intros _; apply H | lia].
    silent. destruct rHook; repeat emits_step. reflexivity.
Qed.

Lemma phased_thenBody b tc res t : phased 8 10 (thenBody b tc res t).
Proof.
  unfold thenBody.
  apply phased_bind with (mid := 8%nat); [| intros _ | lia].
  { silent. apply emits_nillableT_Helper. }
  apply phased_bind with (mid := 9%nat); [| intros _ | lia].
  { destruct (Assert b).
    - apply phased_bind with (mid := 9%nat); [| intros _ | lia].
      + apply phased_emit with (p := PAssert); simpl; auto.
      + silent. apply emits_call.
    - silent. apply emits_panic. }
  destruct (AfterAssert (hooks b)).
  - apply phased_bind with (mid := 10%nat); [| intros _ | lia].
    + apply phased_emit with (p := PAfterAssert); simpl; auto.
    + silent. repeat emits_step.
  - silent. apply emits_ret.
Qed.

Lemma phased_whenBody b tc t : phased 6 10 (whenBody rHook b tc t).
Proof.
  unfold whenBody.
  apply phased_bind with (mid := 6%nat); [| intros _ | lia].
  { silent. apply emits_nillableT_Helper. }
  apply phased_bind with (mid := 7%nat); [| intros res | lia].
  { destruct (Act b).
    - apply phased_bind with (mid := 7%nat); [| intros _ | lia].
      + apply phased_emit with (p := PAct); simpl; auto.
      + silent. apply emits_call.
    - silent. apply emits_panic. }
  apply phased_bind with (mid := 8%nat); [| intros r | lia].
  { destruct (AfterAct (hooks b)).
    - apply phased_bind with (mid := 8%nat); [| intros _ | lia].
      + apply phased_emit with (p := PAfterAct); simpl; auto.
      + silent. apply emits_call.
    - silent. apply emits_ret. }
  apply phased_nillableT_Run; [lia |]. intros p. apply phased_thenBody.
Qed.

Lemma phased_checks cp hgp b tc t : phased 5 10 (checks rHook cp hgp b tc t).
Proof.
  unfold checks.
  apply phased_bind with (mid := 6%nat); [| intros _ | lia].
  { apply phased_emit with (p := PValidate); simpl; auto. }
  do 4 (apply phased_bind with (mid := 6%nat);
        [silent;
         match goal with
         | |- emits _ (if ?c then _ else _) =>
             destruct c; [apply emits_Error; reflexivity | apply emits_ret]
         end
        | intros _ | lia]).
  match goal with |- phased _ _ (if ?c then _ else _) => destruct c end.
  - silent. apply emits_Fatalf. reflexivity.
  - apply phased_Run; [lia |]. intros p. apply phased_whenBody.
Qed.

Lemma phased_describe b tc t : phased 4 5 (describe gT b tc t).
Proof.
  unfold describe. destruct (Describe b); [| silent; apply emits_ret].
  apply phased_bind with (mid := 4%nat); [| intros p | lia].
  { silent. apply emits_callGetT. }
  apply phased_bind with (mid := 5%nat); [| intros _ | lia].
  { apply phased_emit with (p := PDescribe); simpl; auto. }
  silent. repeat emits_step.
Qed.

Lemma phased_test cp hgp b tc t : phased 4 10 (test gT rHook cp hgp b tc t).
Proof.
  unfold test.
  apply phased_bind with (mid := 4%nat); [| intros _ | lia].
  { silent. apply emits_Helper. }
  apply phased_bind with (mid := 5%nat); [apply phased_describe | | lia].
  intros b'. apply phased_checks.
Qed.

Lemma phased_afterArrange (n : nat) b p tc ran nilg emptyg :
  (n <= 1)%nat -> phased n 2 (afterArrange b p tc ran nilg emptyg).
Proof.
  intros Hn. unfold afterArrange.
  destruct (AfterArrange (hooks b)); [| silent; apply emits_ret].
  apply phased_bind with (mid := 2%nat); [| intros _ | lia].
  { apply phased_emit with (p := PAfterArrange); simpl; auto. }
  silent. repeat emits_step.
Qed.

Lemma phased_givenBody cp b tc given seed t :
  phased 2 10 (givenBody gT rHook cp b tc given seed t).
Proof.
  unfold givenBody.
  apply phased_bind with (mid := 2%nat); [| intros _ | lia].
  { silent. apply emits_Helper. }
  apply phased_bind with (mid := 3%nat); [| intros [[b1 tc1] givenRan] | lia].
  { destruct given; [| silent; apply emits_ret].
    apply phased_bind with (mid := 3%nat); [| intros _ | lia].
    - apply phased_emit with (p := PGiven); simpl; auto.
    - silent. repeat emits_step. }
  apply phased_bind with (mid := 4%nat); [| intros y; apply phased_test | lia].
  destruct (AfterGiven (hooks b1)); [| silent; apply emits_ret].
  apply phased_bind with (mid := 4%nat); [| intros _ | lia].
  - apply phased_emit with (p := PAfterGiven); simpl; auto.
  - silent. repeat emits_step.
Qed.

Lemma phased_givenRest cp b tc ran given seed t :
  phased 1 10 (givenRest gT rHook cp b tc ran given seed t).
Proof.
  unfold givenRest.
  apply phased_bind with (mid := 1%nat); [| intros p | lia].
  { silent. apply emits_callGetT. }
  apply phased_bind with (mid := 2%nat);
    [apply phased_afterArrange; lia | intros tc1 | lia].
  destruct (isEmpty (Given b)).
  - silent. apply emits_Fatalf. reflexivity.
  - apply phased_Run; [lia |]. intros p'. apply phased_givenBody.
Qed.

Lemma phased_givenTest cp b tc t :
  phased 0 10 (givenTest gT rHook cp b tc t).
Proof.
  unfold givenTest.
  apply phased_bind with (mid := 0%nat); [| intros _ | lia].
  { silent. apply emits_Helper. }
  destruct (Arrange b) as [a|].
  2:{ eapply phased_weaken; [apply phased_givenRest | lia | lia]. }
  apply phased_bind with (mid := 0%nat); [| intros p | lia].
  { silent. apply emits_callGetT. }
  apply phased_bind with (mid := 1%nat); [| intros _ | lia].
  { apply phased_emit with (p := PArrange); simpl; auto. }
  apply phased_bind with (mid := 1%nat);
    [silent; apply emits_call | intros [[label given] cfg] | lia].
  destruct given as [g|]; [apply phased_givenRest |].
  apply phased_bind with (mid := 1%nat); [| intros p' | lia].
  { silent. apply emits_callGetT. }
  apply phased_bind with (mid := 2%nat);
    [apply phased_afterArrange; lia | intros _ | lia].
  silent. apply emits_Fatalf. reflexivity.
Qed.

Lemma phased_f b t tc prefix :
  phased 0 (if hasGivenPhase b then 0 else 4)
         (f gT rHook tableTestIndex b t tc prefix).
Proof.
  unfold f.
  apply phased_bind with (mid := 0%nat); [| intros _ | lia].
  { silent. apply emits_Helper. }
  destruct (hasGivenPhase b); [silent; apply emits_ret |].
  apply phased_bind with (mid := 0%nat); [| intros p | lia].
  { silent. apply emits_callGetT. }
  apply phased_bind with (mid := 2%nat);
    [apply phased_afterArrange; lia | intros tc1 | lia].
  apply phased_bind with (mid := 4%nat);
    [| intros x; silent; apply emits_ret | lia].
  destruct (AfterGiven (hooks b)); [| silent; apply emits_ret].
  apply phased_bind with (mid := 2%nat); [| intros p' | lia].
  { silent. apply emits_callGetT. }
  apply phased_bind with (mid := 4%nat); [| intros _ | lia].
  { apply phased_emit with (p := PAfterGiven); simpl; auto. }
  silent. repeat emits_step.
Qed.

Lemma phased_replay b t tc prefix :
  phased 0 10 (replay gT rHook tableTestIndex b t tc prefix).
Proof.
  unfold replay.
  eapply phased_bind_post with (mid := if hasGivenPhase b then 0%nat else 4%nat);
    [apply f_returns | apply phased_f | | destruct (hasGivenPhase b); lia].
  intros run Hrun. simpl in Hrun. destruct (hasGivenPhase b).
  - subst run. apply phased_givenTest.
  - destruct Hrun as (b' & tc' & ->). apply phased_test.
Qed.

(** ** The validation gate *)

Lemma checks_misconfigured cp hgp b tc t w :
  t <> StdT Nil -> violations b <> [] ->
  checks rHook cp hgp b tc t w =
  (afterFatalf t, w,
   EvValidate :: map EvError (violations b)
     ++ [EvFatalf fmtNotConfigured [AStr cp]]).
Proof.
  intros Ht Hv. unfold checks, violations in *.
  destruct t as [[|]|]; [| contradiction |];
    destruct (isEmpty (When b)), (isEmpty (Then b)), (Act b), (Assert b);
    simpl in *; try reflexivity; contradiction.
Qed.

(** ** Running the engine step by step *)

Lemma bind_Ret {A B} (m : M A) (k : A -> M B) (w w1 : W) (a : A) tr1 :
  m w = (Ret a, w1, tr1) -> bind m k w = prepend tr1 (k a w1).
Proof. intros E. simpl. unfold mbind. rewrite E. reflexivity. Qed.

Lemma Helper_ok (t : testingT) (w : W) :
  t <> StdT Nil -> Helper t w = (Ret tt, w, []).
Proof. destruct t as [[|]|]; intros H; [reflexivity | contradiction | reflexivity]. Qed.

Lemma callGetT_ok (t : testingT) (p : ptrT) (w : W) :
  gT t = Some p -> callGetT gT t w = (Ret p, w, []).
Proof. intros E. unfold callGetT. rewrite E. reflexivity. Qed.

Lemma Fatalf_run (t : testingT) format args (w : W) :
  t <> StdT Nil ->
  Fatalf t format args w = (afterFatalf t, w, [EvFatalf format args]).
Proof. destruct t as [[|]|]; intros H; [reflexivity | contradiction | reflexivity]. Qed.

Lemma afterArrange_run b p tc ran nilg emptyg (w : W) :
  exists tc' w',
    afterArrange b p tc ran nilg emptyg w =
    (Ret tc', w',
     match AfterArrange (hooks b) with
     | Some _ => [EvAfterArrange ran nilg emptyg]
     | None => []
     end).
Proof.
  unfold afterArrange. destruct (AfterArrange (hooks b)) as [h|].
  - rewrite (bind_Ret (emit _) _ w eq_refl).
    rewrite (bind_Ret _ _ _ (call_run _ w)), prepend_nil.
    do 2 eexists. reflexivity.
  - do 2 eexists. reflexivity.
Qed.

(** A replay with a given phase is the given-phase closure [test]. *)
Lemma replay_given b t tc prefix w :
  hasGivenPhase b = true ->
  replay gT rHook tableTestIndex b t tc prefix w =
  bind (Helper t)
       (fun _ => givenTest gT rHook (composePrefix tableTestIndex prefix)
                           b tc t) w.
Proof.
  intros H. unfold replay, f. rewrite bind_assoc.
  refine (bind_ext (Helper t) _
            (fun _ => givenTest gT rHook (composePrefix tableTestIndex prefix)
                                b tc t) w _).
  intros _ w'. rewrite H.
  exact (bind_ret_l
           (givenTest gT rHook (composePrefix tableTestIndex prefix) b tc)
           (fun run => run t) w').
Qed.

(** ** The path through a nil setup closure *)

Lemma replay_nil_given b t tc prefix w a p label cfg w1 :
  Arrange b = Some a -> t <> StdT Nil -> gT t = Some p ->
  a p (arrangeView b tc (Given b)) w = ((label, None, cfg), w1) ->
  st (replay gT rHook tableTestIndex b t tc prefix w) = afterFatalf t /\
  trace (replay gT rHook tableTestIndex b t tc prefix w) =
    EvArrange :: nilGivenDispatch (ar_Hooks cfg) label
      ++ [EvFatalf fmtNilGiven [AStr (composePrefix tableTestIndex prefix)]].
Proof.
  intros HA Ht Hg Ha.
  rewrite replay_given by (unfold hasGivenPhase; rewrite HA; reflexivity).
  rewrite (bind_Ret _ _ _ (Helper_ok w Ht)), prepend_nil.
  unfold givenTest. rewrite HA.
  rewrite (bind_Ret _ _ _ (Helper_ok w Ht)), prepend_nil.
  rewrite (bind_Ret _ _ _ (callGetT_ok w Hg)), prepend_nil.
  rewrite (bind_Ret (emit EvArrange) _ w eq_refl).
  assert (Hc : call (a p (arrangeView b tc (Given b))) w
               = (Ret (label, None, cfg), w1, [])).
  { unfold call. rewrite Ha. reflexivity. }
  rewrite (bind_Ret _ _ _ Hc), prepend_nil.
  rewrite (bind_Ret _ _ _ (callGetT_ok w1 Hg)), prepend_nil.
  destruct (afterArrange_run (setGiven (storeArrange b cfg) label) p
              (ar_TC cfg) true true
              (isEmpty (Given (setGiven (storeArrange b cfg) label))) w1)
    as (tc' & w' & E).
  rewrite (bind_Ret _ _ _ E), (Fatalf_run _ _ w' Ht).
  unfold nilGivenDispatch. simpl.
  destruct (AfterArrange (ar_Hooks cfg)); split; reflexivity.
Qed.

(** ** The range loop over the variants *)

Lemma int_wrap_succ (a : Z) : int_wrap (int_wrap a + 1) = int_wrap (a + 1).
Proof.
  unfold int_wrap. f_equal.
  replace ((a + 2 ^ 63) mod 2 ^ 64 - 2 ^ 63 + 1 + 2 ^ 63)
    with ((a + 2 ^ 63) mod 2 ^ 64 + 1) by ring.
  rewrite Zplus_mod_idemp_l. f_equal. ring.
Qed.

Lemma int_wrap_small (z : Z) : - 2 ^ 63 <= z < 2 ^ 63 -> int_wrap z = z.
Proof. intros H. unfold int_wrap. rewrite Z.mod_small; lia. Qed.

Lemma counterAfter_wrap (n : nat) (x : Z) :
  counterAfter (int_wrap x) n = int_wrap (x + Z.of_nat n).
Proof.
  revert x. induction n as [|n IH]; intros x.
  - simpl. f_equal. lia.
  - cbn [counterAfter]. rewrite int_wrap_succ, IH. f_equal. lia.
Qed.

Lemma rangeVariants_app b t vs1 vs2 i w :
  rangeVariants gT rHook tableTestIndex b t (vs1 ++ vs2) i w =
  bind (rangeVariants gT rHook tableTestIndex b t vs1 i)
       (fun _ => rangeVariants gT rHook tableTestIndex b t vs2
                   (counterAfter i (length vs1))) w.
Proof.
  revert i w. induction vs1 as [|v vs1 IH]; intros i w.
  - cbn [app rangeVariants length counterAfter].
    rewrite bind_ret_l. reflexivity.
  - cbn [app rangeVariants length counterAfter].
    destruct (SkipTC v); [apply IH |].
    destruct (isEmpty (Kind v)).
    + rewrite bind_assoc. apply bind_ext. intros _ w'. apply IH.
    + rewrite bind_assoc. apply bind_ext. intros tc w'.
      rewrite bind_assoc. apply bind_ext. intros _ w''. apply IH.
Qed.

(** The walk up to an entry, then the entry, then the rest. *)
Lemma rangeVariants_reach b t vs1 v vs2 w w1 tr1 :
  rangeVariants gT rHook tableTestIndex b t vs1 (-1) w = (Ret tt, w1, tr1) ->
  rangeVariants gT rHook tableTestIndex b t (vs1 ++ v :: vs2) (-1) w =
  prepend tr1
    (rangeVariants gT rHook tableTestIndex b t (v :: vs2)
       (counterAfter (-1) (length vs1)) w1).
Proof.
  intros E. rewrite rangeVariants_app, (bind_Ret _ _ _ E). reflexivity.
Qed.

Lemma counterAfter_next (n : nat) :
  int_wrap (counterAfter (-1) n + 1) = int_wrap (Z.of_nat n).
Proof.
  change (-1) with (int_wrap (-1)) at 1.
  rewrite counterAfter_wrap, int_wrap_succ. f_equal. lia.
Qed.

(** ** Naming of the scopes *)

Lemma isEmpty_append (s1 s2 : string) :
  isEmpty (s1 +:+ s2) = isEmpty s1 && isEmpty s2.
Proof. destruct s1; reflexivity. Qed.

Lemma composePrefix_kind (kind : string) :
  isEmpty kind = false ->
  composePrefix tableTestIndex kind =
  (if 0 <=? tableTestIndex then Itoa tableTestIndex +:+ "/" +:+ kind
   else kind) +:+ "/".
Proof.
  intros H. unfold composePrefix. rewrite H.
  destruct (0 <=? tableTestIndex).
  - rewrite !isEmpty_append, H, !andb_false_r. reflexivity.
  - rewrite H. reflexivity.
Qed.

Lemma emits_cloneTC (P : event -> Prop) b tc :
  (forall x, P (EvCloneTC x)) -> emits P (cloneTC b tc).
Proof. intros H. unfold cloneTC. repeat emits_step. apply H. Qed.

(** What the replay of one variant may log. *)
Lemma emits_variant b t v i :
  SkipTC v = false -> isEmpty (Kind v) = false ->
  emits (fun e =>
           match e with
           | EvCloneTC _ => True
           | _ => replayEvent (composePrefix tableTestIndex (Kind v))
                              (hasGivenPhase b) e
           end)
        (rangeVariants gT rHook tableTestIndex b t [v] i).
Proof.
  intros Hs Hk. cbn [rangeVariants]. rewrite Hs, Hk.
  apply emits_bind; [| intros tc].
  { destruct (SkipCloneTC v); [apply emits_ret |].
    apply emits_cloneTC. intros x. exact I. }
  apply emits_bind; [| intros _; apply emits_ret].
  eapply emits_impl; [| apply emits_replay].
  intros e He. destruct e; try exact He. exact I.
Qed.

(** C1, as the code has it: the replay of a non-skipped variant with a
    non-empty [Kind] names its scopes with the prefix [Kind/] when the test
    function was built without an ordinal, and with [ordinal/Kind/], the
    ordinal in decimal, when [NewI] was given an ordinal of at least 0.  The
    prefix is on the given-scope, or on the when-scope when the replay has
    no given phase; the then-scope carries none. *)
Theorem variant_scope_prefix b t v i w k name :
  SkipTC v = false -> isEmpty (Kind v) = false ->
  In (EvRun k name)
     (trace (rangeVariants gT rHook tableTestIndex b t [v] i w)) ->
  let cp :=
    (if 0 <=? tableTestIndex then Itoa tableTestIndex +:+ "/" +:+ Kind v
     else Kind v) +:+ "/" in
  match k with
  | SGiven => exists lbl, name = cp +:+ "given " +:+ lbl
  | SWhen =>
      exists lbl,
        name = (if hasGivenPhase b then "" else cp) +:+ "when " +:+ lbl
  | SThen => exists lbl, name = "then " +:+ lbl
  end.
Proof.
  intros Hs Hk Hin cp.
  pose proof (@emits_In _ _ _ _ _ Hin (emits_variant b t v i Hs Hk)) as H.
  simpl in H. rewrite (composePrefix_kind _ Hk) in H. fold cp in H.
  destruct k; [destruct H as [_ H] | |]; exact H.
Qed.

(** C5: a replay of a descriptor with no [Arrange] and an empty [Given]
    opens no given-scope and names its when-scope by the composed prefix,
    ["when "] and a label; a replay with a given phase names its when-scope
    without the prefix, which is on the given-scope; and in both cases the
    label is the [When] the checks after Describe have read. *)
Theorem when_scope_prefix b t tc prefix w :
  let cp := composePrefix tableTestIndex prefix in
  let tr := trace (replay gT rHook tableTestIndex b t tc prefix w) in
  (Arrange b = None -> Given b = "" ->
   (forall name, ~ In (EvRun SGiven name) tr) /\
   (forall name, In (EvRun SWhen name) tr ->
                 exists lbl, name = cp +:+ "when " +:+ lbl)) /\
  (hasGivenPhase b = true ->
   (forall name, In (EvRun SWhen name) tr ->
                 exists lbl, name = "when " +:+ lbl) /\
   (forall name, In (EvRun SGiven name) tr ->
                 exists lbl, name = cp +:+ "given " +:+ lbl)) /\
  (forall hgp b' tc' t' w' name,
      In (EvRun SWhen name) (trace (checks rHook cp hgp b' tc' t' w')) ->
      name = (if hgp then "" else cp) +:+ "when " +:+ When b').
Proof.
  intros cp tr.
  pose proof (emits_replay b t tc prefix) as H. fold cp in H.
  split; [| split].
  - intros HA HG.
    assert (E : hasGivenPhase b = false).
    { unfold hasGivenPhase. rewrite HA, HG. reflexivity. }
    rewrite E in H. split.
    + intros name Hin. destruct (@emits_In _ _ _ _ _ Hin H) as [Habs _]. discriminate.
    + intros name Hin. exact (@emits_In _ _ _ _ _ Hin H).
  - intros E. rewrite E in H. split.
    + intros name Hin. exact (@emits_In _ _ _ _ _ Hin H).
    + intros name Hin. destruct (@emits_In _ _ _ _ _ Hin H) as [_ Hn]. exact Hn.
  - intros hgp b' tc' t' w' name Hin.
    exact (@emits_In _ _ _ _ _ Hin (emits_checks cp hgp b' tc' t')).
Qed.

(** ** The order of the phases *)

(** C2: the phases of every replay are logged by strictly increasing rank,
    that is in the order Arrange, AfterArrange, the setup closure,
    AfterGiven, Describe, the checks, Act, AfterAct, Assert, AfterAssert,
    whatever is configured; and scenario C, run on a live [*testing.T]
    without an ordinal, opens [given ctx], in it [when w], in it [then t],
    with the hooks in the order AfterArrange, AfterGiven, AfterAct,
    AfterAssert. *)
Theorem phases_in_fixed_order :
  (forall b t tc prefix w,
      StronglySorted lt
        (map rank (phases (trace (replay gT rHook tableTestIndex b t tc
                                         prefix w))))) /\
  (forall tc arr giv act asrt h1 h2 h3 h4 w,
      trace (runNewI (scenarioC tc arr giv act asrt h1 h2 h3 h4) (-1)
                     (StdT Live) w) =
      [EvArrange; EvAfterArrange true false false;
       EvRun SGiven "given ctx"; EvGiven; EvAfterGiven true;
       EvValidate;
       EvRun SWhen "when w"; EvAct; EvAfterAct;
       EvRun SThen "then t"; EvAssert; EvAfterAssert;
       EvExit SThen; EvExit SWhen; EvExit SGiven]).
Proof.
  split.
  - intros b t tc prefix w.
    destruct (phased_replay b t tc prefix w) as (k & E & _).
    exact (proj1 (advance_sorted _ _ E)).
  - intros tc arr giv act asrt h1 h2 h3 h4 w.
    reflexivity.
Qed.

(** ** Failures *)

Lemma scopes_app (l1 l2 : list event) :
  scopes (l1 ++ l2) = scopes l1 ++ scopes l2.
Proof.
  induction l1 as [|e l1 IH]; [reflexivity |].
  destruct e; simpl; rewrite IH; reflexivity.
Qed.

Lemma scopes_errors (l : list string) : scopes (map EvError l) = [].
Proof. induction l; simpl; auto. Qed.

Lemma describe_run b tc t w b' w' trd :
  describe gT b tc t w = (Ret b', w', trd) ->
  trd = match Describe b with Some _ => [EvDescribe] | None => [] end.
Proof.
  unfold describe. destruct (Describe b) as [d|].
  - unfold callGetT. destruct (gT t) as [p|]; [| discriminate].
    rewrite bind_ret_l.
    rewrite (bind_Ret (emit EvDescribe) _ w eq_refl).
    rewrite (bind_Ret _ _ _ (call_run _ w)), prepend_nil.
    intros E. injection E as _ _ <-. reflexivity.
  - intros E. injection E as _ _ <-. reflexivity.
Qed.

(** C4: when [Arrange] is configured and returns a nil setup closure, the
    replay reports exactly one hard failure, the nil-given message with the
    composed prefix as its argument, opens no scope at all and runs no
    phase after Arrange and its hook. *)
Theorem nil_given_aborts b t tc prefix w a p label cfg w1 :
  Arrange b = Some a -> t <> StdT Nil -> gT t = Some p ->
  a p (arrangeView b tc (Given b)) w = ((label, None, cfg), w1) ->
  let r := replay gT rHook tableTestIndex b t tc prefix w in
  st r = afterFatalf t /\
  fatals (trace r) =
    [(fmtNilGiven, [AStr (composePrefix tableTestIndex prefix)])] /\
  errors (trace r) = [] /\
  scopes (trace r) = [] /\
  Forall (fun ph => ph = PArrange \/ ph = PAfterArrange) (phases (trace r)).
Proof.
  intros HA Ht Hg Ha r.
  destruct (@replay_nil_given b t tc prefix w a p label cfg w1 HA Ht Hg Ha) as [Hst Htr].
  fold r in Hst, Htr. split; [exact Hst |]. rewrite Htr.
  unfold nilGivenDispatch.
  destruct (AfterArrange (ar_Hooks cfg)); simpl; repeat split; auto.
Qed.


(** ** The variants *)

Lemma rangeVariants_empty_kind b t v vs i w :
  SkipTC v = false -> isEmpty (Kind v) = true ->
  rangeVariants gT rHook tableTestIndex b t (v :: vs) i w =
  bind (Fatalf t fmtNoKind [AInt (int_wrap (i + 1))])
       (fun _ => rangeVariants gT rHook tableTestIndex b t vs
                   (int_wrap (i + 1))) w.
Proof. intros Hs Hk. cbn [rangeVariants]. rewrite Hs, Hk. reflexivity. Qed.

(** The failure of an entry without [Kind] on the recording double, after
    the walk has reached it. *)
Lemma rangeVariants_empty_kind_mT b vs1 v vs2 w w1 tr1 :
  SkipTC v = false -> isEmpty (Kind v) = true ->
  rangeVariants gT rHook tableTestIndex b mT vs1 (-1) w = (Ret tt, w1, tr1) ->
  rangeVariants gT rHook tableTestIndex b mT (vs1 ++ v :: vs2) (-1) w =
  prepend
    (tr1 ++ [EvFatalf fmtNoKind [AInt (int_wrap (Z.of_nat (length vs1)))]])
    (rangeVariants gT rHook tableTestIndex b mT vs2
       (int_wrap (Z.of_nat (length vs1))) w1).
Proof.
  intros Hs Hk E.
  rewrite (@rangeVariants_reach b mT vs1 v vs2 w w1 tr1 E).
  rewrite (@rangeVariants_empty_kind b mT v vs2 _ w1 Hs Hk).
  rewrite counterAfter_next.
  rewrite (bind_Ret (Fatalf mT _ _) _ w1 eq_refl).
  apply prepend_prepend.
Qed.

(** The failure of an entry without [Kind] in any context, after the walk
    has reached it. *)
Lemma rangeVariants_empty_kind_last b t vs1 v w w1 tr1 :
  t <> StdT Nil -> SkipTC v = false -> isEmpty (Kind v) = true ->
  rangeVariants gT rHook tableTestIndex b t vs1 (-1) w = (Ret tt, w1, tr1) ->
  rangeVariants gT rHook tableTestIndex b t (vs1 ++ [v]) (-1) w =
  (afterFatalf t, w1,
   tr1 ++ [EvFatalf fmtNoKind [AInt (int_wrap (Z.of_nat (length vs1)))]]).
Proof.
  intros Ht Hs Hk E.
  rewrite (@rangeVariants_reach b t vs1 v [] w w1 tr1 E).
  rewrite (@rangeVariants_empty_kind b t v [] _ w1 Hs Hk).
  rewrite counterAfter_next.
  destruct t as [[|]|]; [reflexivity | contradiction | reflexivity].
Qed.

(** On a live [*testing.T] the same failure ends the walk: the entries
    after it are not visited. *)
Remark live_walk_stops_without_kind b vs1 v vs2 w w1 tr1 :
  SkipTC v = false -> isEmpty (Kind v) = true ->
  rangeVariants gT rHook tableTestIndex b (StdT Live) vs1 (-1) w
    = (Ret tt, w1, tr1) ->
  rangeVariants gT rHook tableTestIndex b (StdT Live) (vs1 ++ v :: vs2) (-1) w
    = (Goexit, w1,
       tr1 ++ [EvFatalf fmtNoKind [AInt (int_wrap (Z.of_nat (length vs1)))]]).
Proof.
  intros Hs Hk E.
  rewrite (@rangeVariants_reach b (StdT Live) vs1 v vs2 w w1 tr1 E).
  rewrite (@rangeVariants_empty_kind b (StdT Live) v vs2 _ w1 Hs Hk).
  rewrite counterAfter_next. reflexivity.
Qed.

(** C7: an entry with [SkipTC] set adds nothing to the walk, neither an
    event nor a change of the world, but the counter: the walk is the walk
    of the entries before it followed by the walk of the entries after it
    with the counter one further, so that on the recording double an entry
    without [Kind] right after it reports the index that counts it. *)
Theorem skipped_variant_is_silent b t vs1 v vs2 w :
  SkipTC v = true ->
  rangeVariants gT rHook tableTestIndex b t (vs1 ++ v :: vs2) (-1) w =
    bind (rangeVariants gT rHook tableTestIndex b t vs1 (-1))
         (fun _ => rangeVariants gT rHook tableTestIndex b t vs2
                     (int_wrap (Z.of_nat (length vs1)))) w /\
  (forall v' vs3 w1 tr1,
      SkipTC v' = false -> isEmpty (Kind v') = true ->
      rangeVariants gT rHook tableTestIndex b mT vs1 (-1) w
        = (Ret tt, w1, tr1) ->
      rangeVariants gT rHook tableTestIndex b mT (vs1 ++ v :: v' :: vs3)
                    (-1) w =
      prepend
        (tr1 ++ [EvFatalf fmtNoKind
                   [AInt (int_wrap (Z.of_nat (length vs1) + 1))]])
        (rangeVariants gT rHook tableTestIndex b mT vs3
           (int_wrap (Z.of_nat (length vs1) + 1)) w1)).
Proof.
  intros Hs.
  assert (Hstep : forall t' vs w',
             rangeVariants gT rHook tableTestIndex b t' (v :: vs)
               (counterAfter (-1) (length vs1)) w' =
             rangeVariants gT rHook tableTestIndex b t' vs
               (int_wrap (Z.of_nat (length vs1))) w').
  { intros t' vs w'. cbn [rangeVariants]. rewrite Hs, counterAfter_next.
    reflexivity. }
  split.
  - rewrite rangeVariants_app. apply bind_ext. intros _ w'. apply Hstep.
  - intros v' vs3 w1 tr1 Hs' Hk' E.
    rewrite (@rangeVariants_reach b mT vs1 v (v' :: vs3) w w1 tr1 E), Hstep.
    rewrite (@rangeVariants_empty_kind b mT v' vs3 _ w1 Hs' Hk').
    rewrite int_wrap_succ.
    rewrite (bind_Ret (Fatalf mT _ _) _ w1 eq_refl).
    apply prepend_prepend.
Qed.

(** ** The seed of the generator *)

Lemma replayEvent_noSeed cp hgp e : replayEvent cp hgp e -> noSeed e.
Proof. destruct e; simpl; auto. Qed.

Lemma emits_basis_noSeed b t tc :
  emits noSeed (basis gT rHook tableTestIndex b t tc).
Proof.
  unfold basis.
  apply emits_bind; [apply emits_cloneTC; intros x; exact I | intros tc1].
  eapply emits_impl; [apply replayEvent_noSeed | apply emits_replay].
Qed.





Lemma seeds_noSeed (l : list event) : Forall noSeed l -> seeds l = [].
Proof.
  induction 1 as [|e l He _ IH]; [reflexivity |].
  destruct e; simpl in *; auto. contradiction.
Qed.



(** * Further properties of the engine *)

(** ** The path through an empty given label *)

(** X1: When [Arrange] returns a setup closure and an empty label, the replay
    dispatches [AfterArrange] with [ArrangeRan] true, [NilGivenFunc] false
    and [EmptyGivenString] true when that hook is configured, reports the
    empty-Given failure with the composed prefix and does nothing else: no
    scope, no setup. *)
Theorem empty_given_aborts b t tc prefix w a p label g cfg w1 :
  Arrange b = Some a -> t <> StdT Nil -> gT t = Some p ->
  a p (arrangeView b tc (Given b)) w = ((label, Some g, cfg), w1) ->
  isEmpty label = true ->
  let r := replay gT rHook tableTestIndex b t tc prefix w in
  st r = afterFatalf t /\
  trace r =
    EvArrange
      :: match AfterArrange (ar_Hooks cfg) with
         | Some _ => [EvAfterArrange true false true]
         | None => []
         end
      ++ [EvFatalf fmtEmptyGiven [AStr (composePrefix tableTestIndex prefix)]].
Proof.
  intros HA Ht Hg Ha Hl r. unfold r.
  rewrite replay_given by (unfold hasGivenPhase; rewrite HA; reflexivity).
  rewrite (bind_Ret _ _ _ (Helper_ok w Ht)), prepend_nil.
  unfold givenTest. rewrite HA.
  rewrite (bind_Ret _ _ _ (Helper_ok w Ht)), prepend_nil.
  rewrite (bind_Ret _ _ _ (callGetT_ok w Hg)), prepend_nil.
  rewrite (bind_Ret (emit EvArrange) _ w eq_refl).
  assert (Hc : call (a p (arrangeView b tc (Given b))) w
               = (Ret (label, Some g, cfg), w1, [])).
  { unfold call. rewrite Ha. reflexivity. }
  rewrite (bind_Ret _ _ _ Hc), prepend_nil.
  unfold givenRest.
  rewrite (bind_Ret _ _ _ (callGetT_ok w1 Hg)), prepend_nil.
  destruct (afterArrange_run (setGiven (storeArrange b cfg) label) p
              (ar_TC cfg) true (isNil (Some g))
              (isEmpty (Given (setGiven (storeArrange b cfg) label))) w1)
    as (tc' & w' & E).
  rewrite (bind_Ret _ _ _ E).
  change (Given (setGiven (storeArrange b cfg) label)) with label.
  change (hooks (setGiven (storeArrange b cfg) label)) with (ar_Hooks cfg).
  rewrite Hl, (Fatalf_run _ _ w' Ht). simpl.
  destruct (AfterArrange (ar_Hooks cfg)); split; reflexivity.
Qed.

(** ** What the hooks are told *)

Lemma gateEvent_hookFlags cp hgp b ran hgp' e :
  gateEvent cp hgp b e -> hookFlags ran hgp' e.
Proof. destruct e; simpl; auto; contradiction. Qed.

Lemma emits_test_hookFlags cp hgp b tc t ran hgp' :
  emits (hookFlags ran hgp') (test gT rHook cp hgp b tc t).
Proof.
  unfold test.
  apply emits_bind; [apply emits_Helper | intros _].
  apply emits_bind; [apply emits_describe; exact I | intros b'].
  eapply emits_impl; [apply gateEvent_hookFlags | apply emits_checks].
Qed.

Lemma emits_givenBody_hookFlags cp b tc given seed p :
  emits (hookFlags (isSome given) true)
        (givenBody gT rHook cp b tc given seed p).
Proof.
  unfold givenBody.
  apply emits_bind; [apply emits_Helper | intros _].
  eapply emits_bind_post with (Q := fun x => snd x = isSome given).
  - destruct given.
    + do 2 (apply returns_bind; intros ?). apply returns_ret. reflexivity.
    + apply returns_ret. reflexivity.
  - destruct given; repeat emits_step; exact I.
  - intros [[b1 tc1] givenRan] Hx. simpl in Hx. subst givenRan.
    apply emits_bind; [| intros y; apply emits_test_hookFlags].
    destruct (AfterGiven (hooks b1)); repeat emits_step.
    simpl. rewrite andb_true_r. reflexivity.
Qed.

Lemma emits_givenRest_hookFlags cp b tc given seed t :
  emits (hookFlags (isSome given) true)
        (givenRest gT rHook cp b tc (isSome given) given seed t).
Proof.
  unfold givenRest.
  apply emits_bind; [apply emits_callGetT | intros p].
  apply emits_bind; [| intros tc1].
  { apply emits_afterArrange. simpl. repeat split.
    - intros H. unfold isNil. rewrite H. reflexivity.
    - discriminate. }
  destruct (isEmpty (Given b)); [apply emits_Fatalf; exact I |].
  apply emits_Run; try exact I. intros p'. apply emits_givenBody_hookFlags.
Qed.

Lemma emits_givenTest_hookFlags cp b tc t :
  emits (hookFlags (isSome (Arrange b)) true) (givenTest gT rHook cp b tc t).
Proof.
  unfold givenTest.
  apply emits_bind; [apply emits_Helper | intros _].
  destruct (Arrange b) as [a|];
    [| apply (emits_givenRest_hookFlags cp b tc None (Given b) t)].
  apply emits_bind; [apply emits_callGetT | intros p].
  apply emits_bind; [apply emits_emit; exact I | intros _].
  apply emits_bind; [apply emits_call | intros [[label given] cfg]].
  destruct given as [g|].
  - apply (emits_givenRest_hookFlags cp _ _ (Some g) (Given b) t).
  - apply emits_bind; [apply emits_callGetT | intros p'].
    apply emits_bind; [| intros _; apply emits_Fatalf; exact I].
    apply emits_afterArrange. simpl. repeat split; discriminate.
Qed.

(** X2: The [AfterArrange] hook is told [ArrangeRan] exactly when [Arrange] is
    configured, [NilGivenFunc] whenever [Arrange] is not, and
    [EmptyGivenString] whenever the replay has no given phase; the
    [AfterGiven] hook is told [GivenRan] exactly when [Arrange] is
    configured (its setup closure has then run), never in a replay without
    a given phase. *)
Theorem hooks_are_told_the_truth b t tc prefix w :
  Forall (hookFlags (isSome (Arrange b)) (hasGivenPhase b))
         (trace (replay gT rHook tableTestIndex b t tc prefix w)).
Proof.
  revert w. change (emits (hookFlags (isSome (Arrange b)) (hasGivenPhase b))
                          (replay gT rHook tableTestIndex b t tc prefix)).
  unfold replay.
  eapply emits_bind_post; [apply f_returns | |].
  - unfold f. apply emits_bind; [apply emits_Helper | intros _].
    destruct (hasGivenPhase b) eqn:E; [apply emits_ret |].
    assert (HA : isSome (Arrange b) = false).
    { unfold hasGivenPhase in E. destruct (Arrange b); [discriminate | reflexivity]. }
    rewrite HA.
    apply emits_bind; [apply emits_callGetT | intros p].
    apply emits_bind; [| intros tc1].
    { apply emits_afterArrange. simpl. auto. }
    apply emits_bind; [| intros x; apply emits_ret].
    destruct (AfterGiven (hooks b)); [| apply emits_ret].
    apply emits_bind; [apply emits_callGetT | intros p'].
    repeat emits_step. reflexivity.
  - intros run Hrun. simpl in Hrun. destruct (hasGivenPhase b).
    + subst run. apply emits_givenTest_hookFlags.
    + destruct Hrun as (b' & tc' & ->). apply emits_test_hookFlags.
Qed.


(** ** The composed prefix *)

Lemma append_length (s1 s2 : string) :
  String.length (s1 +:+ s2) = (String.length s1 + String.length s2)%nat.
Proof. induction s1 as [|c s1 IH]; simpl; [reflexivity | rewrite IH; reflexivity]. Qed.

Lemma append_cancel_r (s1 s2 t : string) : s1 +:+ t = s2 +:+ t -> s1 = s2.
Proof.
  revert s2. induction s1 as [|c s1 IH]; intros [|c2 s2] H; simpl in H.
  - reflexivity.
  - apply (f_equal String.length) in H. simpl in H.
    rewrite append_length in H. lia.
  - apply (f_equal String.length) in H. simpl in H.
    rewrite append_length in H. lia.
  - injection H as -> H. f_equal. exact (IH _ H).
Qed.

Lemma append_cancel_l (s t1 t2 : string) : s +:+ t1 = s +:+ t2 -> t1 = t2.
Proof.
  induction s as [|c s IH]; simpl; [auto |]. intros H. injection H as H. auto.
Qed.

Lemma append_assoc (s1 s2 s3 : string) :
  (s1 +:+ s2) +:+ s3 = s1 +:+ s2 +:+ s3.
Proof. induction s1 as [|c s1 IH]; simpl; [reflexivity | rewrite IH; reflexivity]. Qed.

Lemma Itoa_nonempty (i : Z) : isEmpty (Itoa i) = false.
Proof. unfold Itoa. destruct (Z.to_int i) as [d|d]; [destruct d |]; reflexivity. Qed.

(** [strconv.Itoa] gives different integers different strings. *)
Lemma to_int_proper (i : Z) :
  Z.to_int i <> Decimal.Pos Decimal.Nil /\ Z.to_int i <> Decimal.Neg Decimal.Nil.
Proof.
  destruct i as [|p|p]; simpl; split; try discriminate;
    intros H; injection H as H;
    exact (DecimalPos.Unsigned.to_uint_nonnil p H).
Qed.

Lemma Itoa_inj (i j : Z) : Itoa i = Itoa j -> i = j.
Proof.
  unfold Itoa. intros H. apply DecimalZ.to_int_inj.
  destruct (to_int_proper i) as [Hi1 Hi2], (to_int_proper j) as [Hj1 Hj2].
  pose proof (NilZero.isi (Z.to_int i) Hi1 Hi2) as Ei.
  pose proof (NilZero.isi (Z.to_int j) Hj1 Hj2) as Ej.
  rewrite H in Ei. rewrite Ei in Ej. injection Ej as Ej. exact Ej.
Qed.

Lemma composePrefix_cases (i : Z) (k : string) :
  composePrefix i k =
  if 0 <=? i then
    if isEmpty k then Itoa i +:+ "/" else Itoa i +:+ "/" +:+ k +:+ "/"
  else if isEmpty k then "" else k +:+ "/".
Proof.
  unfold composePrefix. destruct (0 <=? i), k as [|c k]; simpl;
    rewrite ?isEmpty_append, ?Itoa_nonempty; simpl; try reflexivity.
  rewrite append_assoc. reflexivity.
Qed.

(** X3: The composed prefix is empty exactly for a replay without ordinal and
    without [Kind], and otherwise ends with the separator; it tells apart
    the ordinals of a table and the kinds of the variants: two replays get
    the same prefix only when they were built with the same ordinal and the
    same kind. *)
Theorem composePrefix_tells_apart (i j : Z) (k1 k2 : string) :
  (isEmpty (composePrefix i k1) = true <-> i < 0 /\ k1 = "") /\
  (isEmpty (composePrefix i k1) = false ->
   exists body, composePrefix i k1 = body +:+ "/") /\
  (0 <= i -> 0 <= j -> composePrefix i k1 = composePrefix j k1 -> i = j) /\
  (composePrefix i k1 = composePrefix i k2 -> k1 = k2).
Proof.
  rewrite !composePrefix_cases. split; [| split; [| split]].
  - destruct (Z.leb_spec 0 i), k1 as [|c k1]; simpl;
      rewrite ?isEmpty_append, ?Itoa_nonempty; simpl; split;
      try discriminate; try (intros [H1 H2]; try discriminate; lia).
    intros _. split; [assumption | reflexivity].
  - destruct (0 <=? i), k1 as [|c k1]; simpl; intros Hne.
    + exists (Itoa i). reflexivity.
    + exists (Itoa i +:+ "/" +:+ String c k1).
      rewrite append_assoc. reflexivity.
    + discriminate.
    + exists (String c k1). reflexivity.
  - intros Hi Hj.
    destruct (Z.leb_spec 0 i); [| lia]. destruct (Z.leb_spec 0 j); [| lia].
    destruct (isEmpty k1); intros E; apply Itoa_inj.
    + exact (append_cancel_r _ _ _ E).
    + change (Itoa i +:+ ("/" +:+ k1 +:+ "/") = Itoa j +:+ ("/" +:+ k1 +:+ "/"))
        in E.
      exact (append_cancel_r _ _ _ E).
  - destruct (0 <=? i), k1 as [|c1 k1], k2 as [|c2 k2]; simpl; intros E;
      try reflexivity; try discriminate.
    + apply append_cancel_l in E. discriminate.
    + apply append_cancel_l in E. discriminate.
    + apply append_cancel_l in E. injection E as Ec Et.
      rewrite Ec, (append_cancel_r _ _ "/" Et). reflexivity.
    + injection E as Ec Et.
      rewrite Ec, (append_cancel_r _ _ "/" Et). reflexivity.
Qed.



(** ** Labels of the scopes *)






(** ** Nothing runs after a failure *)

Lemma stepF_mono (k : kind) (n n' m : nat) :
  stepF n k = Some m -> (n' <= n)%nat ->
  exists m', stepF n' k = Some m' /\ (m' <= m)%nat.
Proof.
  destruct k as [p| | |]; simpl.
  - destruct (Nat.leb_spec n (rank p)); [| discriminate].
    intros E Hle. injection E as <-.
    destruct (Nat.leb_spec n' (rank p)); [eauto | lia].
  - intros E Hle. injection E as <-. eexists. split; [reflexivity | lia].
  - destruct (Nat.leb_spec n 9); [| discriminate].
    intros E Hle. injection E as <-.
    destruct (Nat.leb_spec n' 9); [eauto | lia].
  - intros E Hle. injection E as <-. eauto.
Qed.

Lemma advanceF_app (n : nat) (l1 l2 : list event) :
  advanceF n (l1 ++ l2) =
  match advanceF n l1 with
  | Some m => advanceF m l2
  | None => None
  end.
Proof.
  revert n. induction l1 as [|e l1 IH]; intros n; simpl; [reflexivity |].
  destruct (stepF n (kind_of e)); [apply IH | reflexivity].
Qed.

Lemma advanceF_mono (l : list event) (n n' m : nat) :
  advanceF n l = Some m -> (n' <= n)%nat ->
  exists m', advanceF n' l = Some m' /\ (m' <= m)%nat.
Proof.
  revert n n'. induction l as [|e l IH]; intros n n'; simpl.
  - intros E Hle. injection E as <-. eauto.
  - destruct (stepF n (kind_of e)) as [n1|] eqn:E1; [| discriminate].
    intros E Hle. destruct (stepF_mono _ E1 Hle) as (n1' & E1' & Hle').
    rewrite E1'. exact (IH _ _ E Hle').
Qed.

Lemma advanceF_quiet (l : list event) (n : nat) :
  Forall (fun e => kind_of e = KQuiet) l -> advanceF n l = Some n.
Proof.
  induction 1 as [|e l He _ IH]; simpl; [reflexivity |].
  rewrite He. exact IH.
Qed.

(** Under a bound past every rank, an accepted log holds no work. *)
Lemma advanceF_dead (l : list event) (n m : nat) :
  (10 <= n)%nat -> advanceF n l = Some m ->
  Forall (fun e => isWork e = false) l.
Proof.
  revert n. induction l as [|e l IH]; intros n Hn; simpl; [constructor |].
  unfold isWork. destruct (kind_of e) as [p| | |] eqn:Ek; simpl.
  - destruct (Nat.leb_spec n (rank p)); [| discriminate].
    destruct p; simpl in *; lia.
  - intros E. constructor; [rewrite Ek; reflexivity |].
    apply (IH (Nat.max n 10)); [lia | exact E].
  - destruct (Nat.leb_spec n 9); [lia | discriminate].
  - intros E. constructor; [rewrite Ek; reflexivity |].
    exact (IH n Hn E).
Qed.

Lemma advanceF_after_failure (l1 l2 : list event) (e : event) (n m : nat) :
  advanceF n (l1 ++ e :: l2) = Some m -> isFailure e = true ->
  Forall (fun e' => isWork e' = false) l2.
Proof.
  rewrite advanceF_app. destruct (advanceF n l1) as [a|]; [| discriminate].
  simpl. unfold isFailure.
  destruct (kind_of e); simpl; try discriminate.
  intros E _. apply (advanceF_dead (n := Nat.max a 10) l2 (m := m)); [lia | exact E].
Qed.

Lemma phasedF_weaken {A} (n n' k k' : nat) (m : M A) :
  phasedF n k m -> (n' <= n)%nat -> (k <= k')%nat -> phasedF n' k' m.
Proof.
  intros H Hn Hk w. destruct (H w) as (j & E & Hj).
  destruct (advanceF_mono _ E Hn) as (j' & E' & Hj').
  exists j'. split; [exact E' | lia].
Qed.

Lemma phasedF_quiet {A} (n k : nat) (m : M A) :
  emits (fun e => kind_of e = KQuiet) m -> (n <= k)%nat -> phasedF n k m.
Proof.
  intros H Hle w. exists n. split; [apply advanceF_quiet, H | exact Hle].
Qed.

Lemma phasedF_emit (n k : nat) (e : event) (p : phase) :
  kind_of e = KPhase p -> (n <= rank p)%nat -> (S (rank p) <= k)%nat ->
  phasedF n k (emit e).
Proof.
  intros E H1 H2 w. exists (S (rank p)). simpl. rewrite E. simpl.
  destruct (Nat.leb_spec n (rank p)); [auto | lia].
Qed.

Lemma phasedF_bind_post {A B} (Q : A -> Prop) (n mid k : nat)
    (m : M A) (f : A -> M B) :
  returns Q m -> phasedF n mid m -> (forall a, Q a -> phasedF mid k (f a)) ->
  (mid <= k)%nat -> phasedF n k (bind m f).
Proof.
  intros HQ Hm Hf Hle w. rewrite trace_bind.
  destruct (Hm w) as (j & E & Hj).
  destruct (st (m w)) as [a| |] eqn:Est; try (exists j; split; [exact E | lia]).
  rewrite advanceF_app, E.
  destruct (Hf a (HQ w a Est) (world (m w))) as (j2 & E2 & Hj2).
  destruct (advanceF_mono _ E2 Hj) as (j3 & E3 & Hj3).
  exists j3. split; [exact E3 | lia].
Qed.

Lemma phasedF_bind {A B} (n mid k : nat) (m : M A) (f : A -> M B) :
  phasedF n mid m -> (forall a, phasedF mid k (f a)) -> (mid <= k)%nat ->
  phasedF n k (bind m f).
Proof.
  intros Hm Hf Hle.
  apply phasedF_bind_post with (Q := fun _ => True) (mid := mid); auto.
  intros w a _. exact I.
Qed.

Lemma phasedF_scoped (n k : nat) (m : M unit) :
  phasedF n k m -> phasedF n k (scoped m).
Proof. intros H w. rewrite trace_scoped. apply H. Qed.

Ltac quietF := apply phasedF_quiet; [| lia].

Lemma phasedF_open (n k : nat) (e : event) :
  kind_of e = KOpen -> (n <= 9)%nat -> (n <= k)%nat -> phasedF n k (emit e).
Proof.
  intros E H1 H2 w. exists n. simpl. rewrite E. simpl.
  destruct (Nat.leb_spec n 9); [auto | lia].
Qed.

Lemma phasedF_Error (n k : nat) (t : testingT) (msg : string) :
  (10 <= k)%nat -> (n <= k)%nat -> phasedF n k (Error t msg).
Proof.
  intros H1 H2 w. destruct t as [[|]|]; simpl;
    try (exists (Nat.max n 10); split; [reflexivity | lia]).
  exists n. split; [reflexivity | lia].
Qed.

Lemma phasedF_Fatalf (n k : nat) (t : testingT) format args :
  (10 <= k)%nat -> (n <= k)%nat -> phasedF n k (Fatalf t format args).
Proof.
  intros H1 H2 w. destruct t as [[|]|]; simpl;
    try (exists (Nat.max n 10); split; [reflexivity | lia]).
  exists n. split; [reflexivity | lia].
Qed.

Lemma phasedF_Run (n k : nat) (t : testingT) sc name body :
  (n <= 9)%nat -> (n <= k)%nat -> (forall p, phasedF n k (body p)) ->
  phasedF n k (Run t sc name body).
Proof.
  intros H9 Hle H. unfold Run. destruct t as [[|]|].
  - apply phasedF_bind with (mid := n); [| intros _ | lia].
    { apply phasedF_open; [reflexivity | lia | lia]. }
    apply phasedF_bind with (mid := k); [| intros _ | lia].
    { apply phasedF_scoped, H. }
    quietF. apply emits_emit. reflexivity.
  - quietF. apply emits_panic.
  - apply phasedF_bind with (mid := n); [| intros _ | lia].
    { apply phasedF_open; [reflexivity | lia | lia]. }
    apply phasedF_bind with (mid := k); [apply H | intros _ | lia].
    quietF. apply emits_emit. reflexivity.
Qed.

Lemma phasedF_nillableT_Run (n k : nat) (t : ptrT) sc name body :
  (n <= 9)%nat -> (n <= k)%nat -> (forall p, phasedF n k (body p)) ->
  phasedF n k (nillableT_Run t rHook sc name body).
Proof.
  intros H9 Hle H. unfold nillableT_Run. destruct t.
  - apply phasedF_Run; assumption.
  - apply phasedF_bind with (mid := n); [| intros _; apply H | lia].
    destruct rHook; [| quietF; apply emits_ret].
    apply phasedF_bind with (mid := n); [| intros _ | lia].
    + apply phasedF_open; [reflexivity | lia | lia].
    + quietF. apply emits_call.
Qed.

Lemma phasedF_thenBody b tc res t : phasedF 8 10 (thenBody b tc res t).
Proof.
  unfold thenBody.
  apply phasedF_bind with (mid := 8%nat); [| intros _ | lia].
  { quietF. apply emits_nillableT_Helper. }
  apply phasedF_bind with (mid := 9%nat); [| intros _ | lia].
  { destruct (Assert b).
    - apply phasedF_bind with (mid := 9%nat); [| intros _ | lia].
      + apply phasedF_emit with (p := PAssert); simpl; auto.
      + quietF. apply emits_call.
    - quietF. apply emits_panic. }
  destruct (AfterAssert (hooks b)).
  - apply phasedF_bind with (mid := 10%nat); [| intros _ | lia].
    + apply phasedF_emit with (p := PAfterAssert); simpl; auto.
    + quietF. repeat emits_step.
  - quietF. apply emits_ret.
Qed.

Lemma phasedF_whenBody b tc t : phasedF 6 10 (whenBody rHook b tc t).
Proof.
  unfold whenBody.
  apply phasedF_bind with (mid := 6%nat); [| intros _ | lia].
  { quietF. apply emits_nillableT_Helper. }
  apply phasedF_bind with (mid := 7%nat); [| intros res | lia].
  { destruct (Act b).
    - apply phasedF_bind with (mid := 7%nat); [| intros _ | lia].
      + apply phasedF_emit with (p := PAct); simpl; auto.
      + quietF. apply emits_call.
    - quietF. apply emits_panic. }
  apply phasedF_bind with (mid := 8%nat); [| intros r | lia].
  { destruct (AfterAct (hooks b)).
    - apply phasedF_bind with (mid := 8%nat); [| intros _ | lia].
      + apply phasedF_emit with (p := PAfterAct); simpl; auto.
      + quietF. apply emits_call.
    - quietF. apply emits_ret. }
  apply phasedF_nillableT_Run; [lia | lia |]. intros p. apply phasedF_thenBody.
Qed.

Lemma phasedF_checks cp hgp b tc t : phasedF 5 10 (checks rHook cp hgp b tc t).
Proof.
  unfold checks.
  apply phasedF_bind with (mid := 6%nat); [| intros _ | lia].
  { apply phasedF_emit with (p := PValidate); simpl; auto. }
  destruct (isEmpty (When b)), (isEmpty (Then b)), (isNil (Act b)),
    (isNil (Assert b)); cbn [orb].
  16: {
    do 4 (apply phasedF_bind with (mid := 6%nat);
          [quietF; apply emits_ret | intros _ | lia]).
    apply phasedF_Run; [lia | lia |]. intros p. apply phasedF_whenBody. }
  all: do 4 (apply phasedF_bind with (mid := 10%nat);
             [first [apply phasedF_Error; lia
                    | quietF; apply emits_ret]
             | intros _ | lia]).
  all: apply phasedF_Fatalf; lia.
Qed.

Lemma phasedF_describe b tc t : phasedF 4 5 (describe gT b tc t).
Proof.
  unfold describe. destruct (Describe b); [| quietF; apply emits_ret].
  apply phasedF_bind with (mid := 4%nat); [| intros p | lia].
  { quietF. apply emits_callGetT. }
  apply phasedF_bind with (mid := 5%nat); [| intros _ | lia].
  { apply phasedF_emit with (p := PDescribe); simpl; auto. }
  quietF. repeat emits_step.
Qed.

Lemma phasedF_test cp hgp b tc t : phasedF 4 10 (test gT rHook cp hgp b tc t).
Proof.
  unfold test.
  apply phasedF_bind with (mid := 4%nat); [| intros _ | lia].
  { quietF. apply emits_Helper. }
  apply phasedF_bind with (mid := 5%nat); [apply phasedF_describe | | lia].
  intros b'. apply phasedF_checks.
Qed.

Lemma phasedF_afterArrange (n : nat) b p tc ran nilg emptyg :
  (n <= 1)%nat -> phasedF n 2 (afterArrange b p tc ran nilg emptyg).
Proof.
  intros Hn. unfold afterArrange.
  destruct (AfterArrange (hooks b)); [| quietF; apply emits_ret].
  apply phasedF_bind with (mid := 2%nat); [| intros _ | lia].
  { apply phasedF_emit with (p := PAfterArrange); simpl; auto. }
  quietF. repeat emits_step.
Qed.

Lemma phasedF_givenBody cp b tc given seed t :
  phasedF 2 10 (givenBody gT rHook cp b tc given seed t).
Proof.
  unfold givenBody.
  apply phasedF_bind with (mid := 2%nat); [| intros _ | lia].
  { quietF. apply emits_Helper. }
  apply phasedF_bind with (mid := 3%nat); [| intros [[b1 tc1] givenRan] | lia].
  { destruct given; [| quietF; apply emits_ret].
    apply phasedF_bind with (mid := 3%nat); [| intros _ | lia].
    - apply phasedF_emit with (p := PGiven); simpl; auto.
    - quietF. repeat emits_step. }
  apply phasedF_bind with (mid := 4%nat); [| intros y; apply phasedF_test | lia].
  destruct (AfterGiven (hooks b1)); [| quietF; apply emits_ret].
  apply phasedF_bind with (mid := 4%nat); [| intros _ | lia].
  - apply phasedF_emit with (p := PAfterGiven); simpl; auto.
  - quietF. repeat emits_step.
Qed.

Lemma phasedF_givenRest cp b tc ran given seed t :
  phasedF 1 10 (givenRest gT rHook cp b tc ran given seed t).
Proof.
  unfold givenRest.
  apply phasedF_bind with (mid := 1%nat); [| intros p | lia].
  { quietF. apply emits_callGetT. }
  apply phasedF_bind with (mid := 2%nat);
    [apply phasedF_afterArrange; lia | intros tc1 | lia].
  destruct (isEmpty (Given b)).
  - apply phasedF_Fatalf; lia.
  - apply phasedF_Run; [lia | lia |]. intros p'. apply phasedF_givenBody.
Qed.

Lemma phasedF_givenTest cp b tc t :
  phasedF 0 10 (givenTest gT rHook cp b tc t).
Proof.
  unfold givenTest.
  apply phasedF_bind with (mid := 0%nat); [| intros _ | lia].
  { quietF. apply emits_Helper. }
  destruct (Arrange b) as [a|].
  2:{ eapply phasedF_weaken; [apply phasedF_givenRest | lia | lia]. }
  apply phasedF_bind with (mid := 0%nat); [| intros p | lia].
  { quietF. apply emits_callGetT. }
  apply phasedF_bind with (mid := 1%nat); [| intros _ | lia].
  { apply phasedF_emit with (p := PArrange); simpl; auto. }
  apply phasedF_bind with (mid := 1%nat);
    [quietF; apply emits_call | intros [[label given] cfg] | lia].
  destruct given as [g|]; [apply phasedF_givenRest |].
  apply phasedF_bind with (mid := 1%nat); [| intros p' | lia].
  { quietF. apply emits_callGetT. }
  apply phasedF_bind with (mid := 2%nat);
    [apply phasedF_afterArrange; lia | intros _ | lia].
  apply phasedF_Fatalf; lia.
Qed.

Lemma phasedF_f b t tc prefix :
  phasedF 0 (if hasGivenPhase b then 0 else 4)
         (f gT rHook tableTestIndex b t tc prefix).
Proof.
  unfold f.
  apply phasedF_bind with (mid := 0%nat); [| intros _ | lia].
  { quietF. apply emits_Helper. }
  destruct (hasGivenPhase b); [quietF; apply emits_ret |].
  apply phasedF_bind with (mid := 0%nat); [| intros p | lia].
  { quietF. apply emits_callGetT. }
  apply phasedF_bind with (mid := 2%nat);
    [apply phasedF_afterArrange; lia | intros tc1 | lia].
  apply phasedF_bind with (mid := 4%nat);
    [| intros x; quietF; apply emits_ret | lia].
  destruct (AfterGiven (hooks b)); [| quietF; apply emits_ret].
  apply phasedF_bind with (mid := 2%nat); [| intros p' | lia].
  { quietF. apply emits_callGetT. }
  apply phasedF_bind with (mid := 4%nat); [| intros _ | lia].
  { apply phasedF_emit with (p := PAfterGiven); simpl; auto. }
  quietF. repeat emits_step.
Qed.

Lemma phasedF_replay b t tc prefix :
  phasedF 0 10 (replay gT rHook tableTestIndex b t tc prefix).
Proof.
  unfold replay.
  eapply phasedF_bind_post with (mid := if hasGivenPhase b then 0%nat else 4%nat);
    [apply f_returns | apply phasedF_f | | destruct (hasGivenPhase b); lia].
  intros run Hrun. simpl in Hrun. destruct (hasGivenPhase b).
  - subst run. apply phasedF_givenTest.
  - destruct Hrun as (b' & tc' & ->). apply phasedF_test.
Qed.

(** X5: Once a replay has reported a failure, soft or hard, it runs no phase and
    opens no scope any more, on a live [*testing.T] as on the recording
    double: every hard failure is the last thing its branch does, and the
    soft failures of the checks are always followed by the hard one. *)
Theorem failure_stops_the_replay b t tc prefix w l1 e l2 :
  trace (replay gT rHook tableTestIndex b t tc prefix w) = l1 ++ e :: l2 ->
  isFailure e = true ->
  Forall (fun e' => isWork e' = false) l2.
Proof.
  intros E He. destruct (phasedF_replay b t tc prefix w) as (k & Hk & _).
  rewrite E in Hk. exact (@advanceF_after_failure l1 l2 e 0%nat k Hk He).
Qed.

(** ** No panic on a live [*testing.T] *)

Lemma safe_ret {A} (a : A) : safe (ret a).
Proof. intros w. discriminate. Qed.

Lemma safe_emit (e : event) : safe (emit e).
Proof. intros w. discriminate. Qed.

Lemma safe_call {A} (g : W -> A * W) : safe (call g).
Proof. intros w. discriminate. Qed.

Lemma safe_bind {A B} (m : M A) (k : A -> M B) :
  safe m -> (forall a, safe (k a)) -> safe (bind m k).
Proof.
  intros Hm Hk w. rewrite st_bind.
  destruct (st (m w)) as [a| |] eqn:E; [apply Hk | discriminate |].
  exfalso. exact (Hm w E).
Qed.


Lemma safe_scoped (m : M unit) : safe m -> safe (scoped m).
Proof.
  intros H w. specialize (H w). unfold scoped, st in *.
  destruct (m w) as [[[a| |] w1] tr1]; simpl in *; auto. discriminate.
Qed.

Lemma safe_nillableT_Helper (p : ptrT) : safe (nillableT_Helper p).
Proof. intros w. destruct p; discriminate. Qed.

Ltac safe_step :=
  match goal with
  | |- safe (bind _ _) => apply safe_bind; [| intros ?]
  | |- safe (nillableT_Helper _) => apply safe_nillableT_Helper
  | |- safe (ret _) => apply safe_ret
  | |- safe (emit _) => apply safe_emit
  | |- safe (call _) => apply safe_call
  | |- safe (scoped _) => apply safe_scoped
  end.

Lemma safe_Run_live sc name body :
  safe (body Live) -> safe (Run (StdT Live) sc name body).
Proof. intros H. unfold Run. repeat safe_step. exact H. Qed.

Lemma safe_Fatalf_live format args : safe (Fatalf (StdT Live) format args).
Proof. intros w. discriminate. Qed.

Lemma safe_Error_live msg : safe (Error (StdT Live) msg).
Proof. intros w. discriminate. Qed.


Section Live.

(** On a live [*testing.T] every [getT] yields a [*testing.T]. *)
Hypothesis gT_live : gT (StdT Live) <> None.

Lemma safe_callGetT_live : safe (callGetT gT (StdT Live)).
Proof.
  unfold callGetT. destruct (gT (StdT Live)); [apply safe_ret | contradiction].
Qed.

Lemma safe_thenBody_live b tc res :
  Assert b <> None -> safe (thenBody b tc res Live).
Proof.
  intros HA. unfold thenBody. destruct (Assert b); [| contradiction].
  destruct (AfterAssert (hooks b)); repeat safe_step.
Qed.

Lemma safe_whenBody_live b tc :
  Act b <> None -> Assert b <> None -> safe (whenBody rHook b tc Live).
Proof.
  intros HA HS. unfold whenBody. destruct (Act b); [| contradiction].
  destruct (AfterAct (hooks b)); repeat safe_step;
    apply safe_Run_live, safe_thenBody_live, HS.
Qed.

(** The checks guard the calls of [Act] and [Assert]. *)
Lemma safe_checks_live cp hgp b tc : safe (checks rHook cp hgp b tc (StdT Live)).
Proof.
  unfold checks. apply safe_bind; [apply safe_emit | intros _].
  do 4 (apply safe_bind;
        [match goal with
         | |- safe (if ?c then _ else _) =>
             destruct c; [apply safe_Error_live | apply safe_ret]
         end
        | intros _]).
  destruct (Act b) eqn:EA, (Assert b) eqn:ES;
    destruct (isEmpty (When b)), (isEmpty (Then b)); cbn [isNil isSome negb orb];
    try apply safe_Fatalf_live.
  apply safe_Run_live, safe_whenBody_live; rewrite ?EA, ?ES; discriminate.
Qed.

Lemma safe_test_live cp hgp b tc : safe (test gT rHook cp hgp b tc (StdT Live)).
Proof.
  unfold test. apply safe_bind; [apply safe_ret | intros _].
  apply safe_bind; [| intros b'; apply safe_checks_live].
  unfold describe. destruct (Describe b); [| apply safe_ret].
  apply safe_bind; [apply safe_callGetT_live | intros p].
  repeat safe_step.
Qed.







End Live.

(** ** A test that passes the checks *)


(** ** What the walk clones *)

Lemma clones_app (l1 l2 : list event) : clones (l1 ++ l2) = clones l1 ++ clones l2.
Proof.
  induction l1 as [|e l1 IH]; [reflexivity |].
  destruct e; simpl; rewrite ?IH; reflexivity.
Qed.

Lemma clones_replay b t tc prefix w :
  clones (trace (replay gT rHook tableTestIndex b t tc prefix w)) = [].
Proof.
  pose proof (emits_replay b t tc prefix w) as H.
  induction H as [|e l He _ IH]; [reflexivity |].
  destruct e; simpl in *; try exact IH. contradiction.
Qed.

Lemma bind_returns_inv {A B} (m : M A) (k : A -> M B) (w : W) (y : B) :
  st (bind m k w) = Ret y ->
  exists a, st (m w) = Ret a /\ st (k a (world (m w))) = Ret y /\
            trace (bind m k w) = trace (m w) ++ trace (k a (world (m w))).
Proof.
  rewrite st_bind, trace_bind.
  destruct (st (m w)) as [a| |]; try discriminate.
  intros H. exists a. auto.
Qed.

(** X7: A walk over the variants that returns has handed to [CloneTC] the test
    cases of exactly the entries that are run and not marked [SkipCloneTC],
    once each and in the order of the entries; without [CloneTC] nothing is
    cloned. *)
Theorem walk_clones_what_it_runs b t vs i w :
  st (rangeVariants gT rHook tableTestIndex b t vs i w) = Ret tt ->
  clones (trace (rangeVariants gT rHook tableTestIndex b t vs i w)) =
  if isSome (CloneTC b) then map v_TC (filter cloned vs) else [].
Proof.
  revert i w. induction vs as [|v vs IH]; intros i w; cbn [rangeVariants].
  - intros _. destruct (CloneTC b); reflexivity.
  - unfold cloned at 1. cbn [filter]. fold cloned.
    destruct (SkipTC v); [apply IH |].
    destruct (isEmpty (Kind v)); cbn [negb andb].
    + intros H. apply bind_returns_inv in H.
      destruct H as (a & Ha & Hk & ->).
      rewrite clones_app, (IH _ _ Hk).
      destruct t as [[|]|]; try discriminate Ha. reflexivity.
    + intros H. apply bind_returns_inv in H.
      destruct H as (tc & Htc & Hk & ->).
      apply bind_returns_inv in Hk. destruct Hk as (u & Hu & Hk & ->).
      rewrite !clones_app, clones_replay, (IH _ _ Hk).
      destruct (SkipCloneTC v); cbn [negb]; [reflexivity |].
      unfold cloneTC. destruct (CloneTC b); reflexivity.
Qed.

(** ** The recording double and the given-scope *)

Lemma givenRest_on_double cp b tc ran given seed w :
  let r := givenRest gT rHook cp b tc ran given seed mT w in
  existsb opensGiven (trace r) = true ->
  st r = Panicked /\
  exists l,
    trace r = l ++ [EvRun SGiven (cp +:+ "given " +:+ Given b)] /\
    Forall (fun e => e = EvArrange \/ phase_of e = Some PAfterArrange) l.
Proof.
  intros r. unfold r, givenRest.
  destruct (gT mT) as [p|] eqn:Hg.
  2: { unfold callGetT. rewrite Hg. simpl. discriminate. }
  rewrite (bind_Ret _ _ _ (callGetT_ok w Hg)), prepend_nil.
  destruct (afterArrange_run b p tc ran (isNil given) (isEmpty (Given b)) w)
    as (tc' & w' & E).
  rewrite (bind_Ret _ _ _ E).
  destruct (isEmpty (Given b)).
  - destruct (AfterArrange (hooks b)); simpl; discriminate.
  - destruct (AfterArrange (hooks b)); simpl; intros _; (split; [reflexivity |]).
    + eexists [_]. split; [reflexivity |].
      constructor; [right; reflexivity | constructor].
    + exists []. split; [reflexivity | constructor].
Qed.

(** X8: The double hands a nil [*testing.T] to the body of a scope, and the body
    of the given-scope starts with [Helper] on it.  So a replay on the double
    that opens a given-scope panics there: the opening is the last event,
    only Arrange and its hook ran before, and neither the setup closure nor
    any later phase runs. *)
Theorem given_scope_panics_on_double b tc prefix w :
  let r := replay gT rHook tableTestIndex b mT tc prefix w in
  existsb opensGiven (trace r) = true ->
  st r = Panicked /\
  exists l name,
    trace r = l ++ [EvRun SGiven name] /\
    Forall (fun e => e = EvArrange \/ phase_of e = Some PAfterArrange) l.
Proof.
  intros r. unfold r. clear r. destruct (hasGivenPhase b) eqn:Hgp.
  - assert (Ht : mT <> StdT Nil) by discriminate.
    rewrite replay_given by exact Hgp.
    rewrite (bind_Ret _ _ _ (Helper_ok w Ht)), prepend_nil.
    unfold givenTest.
    rewrite (bind_Ret _ _ _ (Helper_ok w Ht)), prepend_nil.
    destruct (Arrange b) as [a|].
    + destruct (gT mT) as [p|] eqn:Hg.
      2: { unfold callGetT. rewrite Hg. simpl. discriminate. }
      rewrite (bind_Ret _ _ _ (callGetT_ok w Hg)), prepend_nil.
      rewrite (bind_Ret (emit EvArrange) _ w eq_refl).
      destruct (a p (arrangeView b tc (Given b)) w) as [[[label given] cfg] w1]
        eqn:Ha.
      assert (Hc : call (a p (arrangeView b tc (Given b))) w
                   = (Ret (label, given, cfg), w1, [])).
      { unfold call. rewrite Ha. reflexivity. }
      rewrite (bind_Ret _ _ _ Hc), prepend_nil.
      destruct given as [g|].
      * rewrite st_prepend, trace_prepend. simpl existsb.
        intros H.
        destruct (@givenRest_on_double (composePrefix tableTestIndex prefix)
                    (setGiven (storeArrange b cfg) label) (ar_TC cfg) true
                    (Some g) (Given b) w1 H) as (Hs & l & El & Hl).
        split; [exact Hs |].
        eexists (EvArrange :: l), _. rewrite El. split; [reflexivity |].
        constructor; [left; reflexivity | exact Hl].
      * rewrite (bind_Ret _ _ _ (callGetT_ok w1 Hg)), prepend_nil.
        destruct (afterArrange_run (setGiven (storeArrange b cfg) label) p
                    (ar_TC cfg) true true
                    (isEmpty (Given (setGiven (storeArrange b cfg) label))) w1)
          as (tc' & w' & E).
        rewrite (bind_Ret _ _ _ E).
        destruct (AfterArrange (hooks (setGiven (storeArrange b cfg) label)));
          simpl; discriminate.
    + intros H.
      destruct (@givenRest_on_double (composePrefix tableTestIndex prefix)
                  b tc false None (Given b) w H) as (Hs & l & El & Hl).
      split; [exact Hs |]. eexists l, _. split; [exact El | exact Hl].
  - intros H. apply existsb_exists in H. destruct H as (e & Hin & He).
    pose proof (emits_replay b mT tc prefix w) as Hall.
    rewrite Hgp in Hall. rewrite Forall_forall in Hall.
    specialize (Hall e Hin).
    destruct e as [k name| | | | | | | | | | | | | | | |]; try discriminate He.
    destruct k; try discriminate He. simpl in Hall. destruct Hall. discriminate.
Qed.

(** ** The recording double without a given phase *)

Lemma completes_ret {A} (a : A) : completes (ret a).
Proof. intros w. exists a. reflexivity. Qed.

Lemma completes_emit (e : event) : completes (emit e).
Proof. intros w. exists tt. reflexivity. Qed.

Lemma completes_call {A} (g : W -> A * W) : completes (call g).
Proof. intros w. eexists. reflexivity. Qed.

Lemma completes_bind {A B} (m : M A) (k : A -> M B) :
  completes m -> (forall a, completes (k a)) -> completes (bind m k).
Proof.
  intros Hm Hk w. rewrite st_bind. destruct (Hm w) as [a E]. rewrite E.
  apply Hk.
Qed.

Lemma completes_bind_post {A B} (Q : A -> Prop) (m : M A) (k : A -> M B) :
  returns Q m -> completes m -> (forall a, Q a -> completes (k a)) ->
  completes (bind m k).
Proof.
  intros HQ Hm Hk w. rewrite st_bind. destruct (Hm w) as [a E]. rewrite E.
  apply Hk, (HQ w a E).
Qed.

Lemma completes_nillableT_Helper_Nil : completes (nillableT_Helper Nil).
Proof. apply completes_ret. Qed.

Ltac completes_step :=
  match goal with
  | |- completes (bind _ _) => apply completes_bind; [| intros ?]
  | |- completes (nillableT_Helper Nil) => apply completes_nillableT_Helper_Nil
  | |- completes (ret _) => apply completes_ret
  | |- completes (emit _) => apply completes_emit
  | |- completes (call _) => apply completes_call
  end.

(** On the double [Error] and [Fatalf] record and return, and [Run] runs
    the body on a nil [*testing.T]. *)
Lemma completes_Error_mT msg : completes (Error mT msg).
Proof. apply completes_emit. Qed.

Lemma completes_Fatalf_mT format args : completes (Fatalf mT format args).
Proof. apply completes_emit. Qed.

Lemma completes_Run_mT sc name body :
  completes (body Nil) -> completes (Run mT sc name body).
Proof. intros H. unfold Run. repeat completes_step. exact H. Qed.

(** [nillableT] makes the then-scope work on a nil [*testing.T]. *)
Lemma completes_nillableT_Run_Nil sc name body :
  completes (body Nil) -> completes (nillableT_Run Nil rHook sc name body).
Proof.
  intros H. unfold nillableT_Run.
  apply completes_bind; [| intros _; exact H].
  destruct rHook; repeat completes_step.
Qed.

Lemma completes_afterArrange b p tc ran nilg emptyg :
  completes (afterArrange b p tc ran nilg emptyg).
Proof.
  unfold afterArrange. destruct (AfterArrange (hooks b)); repeat completes_step.
Qed.

Lemma completes_cloneTC b tc : completes (cloneTC b tc).
Proof. unfold cloneTC. destruct (CloneTC b); repeat completes_step. Qed.

Section Double.

(** The [getT] of a self-test translates the double. *)
Hypothesis gT_double : gT mT <> None.

Lemma completes_callGetT_mT : completes (callGetT gT mT).
Proof.
  unfold callGetT. destruct (gT mT); [apply completes_ret | contradiction].
Qed.

Lemma completes_thenBody_Nil b tc res :
  Assert b <> None -> completes (thenBody b tc res Nil).
Proof.
  intros HA. unfold thenBody. destruct (Assert b); [| contradiction].
  destruct (AfterAssert (hooks b)); repeat completes_step.
Qed.

Lemma completes_whenBody_Nil b tc :
  Act b <> None -> Assert b <> None -> completes (whenBody rHook b tc Nil).
Proof.
  intros HA HS. unfold whenBody. destruct (Act b); [| contradiction].
  destruct (AfterAct (hooks b)); repeat completes_step;
    apply completes_nillableT_Run_Nil, completes_thenBody_Nil, HS.
Qed.

Lemma completes_checks_mT cp hgp b tc : completes (checks rHook cp hgp b tc mT).
Proof.
  unfold checks. apply completes_bind; [apply completes_emit | intros _].
  do 4 (apply completes_bind;
        [match goal with
         | |- completes (if ?c then _ else _) =>
             destruct c; [apply completes_Error_mT | apply completes_ret]
         end
        | intros _]).
  destruct (Act b) eqn:EA, (Assert b) eqn:ES;
    destruct (isEmpty (When b)), (isEmpty (Then b)); cbn [isNil isSome negb orb];
    try apply completes_Fatalf_mT.
  apply completes_Run_mT, completes_whenBody_Nil; rewrite ?EA, ?ES; discriminate.
Qed.

Lemma completes_test_mT cp hgp b tc : completes (test gT rHook cp hgp b tc mT).
Proof.
  unfold test. apply completes_bind; [apply completes_ret | intros _].
  apply completes_bind; [| intros b'; apply completes_checks_mT].
  unfold describe. destruct (Describe b); [| apply completes_ret].
  apply completes_bind; [apply completes_callGetT_mT | intros p].
  repeat completes_step.
Qed.

Lemma completes_replay_mT b tc prefix :
  hasGivenPhase b = false ->
  completes (replay gT rHook tableTestIndex b mT tc prefix).
Proof.
  intros Hgp. unfold replay.
  eapply completes_bind_post; [apply f_returns | |].
  - unfold f. apply completes_bind; [apply completes_ret | intros _].
    rewrite Hgp.
    apply completes_bind; [apply completes_callGetT_mT | intros p].
    apply completes_bind; [apply completes_afterArrange | intros tc1].
    apply completes_bind; [| intros x; apply completes_ret].
    destruct (AfterGiven (hooks b)); [| apply completes_ret].
    apply completes_bind; [apply completes_callGetT_mT | intros p'].
    repeat completes_step.
  - intros run Hrun. simpl in Hrun. rewrite Hgp in Hrun.
    destruct Hrun as (b' & tc' & ->). apply completes_test_mT.
Qed.

Lemma completes_rangeVariants_mT b vs i :
  hasGivenPhase b = false ->
  completes (rangeVariants gT rHook tableTestIndex b mT vs i).
Proof.
  intros Hgp. revert i.
  induction vs as [|v vs IH]; intros i; cbn [rangeVariants].
  - apply completes_ret.
  - destruct (SkipTC v); [apply IH |].
    destruct (isEmpty (Kind v)).
    + apply completes_bind; [apply completes_Fatalf_mT | intros _; apply IH].
    + apply completes_bind; [| intros tc].
      { destruct (SkipCloneTC v); [apply completes_ret | apply completes_cloneTC]. }
      apply completes_bind;
        [apply completes_replay_mT, Hgp | intros _; apply IH].
Qed.


(** *** The entries without [Kind] on the double *)

Lemma noKindReports_app (l1 l2 : list event) :
  noKindReports (l1 ++ l2) = noKindReports l1 ++ noKindReports l2.
Proof.
  induction l1 as [|e l1 IH]; [reflexivity |].
  destruct e as [| | | |format args| | | | | | | | | | | |];
    cbn [app noKindReports]; try exact IH.
  destruct args as [|[x|n] [|a args]]; try exact IH.
  destruct (String.eqb format fmtNoKind); [rewrite IH |]; auto.
Qed.

Lemma noKindReports_replay b t tc prefix w :
  noKindReports (trace (replay gT rHook tableTestIndex b t tc prefix w)) = [].
Proof.
  pose proof (emits_replay b t tc prefix w) as H.
  induction H as [|e l He _ IH]; [reflexivity |].
  destruct e as [| | | |format args| | | | | | | | | | | |];
    cbn [noKindReports]; try exact IH.
  simpl in He. subst args. exact IH.
Qed.

Lemma noKindReports_cloneTC b tc w :
  noKindReports (trace (cloneTC b tc w)) = [].
Proof. unfold cloneTC. destruct (CloneTC b); reflexivity. Qed.

Lemma counterAfter_S (i : Z) (n : nat) :
  counterAfter i (S n) = int_wrap (counterAfter i n + 1).
Proof.
  revert i. induction n as [|n IH]; intros i; [reflexivity |].
  change (counterAfter i (S (S n)))
    with (counterAfter (int_wrap (i + 1)) (S n)).
  rewrite IH. reflexivity.
Qed.

(** On the double every entry without [Kind] is reported, in order. *)
Lemma walk_reports_mT b vs n w :
  hasGivenPhase b = false ->
  noKindReports
    (trace (rangeVariants gT rHook tableTestIndex b mT vs
              (counterAfter (-1) n) w)) =
  map (fun k => int_wrap (Z.of_nat k)) (noKindPositions vs n).
Proof.
  intros Hgp. revert n w.
  induction vs as [|v vs IH]; intros n w; [reflexivity |].
  cbn [rangeVariants noKindPositions].
  rewrite <- (counterAfter_S (-1) n).
  destruct (SkipTC v); cbn [negb andb]; [apply IH |].
  destruct (isEmpty (Kind v)).
  - rewrite (bind_Ret (Fatalf mT _ _) _ w eq_refl), trace_prepend.
    cbn [app noKindReports map]. rewrite String.eqb_refl, IH.
    rewrite counterAfter_S, counterAfter_next. reflexivity.
  - rewrite trace_bind.
    assert (Hc : completes (if SkipCloneTC v then ret (v_TC v)
                            else cloneTC b (v_TC v))).
    { destruct (SkipCloneTC v); [apply completes_ret | apply completes_cloneTC]. }
    destruct (Hc w) as [tc Etc]. rewrite Etc, noKindReports_app.
    assert (E0 : noKindReports
                   (trace ((if SkipCloneTC v then ret (v_TC v)
                            else cloneTC b (v_TC v)) w)) = []).
    { destruct (SkipCloneTC v); [reflexivity | apply noKindReports_cloneTC]. }
    rewrite E0, trace_bind.
    destruct (completes_replay_mT b tc (Kind v) Hgp
                (world ((if SkipCloneTC v then ret (v_TC v)
                         else cloneTC b (v_TC v)) w))) as [u Eu].
    rewrite Eu, noKindReports_app, noKindReports_replay. apply IH.
Qed.

End Double.

Lemma noKindPositions_bound (vs : list TestVariant) (n : nat) :
  Forall (fun k => (n <= k < n + length vs)%nat) (noKindPositions vs n).
Proof.
  revert n. induction vs as [|v vs IH]; intros n; [constructor |].
  cbn [noKindPositions length].
  assert (H : Forall (fun k => (n <= k < n + S (length vs))%nat)
                     (noKindPositions vs (S n))).
  { eapply Forall_impl; [| apply (IH (S n))]. intros k Hk. simpl in Hk. lia. }
  destruct (negb (SkipTC v) && isEmpty (Kind v)); [| exact H].
  constructor; [lia | exact H].
Qed.

Lemma noKindPositions_NoDup (vs : list TestVariant) (n : nat) :
  NoDup (noKindPositions vs n).
Proof.
  revert n. induction vs as [|v vs IH]; intros n; [constructor |].
  cbn [noKindPositions].
  destruct (negb (SkipTC v) && isEmpty (Kind v)); [| apply IH].
  constructor; [| apply IH]. intros Hin.
  pose proof (noKindPositions_bound vs (S n)) as Hb.
  rewrite Forall_forall in Hb. specialize (Hb n Hin). lia.
Qed.

Lemma noKindPositions_In (vs1 : list TestVariant) v vs2 (n : nat) :
  SkipTC v = false -> isEmpty (Kind v) = true ->
  In (n + length vs1)%nat (noKindPositions (vs1 ++ v :: vs2) n).
Proof.
  intros Hs Hk. revert n. induction vs1 as [|u vs1 IH]; intros n.
  - cbn [app noKindPositions length]. rewrite Hs, Hk. left. lia.
  - cbn [app noKindPositions length].
    replace (n + S (length vs1))%nat with (S n + length vs1)%nat by lia.
    destruct (negb (SkipTC u) && isEmpty (Kind u)); [right |]; apply IH.
Qed.

(** C6, as the code has it.  On the recording double, whose [Fatalf]
    records and returns, and for a descriptor whose replays the double can
    run (no given phase, [getT] configured): in every sequence, an entry
    that is not skipped and has an empty [Kind] is reached, logs one failure
    with the no-Kind format and its zero-based index, and the walk goes on
    with the entries after it, to the end; the failures of this kind in the
    log are those of the entries without [Kind], one each and in the order
    of the entries.  On a live [*testing.T] an entry that the walk reaches
    logs the same failure and ends the calling test function: the entries
    after it are not visited. *)
Theorem empty_kind_failure b vs1 v vs2 w :
  gT mT <> None -> hasGivenPhase b = false ->
  SkipTC v = false -> isEmpty (Kind v) = true ->
  let vs := vs1 ++ v :: vs2 in
  let index := int_wrap (Z.of_nat (length vs1)) in
  let r1 := rangeVariants gT rHook tableTestIndex b mT vs1 (-1) w in
  let r := rangeVariants gT rHook tableTestIndex b mT vs (-1) w in
  r = prepend (trace r1 ++ [EvFatalf fmtNoKind [AInt index]])
              (rangeVariants gT rHook tableTestIndex b mT vs2 index
                 (world r1)) /\
  st r = Ret tt /\
  noKindReports (trace r) =
    map (fun k => int_wrap (Z.of_nat k)) (noKindPositions vs 0) /\
  In index (noKindReports (trace r)) /\
  (Z.of_nat (length vs) <= 2 ^ 63 ->
   index = Z.of_nat (length vs1) /\ NoDup (noKindReports (trace r))) /\
  (forall w0 w1 tr1,
      rangeVariants gT rHook tableTestIndex b (StdT Live) vs1 (-1) w0
        = (Ret tt, w1, tr1) ->
      rangeVariants gT rHook tableTestIndex b (StdT Live) vs (-1) w0
        = (Goexit, w1, tr1 ++ [EvFatalf fmtNoKind [AInt index]])).
Proof.
  intros Hg Hgp Hs Hk vs index r1 r.
  assert (Hrep : noKindReports (trace r) =
                 map (fun k => int_wrap (Z.of_nat k)) (noKindPositions vs 0)).
  { exact (walk_reports_mT Hg b vs 0 w Hgp). }
  assert (Hin : In index (noKindReports (trace r))).
  { rewrite Hrep. unfold index.
    apply (in_map (fun k => int_wrap (Z.of_nat k))).
    exact (noKindPositions_In vs1 v vs2 0 Hs Hk). }
  split; [| split; [| split; [exact Hrep | split; [exact Hin | split]]]].
  - destruct (completes_rangeVariants_mT Hg b vs1 (-1) Hgp w) as [[] E1].
    assert (E : rangeVariants gT rHook tableTestIndex b mT vs1 (-1) w
                = (Ret tt, world r1, trace r1)).
    { unfold r1.
      destruct (rangeVariants gT rHook tableTestIndex b mT vs1 (-1) w)
        as [[s1 w1] tr1].
      unfold st in E1. simpl in E1. rewrite E1. reflexivity. }
    exact (@rangeVariants_empty_kind_mT b vs1 v vs2 w (world r1) (trace r1)
             Hs Hk E).
  - destruct (completes_rangeVariants_mT Hg b vs (-1) Hgp w) as [[] E].
    exact E.
  - intros Hlen.
    assert (Hl : Z.of_nat (length vs1) < 2 ^ 63).
    { unfold vs in Hlen. rewrite length_app in Hlen. simpl in Hlen. lia. }
    split; [apply int_wrap_small; lia |].
    rewrite Hrep. apply NoDup_map_NoDup_ForallPairs;
      [| apply noKindPositions_NoDup].
    intros k1 k2 H1 H2 E.
    pose proof (noKindPositions_bound vs 0) as Hb.
    rewrite Forall_forall in Hb.
    pose proof (Hb k1 H1) as B1. pose proof (Hb k2 H2) as B2.
    rewrite !int_wrap_small in E by lia. lia.
  - intros w0 w1 tr1 E. unfold vs, index.
    rewrite (@rangeVariants_reach b (StdT Live) vs1 v vs2 w0 w1 tr1 E).
    rewrite (@rangeVariants_empty_kind b (StdT Live) v vs2 _ w1 Hs Hk).
    rewrite counterAfter_next. reflexivity.
Qed.

(** ** The checks within a replay *)

Lemma run_quiet {A} (P : event -> Prop) (m : M A) (w : W) :
  completes m -> emits P m ->
  exists a w1 tr1, m w = (Ret a, w1, tr1) /\ Forall P tr1.
Proof.
  intros Hc He. destruct (Hc w) as [a Ea]. specialize (He w).
  destruct (m w) as [[s w1] tr1]. unfold st in Ea. simpl in Ea. subst s.
  exists a, w1, tr1. split; [reflexivity | exact He].
Qed.

Lemma bind_stop {A B} (m : M A) (k : A -> M B) (w w1 : W) s tr1 :
  m w = (s, w1, tr1) -> (forall a, s <> Ret a) -> trace (bind m k w) = tr1.
Proof.
  intros E Hs. rewrite trace_bind. unfold st, trace. rewrite E. simpl.
  destruct s as [a| |]; [destruct (Hs a eq_refl) | |]; reflexivity.
Qed.

Lemma setupOnly_offGate (l : list event) :
  Forall setupOnly l -> Forall offGate l.
Proof. apply Forall_impl. intros e. destruct e; simpl; auto. Qed.

Lemma errors_app (l1 l2 : list event) :
  errors (l1 ++ l2) = errors l1 ++ errors l2.
Proof.
  induction l1 as [|e l1 IH]; [reflexivity |].
  destruct e; simpl; rewrite IH; reflexivity.
Qed.

Lemma fatals_app (l1 l2 : list event) :
  fatals (l1 ++ l2) = fatals l1 ++ fatals l2.
Proof.
  induction l1 as [|e l1 IH]; [reflexivity |].
  destruct e; simpl; rewrite IH; reflexivity.
Qed.

Lemma errors_offGate (l : list event) : Forall offGate l -> errors l = [].
Proof.
  induction 1 as [|e l He _ IH]; [reflexivity |].
  destruct e; simpl in *; try exact IH; contradiction.
Qed.

Lemma offGate_not_reached (l : list event) :
  Forall offGate l -> ~ In EvValidate l.
Proof.
  intros H Hin. rewrite Forall_forall in H. exact (H _ Hin).
Qed.

Lemma errors_map (l : list string) : errors (map EvError l) = l.
Proof. induction l as [|x l IH]; simpl; [| rewrite IH]; reflexivity. Qed.

Lemma fatals_map (l : list string) : fatals (map EvError l) = [].
Proof. induction l; simpl; auto. Qed.

Lemma fatals_setupOnly (l : list event) : Forall setupOnly l -> fatals l = [].
Proof.
  induction 1 as [|e l He _ IH]; [reflexivity |].
  destruct e; simpl in *; try exact IH; contradiction.
Qed.

Lemma scopes_setupOnly (l : list event) : Forall setupOnly l -> scopes l = [].
Proof.
  induction 1 as [|e l He _ IH]; [reflexivity |].
  destruct e; simpl in *; try exact IH; contradiction.
Qed.

Lemma gateSplit_prepend cp hgp l tr pre trd post b' :
  gateSplit gT rHook cp hgp tr pre trd post b' ->
  gateSplit gT rHook cp hgp (l ++ tr) (l ++ pre) trd post b'.
Proof.
  intros (b0 & tc' & t' & w0 & w' & Hd & Ht & E).
  exists b0, tc', t', w0, w'. split; [exact Hd | split; [exact Ht |]].
  rewrite E, app_assoc. reflexivity.
Qed.

Lemma gateSplit_append cp hgp l tr pre trd b' :
  gateSplit gT rHook cp hgp tr pre trd [] b' ->
  gateSplit gT rHook cp hgp (tr ++ l) pre trd l b'.
Proof.
  intros (b0 & tc' & t' & w0 & w' & Hd & Ht & E).
  exists b0, tc', t', w0, w'. split; [exact Hd | split; [exact Ht |]].
  rewrite E, app_nil_r, <- !app_assoc. reflexivity.
Qed.

Lemma describe_stops b tc t w s w' trd :
  describe gT b tc t w = (s, w', trd) -> (forall b', s <> Ret b') -> trd = [].
Proof.
  unfold describe. destruct (Describe b) as [d|].
  - unfold callGetT. destruct (gT t) as [p|].
    + rewrite bind_ret_l.
      rewrite (bind_Ret (emit EvDescribe) _ w eq_refl).
      rewrite (bind_Ret _ _ _ (call_run _ w)), prepend_nil.
      intros E Hs. injection E as <- _ _. destruct (Hs _ eq_refl).
    + intros E _. injection E as _ _ <-. reflexivity.
  - intros E Hs. injection E as <- _ _. destruct (Hs _ eq_refl).
Qed.

(** The closure [test] either stops before Describe has returned, with an
    empty log, or hands a working copy to the checks. *)
Lemma test_gate cp hgp b tc t w :
  let tr := trace (test gT rHook cp hgp b tc t w) in
  tr = [] \/ exists trd b', gateSplit gT rHook cp hgp tr [] trd [] b'.
Proof.
  intros tr. unfold tr, test. clear tr.
  assert (Ht : t = StdT Nil \/ t <> StdT Nil).
  { destruct t as [[|]|]; [right | left | right]; congruence. }
  destruct Ht as [-> | Ht]; [left; reflexivity |].
  rewrite (bind_Ret _ _ _ (Helper_ok w Ht)), prepend_nil.
  destruct (describe gT b tc t w) as [[s w'] trd] eqn:Hd.
  destruct s as [b'| |].
  - right. exists trd, b'. exists b, tc, t, w, w'.
    split; [exact Hd | split; [exact Ht |]].
    rewrite (bind_Ret _ _ _ Hd), trace_prepend, app_nil_r. reflexivity.
  - left. rewrite (@bind_stop _ _ _ _ _ _ _ _ Hd) by discriminate.
    apply (@describe_stops b tc t w _ w' trd Hd). discriminate.
  - left. rewrite (@bind_stop _ _ _ _ _ _ _ _ Hd) by discriminate.
    apply (@describe_stops b tc t w _ w' trd Hd). discriminate.
Qed.

Lemma live_not_nil : StdT Live <> StdT Nil.
Proof. discriminate. Qed.

(** The body of the given-scope on a live [*testing.T]. *)
Lemma givenBody_gate cp b tc given seed w :
  let tr := trace (givenBody gT rHook cp b tc given seed Live w) in
  Forall setupOnly tr \/
  exists pre trd b',
    gateSplit gT rHook cp true tr pre trd [] b' /\ Forall setupOnly pre.
Proof.
  intros tr. unfold tr, givenBody. clear tr.
  rewrite (bind_Ret _ _ _ (Helper_ok w live_not_nil)), prepend_nil.
  match goal with
  | |- context [trace (bind ?m _ w)] =>
      destruct (@run_quiet _ setupOnly m w) as (x & w1 & tr1 & Ex & H1)
  end.
  { destruct given; repeat completes_step. }
  { destruct given; repeat emits_step; exact I. }
  rewrite (bind_Ret _ _ _ Ex). destruct x as [[b1 tc1] gr].
  match goal with
  | |- context [trace (prepend tr1 (bind ?m _ w1))] =>
      destruct (@run_quiet _ setupOnly m w1) as (y & w2 & tr2 & Ey & H2)
  end.
  { destruct (AfterGiven (hooks b1)); repeat completes_step. }
  { destruct (AfterGiven (hooks b1)); repeat emits_step; exact I. }
  rewrite (bind_Ret _ _ _ Ey), !trace_prepend.
  destruct (test_gate cp true (fst y) (snd y) (StdT Live) w2)
    as [E | (trd & b' & Hs)].
  - left. rewrite E, app_nil_r. apply Forall_app. split; assumption.
  - right. exists (tr1 ++ tr2), trd, b'. split.
    + pose proof (@gateSplit_prepend cp true (tr1 ++ tr2) _ _ _ _ _ Hs) as H.
      rewrite app_nil_r, <- app_assoc in H. exact H.
    + apply Forall_app. split; assumption.
Qed.

Lemma Run_live_trace k name body w :
  trace (Run (StdT Live) k name body w) =
  EvRun k name :: trace (body Live w)
    ++ match st (body Live w) with
       | Panicked => []
       | _ => [EvExit k]
       end.
Proof.
  unfold Run. rewrite (bind_Ret (emit (EvRun k name)) _ w eq_refl).
  rewrite trace_prepend, trace_bind, trace_scoped.
  unfold scoped, st, world.
  destruct (body Live w) as [[[[]| |] w1] tr1]; simpl;
    rewrite ?app_nil_r; reflexivity.
Qed.

(** The given phase from the [AfterArrange] dispatch on. *)
Lemma givenRest_gate cp b tc ran given seed t w :
  let tr := trace (givenRest gT rHook cp b tc ran given seed t w) in
  Forall offGate tr \/
  exists pre trd post b',
    gateSplit gT rHook cp true tr pre trd post b' /\
    beforeGate cp true pre /\ (post = [] \/ post = [EvExit SGiven]).
Proof.
  intros tr. unfold tr, givenRest. clear tr.
  destruct (gT t) as [p|] eqn:Hg.
  2: { left. unfold callGetT. rewrite Hg. constructor. }
  rewrite (bind_Ret _ _ _ (callGetT_ok w Hg)), prepend_nil.
  destruct (afterArrange_run b p tc ran (isNil given) (isEmpty (Given b)) w)
    as (tc' & w' & E).
  rewrite (bind_Ret _ _ _ E), trace_prepend.
  match goal with
  | |- context [?l ++ trace _] =>
      assert (Haa : Forall setupOnly l)
        by (destruct (AfterArrange (hooks b)); repeat constructor);
      generalize dependent l; intros aa E Haa
  end.
  destruct (isEmpty (Given b)).
  - left. apply Forall_app. split; [apply setupOnly_offGate, Haa |].
    apply (emits_Fatalf offGate t _ _ I).
  - destruct t as [[|]|].
    + rewrite Run_live_trace.
      set (post := match st (givenBody gT rHook cp b tc' given seed Live w')
                   with
                   | Panicked => []
                   | _ => [EvExit SGiven]
                   end).
      assert (Hpost : post = [] \/ post = [EvExit SGiven]).
      { unfold post. destruct (st _); auto. }
      clearbody post.
      destruct (givenBody_gate cp b tc' given seed w')
        as [Hq | (pre & trd & b' & Hs & Hpre)].
      * left. apply Forall_app. split; [apply setupOnly_offGate, Haa |].
        constructor; [exact I |]. apply Forall_app.
        split; [apply setupOnly_offGate, Hq |].
        destruct Hpost as [-> | ->]; repeat constructor.
      * right.
        exists (aa ++ EvRun SGiven (cp +:+ "given " +:+ Given b) :: pre), trd,
               post, b'.
        split; [| split; [| exact Hpost]].
        -- apply (@gateSplit_append cp true post) in Hs.
           apply (@gateSplit_prepend cp true
                    [EvRun SGiven (cp +:+ "given " +:+ Given b)]) in Hs.
           apply (@gateSplit_prepend cp true aa) in Hs.
           exact Hs.
        -- exists aa, (Given b), pre. auto.
    + left. rewrite app_nil_r. apply setupOnly_offGate, Haa.
    + left. apply Forall_app. split; [apply setupOnly_offGate, Haa |].
      repeat constructor.
Qed.

(** The closure [test] of the given phase. *)
Lemma givenTest_gate cp b tc t w :
  let tr := trace (givenTest gT rHook cp b tc t w) in
  Forall offGate tr \/
  exists pre trd post b',
    gateSplit gT rHook cp true tr pre trd post b' /\
    beforeGate cp true pre /\ (post = [] \/ post = [EvExit SGiven]).
Proof.
  intros tr. unfold tr, givenTest. clear tr.
  assert (Ht : t = StdT Nil \/ t <> StdT Nil).
  { destruct t as [[|]|]; [right | left | right]; congruence. }
  destruct Ht as [-> | Ht]; [left; constructor |].
  rewrite (bind_Ret _ _ _ (Helper_ok w Ht)), prepend_nil.
  destruct (Arrange b) as [a|]; [| apply givenRest_gate].
  destruct (gT t) as [p|] eqn:Hg.
  2: { left. unfold callGetT. rewrite Hg. constructor. }
  rewrite (bind_Ret _ _ _ (callGetT_ok w Hg)), prepend_nil.
  rewrite (bind_Ret (emit EvArrange) _ w eq_refl).
  destruct (a p (arrangeView b tc (Given b)) w) as [[[label given] cfg] w1]
    eqn:Ha.
  assert (Hc : call (a p (arrangeView b tc (Given b))) w
               = (Ret (label, given, cfg), w1, [])).
  { unfold call. rewrite Ha. reflexivity. }
  rewrite (bind_Ret _ _ _ Hc), prepend_nil, trace_prepend.
  destruct given as [g|].
  - destruct (givenRest_gate cp (setGiven (storeArrange b cfg) label)
                (ar_TC cfg) true (Some g) (Given b) t w1)
      as [Hq | (pre & trd & post & b' & Hs & Hpre & Hpost)].
    + left. constructor; [exact I | exact Hq].
    + right. exists (EvArrange :: pre), trd, post, b'.
      split; [| split; [| exact Hpost]].
      * exact (@gateSplit_prepend cp true [EvArrange] _ _ _ _ _ Hs).
      * destruct Hpre as (pre1 & lbl & pre2 & -> & H1 & H2).
        exists (EvArrange :: pre1), lbl, pre2.
        split; [reflexivity | split; [constructor; [exact I | exact H1] | exact H2]].
  - left. constructor; [exact I |].
    match goal with
    | |- Forall offGate (trace (?m w1)) =>
        assert (H : emits offGate m); [| exact (H w1)]
    end.
    apply emits_bind; [apply emits_callGetT | intros p'].
    apply emits_bind; [apply emits_afterArrange; exact I | intros _].
    apply emits_Fatalf. exact I.
Qed.

Lemma completes_Helper t : t <> StdT Nil -> completes (Helper t).
Proof. intros Ht w. exists tt. rewrite (Helper_ok w Ht). reflexivity. Qed.

Lemma completes_callGetT t p : gT t = Some p -> completes (callGetT gT t).
Proof. intros Hg w. exists p. rewrite (callGetT_ok w Hg). reflexivity. Qed.

(** Every replay either stays off the checks or hands a working copy to
    them. *)
Lemma replay_gate b t tc prefix w :
  let cp := composePrefix tableTestIndex prefix in
  let hgp := hasGivenPhase b in
  let tr := trace (replay gT rHook tableTestIndex b t tc prefix w) in
  Forall offGate tr \/
  exists pre trd post b',
    gateSplit gT rHook cp hgp tr pre trd post b' /\
    beforeGate cp hgp pre /\
    (post = [] \/ hgp = true /\ post = [EvExit SGiven]).
Proof.
  intros cp hgp tr. unfold tr, hgp. clear tr hgp.
  assert (Ht : t = StdT Nil \/ t <> StdT Nil).
  { destruct t as [[|]|]; [right | left | right]; congruence. }
  destruct (hasGivenPhase b) eqn:Hgp.
  - rewrite replay_given by exact Hgp.
    destruct Ht as [-> | Ht]; [left; constructor |].
    rewrite (bind_Ret _ _ _ (Helper_ok w Ht)), prepend_nil.
    destruct (givenTest_gate cp b tc t w)
      as [Hq | (pre & trd & post & b' & Hs & Hpre & Hpost)];
      [left; exact Hq | right].
    exists pre, trd, post, b'. split; [exact Hs | split; [exact Hpre |]].
    destruct Hpost; auto.
  - unfold replay.
    destruct Ht as [-> | Ht]; [left; constructor |].
    destruct (gT t) as [p|] eqn:Hg.
    2: { left. unfold f.
         rewrite bind_assoc, (bind_Ret _ _ _ (Helper_ok w Ht)), prepend_nil.
         rewrite Hgp. unfold callGetT. rewrite Hg. constructor. }
    destruct (@run_quiet _ setupOnly
                (f gT rHook tableTestIndex b t tc prefix) w)
      as (run & w1 & trf & Ef & Hf).
    { unfold f. apply completes_bind; [apply completes_Helper, Ht | intros _].
      rewrite Hgp.
      apply completes_bind; [apply (completes_callGetT Hg) | intros p0].
      apply completes_bind; [apply completes_afterArrange | intros tc1].
      apply completes_bind; [| intros x; apply completes_ret].
      destruct (AfterGiven (hooks b)); [| apply completes_ret].
      apply completes_bind; [apply (completes_callGetT Hg) | intros p'].
      repeat completes_step. }
    { unfold f. apply emits_bind; [apply emits_Helper | intros _].
      rewrite Hgp.
      apply emits_bind; [apply emits_callGetT | intros p0].
      apply emits_bind; [apply emits_afterArrange; exact I | intros tc1].
      apply emits_bind; [| intros x; apply emits_ret].
      destruct (AfterGiven (hooks b)); [| apply emits_ret].
      apply emits_bind; [apply emits_callGetT | intros p'].
      repeat emits_step. exact I. }
    pose proof (f_returns b t tc prefix w) as Hr.
    unfold st in Hr. rewrite Ef in Hr. specialize (Hr run eq_refl).
    simpl in Hr. rewrite Hgp in Hr. destruct Hr as (b1 & tc1 & ->).
    rewrite (bind_Ret _ _ _ Ef), trace_prepend. fold cp.
    destruct (test_gate cp false b1 tc1 t w1) as [E | (trd & b' & Hs)].
    + left. rewrite E, app_nil_r. apply setupOnly_offGate, Hf.
    + right. exists trf, trd, [], b'. split; [| split; [exact Hf | auto]].
      pose proof (@gateSplit_prepend cp false trf _ _ _ _ _ Hs) as H.
      rewrite app_nil_r in H. exact H.
Qed.

Lemma checks_starts cp hgp b tc t w :
  exists l, trace (checks rHook cp hgp b tc t w) = EvValidate :: l.
Proof.
  unfold checks.
  rewrite (bind_Ret (emit EvValidate) _ w eq_refl), trace_prepend.
  eexists. reflexivity.
Qed.

Lemma errors_quiet (l : list event) :
  Forall (fun e => errors [e] = []) l -> errors l = [].
Proof.
  induction 1 as [|e l He _ IH]; [reflexivity |].
  destruct e; simpl in *; try exact IH; discriminate.
Qed.

(** The checks of a working copy that passes them log no soft failure. *)
Lemma checks_passing cp hgp b tc t w :
  violations b = [] -> errors (trace (checks rHook cp hgp b tc t w)) = [].
Proof.
  intros Hv. unfold violations in Hv.
  destruct (isEmpty (When b)) eqn:E1; [discriminate |].
  destruct (isEmpty (Then b)) eqn:E2; [discriminate |].
  destruct (isNil (Act b)) eqn:E3; [discriminate |].
  destruct (isNil (Assert b)) eqn:E4; [discriminate |].
  apply errors_quiet.
  match goal with
  | |- Forall ?P (trace (?m w)) => assert (H : emits P m); [| exact (H w)]
  end.
  unfold checks. rewrite E1, E2, E3, E4. cbn [orb].
  apply emits_bind; [apply emits_emit; reflexivity | intros _].
  do 4 (apply emits_bind; [apply emits_ret | intros _]).
  apply emits_Run; [reflexivity | reflexivity | intros p].
  apply emits_whenBody; reflexivity.
Qed.

Lemma beforeGate_reads cp hgp pre :
  beforeGate cp hgp pre ->
  errors pre = [] /\ fatals pre = [] /\
  if hgp then exists lbl, scopes pre = [(SGiven, cp +:+ "given " +:+ lbl)]
  else scopes pre = [].
Proof.
  unfold beforeGate. destruct hgp.
  - intros (pre1 & lbl & pre2 & -> & H1 & H2).
    rewrite errors_app, fatals_app, scopes_app. cbn [errors fatals scopes].
    rewrite (errors_offGate (setupOnly_offGate H1)),
            (errors_offGate (setupOnly_offGate H2)),
            (fatals_setupOnly H1), (fatals_setupOnly H2),
            (scopes_setupOnly H1), (scopes_setupOnly H2).
    repeat split. exists lbl. reflexivity.
  - intros H.
    rewrite (errors_offGate (setupOnly_offGate H)), (fatals_setupOnly H),
            (scopes_setupOnly H).
    repeat split.
Qed.

(** A replay of a descriptor that nothing reconfigures, without given
    phase: the checks read the descriptor itself. *)
Lemma plain_replay_misconfigured b t tc prefix w :
  Arrange b = None -> Given b = "" -> Describe b = None ->
  AfterGiven (hooks b) = None ->
  t <> StdT Nil -> gT t <> None -> violations b <> [] ->
  trace (replay gT rHook tableTestIndex b t tc prefix w) =
  match AfterArrange (hooks b) with
  | Some _ => [EvAfterArrange false true true]
  | None => []
  end ++ EvValidate :: map EvError (violations b)
      ++ [EvFatalf fmtNotConfigured
            [AStr (composePrefix tableTestIndex prefix)]].
Proof.
  intros HA HG HD HAG Ht Hg Hv.
  assert (Hgp : hasGivenPhase b = false).
  { unfold hasGivenPhase. rewrite HA, HG. reflexivity. }
  destruct (gT t) as [p|] eqn:Hp; [clear Hg | destruct (Hg eq_refl)].
  destruct (afterArrange_run b p tc false true true w) as (tc' & w' & E).
  assert (Ef : f gT rHook tableTestIndex b t tc prefix w =
               (Ret (test gT rHook (composePrefix tableTestIndex prefix)
                          false b tc'), w',
                match AfterArrange (hooks b) with
                | Some _ => [EvAfterArrange false true true]
                | None => []
                end)).
  { unfold f. rewrite (bind_Ret _ _ _ (Helper_ok w Ht)), prepend_nil.
    rewrite Hgp, (bind_Ret _ _ _ (callGetT_ok w Hp)), prepend_nil.
    rewrite (bind_Ret _ _ _ E), HAG, bind_ret_l.
    simpl. rewrite app_nil_r. reflexivity. }
  unfold replay. rewrite (bind_Ret _ _ _ Ef), trace_prepend.
  unfold test. rewrite (bind_Ret _ _ _ (Helper_ok w' Ht)), prepend_nil.
  unfold describe. rewrite HD, bind_ret_l.
  rewrite (@checks_misconfigured _ false b tc' t w' Ht Hv). reflexivity.
Qed.

(** C3, as the code has it.  A replay that reaches the checks has logged
    before them only the phases before Describe and, when it has a given
    phase, the opening of its given-scope; then comes Describe, which leaves
    the working copy, then the checks of that copy.  When the copy violates
    a check, the checks log one soft failure per violated check, in the
    order When, Then, Act, Assert, then the one hard failure with the
    composed prefix as its argument, and the replay does nothing more but
    close the given-scope: no when-scope, no then-scope, no Act.  So the
    replay has opened no scope at all when it has no given phase, and its
    given-scope and nothing else when it has one.  With all four violated
    the soft failures are the four messages in that order.  A replay that
    does not reach the checks logs no soft failure.  And when nothing can
    reconfigure the descriptor (no Arrange, no Describe, no AfterGiven
    hook) and it has no given label, the working copy is the descriptor
    itself: if it violates a check, the replay logs the AfterArrange
    dispatch if that hook is set, the checks, the soft failures of the
    descriptor and the hard failure, and opens no scope. *)
Theorem validation_gate b t tc prefix w :
  let cp := composePrefix tableTestIndex prefix in
  let hgp := hasGivenPhase b in
  let tr := trace (replay gT rHook tableTestIndex b t tc prefix w) in
  (In EvValidate tr ->
   exists pre trd post b',
     gateSplit gT rHook cp hgp tr pre trd post b' /\
     beforeGate cp hgp pre /\
     (trd = [] \/ trd = [EvDescribe]) /\
     (post = [] \/ hgp = true /\ post = [EvExit SGiven]) /\
     errors tr = violations b' /\
     (violations b' <> [] ->
      tr = pre ++ trd ++ EvValidate :: map EvError (violations b')
               ++ EvFatalf fmtNotConfigured [AStr cp] :: post /\
      fatals tr = [(fmtNotConfigured, [AStr cp])] /\
      if hgp
      then exists lbl, scopes tr = [(SGiven, cp +:+ "given " +:+ lbl)]
      else scopes tr = []) /\
     (isEmpty (When b') = true -> isEmpty (Then b') = true ->
      Act b' = None -> Assert b' = None ->
      violations b' = [msgWhenEmpty; msgThenEmpty; msgActNil; msgAssertNil]))
  /\
  (~ In EvValidate tr -> errors tr = []) /\
  (Arrange b = None -> Given b = "" -> Describe b = None ->
   AfterGiven (hooks b) = None ->
   t <> StdT Nil -> gT t <> None -> violations b <> [] ->
   tr = match AfterArrange (hooks b) with
        | Some _ => [EvAfterArrange false true true]
        | None => []
        end ++ EvValidate :: map EvError (violations b)
            ++ [EvFatalf fmtNotConfigured [AStr cp]] /\
   scopes tr = []).
Proof.
  intros cp hgp tr. subst tr hgp cp.
  rewrite <- and_assoc. split.
  2: { intros HA HG HD HAG Ht Hg Hv.
       rewrite (@plain_replay_misconfigured b t tc prefix w
                  HA HG HD HAG Ht Hg Hv).
       split; [reflexivity |].
       rewrite scopes_app. cbn [scopes].
       rewrite scopes_app, scopes_errors.
       destruct (AfterArrange (hooks b)); reflexivity. }
  destruct (replay_gate b t tc prefix w)
    as [Hq | (pre & trd & post & b' & Hs & Hpre & Hpost)];
    set (cp := composePrefix tableTestIndex prefix) in *;
    set (hgp := hasGivenPhase b) in *;
    set (tr := trace (replay gT rHook tableTestIndex b t tc prefix w)) in *.
  - split; [intros Hin; destruct (offGate_not_reached Hq Hin) |].
    intros _. exact (errors_offGate Hq).
  - pose proof Hs as (b0 & tc' & t' & w0 & w' & Hd & Ht' & E).
    split.
    + intros _. exists pre, trd, post, b'.
      assert (Htrd : trd = [] \/ trd = [EvDescribe]).
      { rewrite (@describe_run b0 tc' t' w0 b' w' trd Hd).
        destruct (Describe b0); auto. }
      destruct (@beforeGate_reads cp hgp pre Hpre) as (He & Hf & Hsc).
      assert (Hpe : errors post = [] /\ fatals post = []
                    /\ scopes post = []).
      { destruct Hpost as [-> | [_ ->]]; repeat split. }
      destruct Hpe as (Hpe & Hpf & Hps).
      assert (Hde : errors trd = [] /\ fatals trd = []
                    /\ scopes trd = []).
      { destruct Htrd as [-> | ->]; repeat split. }
      destruct Hde as (Hde & Hdf & Hds).
      assert (Hfail : violations b' <> [] ->
                tr = pre ++ trd ++ EvValidate
                       :: map EvError (violations b')
                       ++ EvFatalf fmtNotConfigured [AStr cp] :: post).
      { intros Hv. rewrite E.
        rewrite (@checks_misconfigured cp hgp b' tc' t' w' Ht' Hv).
        unfold trace. simpl. rewrite <- app_assoc. reflexivity. }
      split; [exact Hs | split; [exact Hpre | split; [exact Htrd |
        split; [exact Hpost | split; [| split]]]]].
      * assert (Hdec : violations b' = [] \/ violations b' <> []).
        { destruct (violations b'); [left | right]; congruence. }
        destruct Hdec as [Hv | Hv].
        -- rewrite E, !errors_app, He, Hde, Hpe,
             (@checks_passing cp hgp b' tc' t' w' Hv), Hv. reflexivity.
        -- rewrite (Hfail Hv), !errors_app, He, Hde. cbn [errors app].
           rewrite errors_app, errors_map. cbn [errors].
           rewrite Hpe, app_nil_r. reflexivity.
      * intros Hv. pose proof (Hfail Hv) as E'.
        split; [exact E' | split].
        -- rewrite E', !fatals_app, Hf, Hdf. cbn [fatals app].
           rewrite fatals_app, fatals_map. cbn [fatals app].
           rewrite Hpf. reflexivity.
        -- assert (Hst : scopes tr = scopes pre).
           { rewrite E', !scopes_app, Hds. cbn [scopes app].
             rewrite scopes_app, scopes_errors. cbn [scopes app].
             rewrite Hps, app_nil_r. reflexivity. }
           rewrite Hst. exact Hsc.
      * intros H1 H2 H3 H4. unfold violations.
        rewrite H1, H2, H3, H4. reflexivity.
    + intros Hn. exfalso. apply Hn. rewrite E.
      destruct (checks_starts cp hgp b' tc' t' w') as [l ->].
      apply in_or_app. right. apply in_or_app. right. left. reflexivity.
Qed.

(** ** A replay on a live [*testing.T]: a scope or the exit *)

Lemma existsb_opens_quiet (l : list event) :
  Forall (fun e => opens e = false) l -> existsb opens l = false.
Proof.
  induction 1 as [|e l He _ IH]; [reflexivity |]. simpl. rewrite He. exact IH.
Qed.

Lemma soe_bind_post {A} (Q : A -> Prop) (m : M A) (k : A -> M unit) :
  returns Q m -> completes m -> emits (fun e => opens e = false) m ->
  (forall a, Q a -> scopeOrExit (k a)) -> scopeOrExit (bind m k).
Proof.
  intros HQ Hm He Hk w. rewrite st_bind, trace_bind.
  destruct (Hm w) as [a E]. rewrite E.
  rewrite existsb_app, (existsb_opens_quiet (He w)). apply Hk, (HQ w a E).
Qed.

Lemma soe_bind {A} (m : M A) (k : A -> M unit) :
  completes m -> emits (fun e => opens e = false) m ->
  (forall a, scopeOrExit (k a)) -> scopeOrExit (bind m k).
Proof.
  intros Hm He Hk. apply soe_bind_post with (Q := fun _ => True); auto.
  intros w a _. exact I.
Qed.

Lemma soe_Fatalf_live format args :
  scopeOrExit (Fatalf (StdT Live) format args).
Proof. intros w. reflexivity. Qed.

(** A scope absorbs the exit of its body. *)
Lemma soe_Run_live sc name body :
  safe (body Live) -> scopeOrExit (Run (StdT Live) sc name body).
Proof.
  intros H w. specialize (H w). unfold Run.
  rewrite st_bind, trace_bind. cbn [emit st trace world fst snd app existsb opens orb].
  rewrite st_bind. unfold scoped, st in *.
  destruct (body Live w) as [[[[]| |] w1] tr1]; simpl in *;
    [reflexivity | reflexivity | contradiction].
Qed.

Section LiveScope.

Hypothesis gT_live : gT (StdT Live) <> None.

Lemma completes_callGetT_live : completes (callGetT gT (StdT Live)).
Proof.
  unfold callGetT. destruct (gT (StdT Live)); [apply completes_ret | contradiction].
Qed.

Ltac quiet_step :=
  match goal with
  | |- emits _ (bind _ _) => apply emits_bind; [| intros ?]
  | |- emits _ (ret _) => apply emits_ret
  | |- emits _ (emit _) => apply emits_emit; reflexivity
  | |- emits _ (call _) => apply emits_call
  | |- emits _ (Helper _) => apply emits_Helper
  | |- emits _ (callGetT _ _) => apply emits_callGetT
  | |- emits _ (afterArrange _ _ _ _ _ _) => apply emits_afterArrange; reflexivity
  end.

Lemma soe_checks_live cp hgp b tc :
  scopeOrExit (checks rHook cp hgp b tc (StdT Live)).
Proof.
  unfold checks.
  apply soe_bind; [apply completes_emit | quiet_step | intros _].
  do 4 (apply soe_bind;
        [match goal with
         | |- completes (if ?c then _ else _) =>
             destruct c; [apply completes_emit | apply completes_ret]
         end
        | match goal with
          | |- emits _ (if ?c then _ else _) =>
              destruct c; [apply emits_Error; reflexivity | apply emits_ret]
          end
        | intros _]).
  destruct (Act b) eqn:EA, (Assert b) eqn:ES;
    destruct (isEmpty (When b)), (isEmpty (Then b)); cbn [isNil isSome negb orb];
    try apply soe_Fatalf_live.
  apply soe_Run_live, safe_whenBody_live; rewrite ?EA, ?ES; discriminate.
Qed.

Lemma soe_test_live cp hgp b tc :
  scopeOrExit (test gT rHook cp hgp b tc (StdT Live)).
Proof.
  unfold test.
  apply soe_bind; [apply completes_ret | quiet_step | intros _].
  apply soe_bind; [| | intros b'; apply soe_checks_live].
  - unfold describe. destruct (Describe b); [| apply completes_ret].
    apply completes_bind; [apply completes_callGetT_live | intros p].
    repeat completes_step.
  - apply emits_describe. reflexivity.
Qed.

Lemma safe_givenBody_live cp b tc given seed :
  safe (givenBody gT rHook cp b tc given seed Live).
Proof.
  unfold givenBody.
  apply safe_bind; [apply safe_ret | intros _].
  apply safe_bind; [destruct given; repeat safe_step | intros [[b1 tc2] gr]].
  apply safe_bind; [| intros y; apply safe_test_live, gT_live].
  destruct (AfterGiven (hooks b1)); repeat safe_step.
Qed.

Lemma soe_givenRest_live cp b tc ran given seed :
  scopeOrExit (givenRest gT rHook cp b tc ran given seed (StdT Live)).
Proof.
  unfold givenRest.
  apply soe_bind; [apply completes_callGetT_live | quiet_step | intros p].
  apply soe_bind; [apply completes_afterArrange | quiet_step | intros tc1].
  destruct (isEmpty (Given b)); [apply soe_Fatalf_live |].
  apply soe_Run_live, safe_givenBody_live.
Qed.

Lemma soe_givenTest_live cp b tc :
  scopeOrExit (givenTest gT rHook cp b tc (StdT Live)).
Proof.
  unfold givenTest.
  apply soe_bind; [apply completes_ret | quiet_step | intros _].
  destruct (Arrange b); [| apply soe_givenRest_live].
  apply soe_bind; [apply completes_callGetT_live | quiet_step | intros p].
  apply soe_bind; [apply completes_emit | quiet_step | intros _].
  apply soe_bind;
    [apply completes_call | quiet_step | intros [[label given] cfg]].
  destruct given; [apply soe_givenRest_live |].
  apply soe_bind; [apply completes_callGetT_live | quiet_step | intros p'].
  apply soe_bind; [apply completes_afterArrange | quiet_step | intros _].
  apply soe_Fatalf_live.
Qed.

Lemma soe_replay_live b tc prefix :
  scopeOrExit (replay gT rHook tableTestIndex b (StdT Live) tc prefix).
Proof.
  unfold replay. eapply soe_bind_post; [apply f_returns | | |].
  - unfold f. apply completes_bind; [apply completes_ret | intros _].
    destruct (hasGivenPhase b); [apply completes_ret |].
    apply completes_bind; [apply completes_callGetT_live | intros p].
    apply completes_bind; [apply completes_afterArrange | intros tc1].
    apply completes_bind; [| intros x; apply completes_ret].
    destruct (AfterGiven (hooks b)); [| apply completes_ret].
    apply completes_bind; [apply completes_callGetT_live | intros p'].
    repeat completes_step.
  - unfold f. apply emits_bind; [quiet_step | intros _].
    destruct (hasGivenPhase b); [apply emits_ret |].
    apply emits_bind; [quiet_step | intros p].
    apply emits_bind; [quiet_step | intros tc1].
    apply emits_bind; [| intros x; apply emits_ret].
    destruct (AfterGiven (hooks b)); repeat quiet_step.
  - intros run Hrun. simpl in Hrun. destruct (hasGivenPhase b).
    + subst run. apply soe_givenTest_live.
    + destruct Hrun as (b' & tc' & ->). apply soe_test_live.
Qed.

(** X9: On a live [*testing.T] a replay does one of two things: it opens a
    scope, and then it returns to the walk whatever happens inside; or it
    reports a hard failure before any scope, and then it ends the calling
    test function. *)
Theorem live_replay_scope_or_exit b tc prefix w :
  let r := replay gT rHook tableTestIndex b (StdT Live) tc prefix w in
  st r = if existsb opens (trace r) then Ret tt else Goexit.
Proof. apply soe_replay_live. Qed.

Lemma soe_basis_live b tc :
  scopeOrExit (basis gT rHook tableTestIndex b (StdT Live) tc).
Proof.
  unfold basis. apply soe_bind; [apply completes_cloneTC | | intros tc1].
  - unfold cloneTC. destruct (CloneTC b); repeat quiet_step.
  - apply soe_replay_live.
Qed.

Lemma runAll_without_scope b w :
  let r := runAll gT rHook tableTestIndex b (StdT Live) w in
  existsb opens (trace r) = false -> st r = Goexit /\ seeds (trace r) = [].
Proof.
  intros r. unfold r, runAll. clear r.
  assert (Ht : StdT Live <> StdT Nil) by discriminate.
  rewrite (bind_Ret _ _ _ (Helper_ok w Ht)), prepend_nil.
  rewrite st_bind, trace_bind.
  pose proof (soe_basis_live b (TC b) w) as Hb.
  pose proof (emits_basis_noSeed b (StdT Live) (TC b) w) as Hs.
  destruct (existsb opens (trace (basis gT rHook tableTestIndex b (StdT Live)
                                        (TC b) w))) eqn:Eo;
    rewrite Hb.
  - rewrite existsb_app, Eo. discriminate.
  - intros _. split; [reflexivity | exact (seeds_noSeed Hs)].
Qed.

End LiveScope.

End ReplayFacts.

(** ** The builders *)

(** C9: [GWT] panics exactly when one of its invariants is violated, a
    non-nil given function with an empty given label, an empty when label, a
    nil when function, an empty then label or a nil then function; otherwise
    it returns the descriptor made of its arguments; and [WT] is [GWT] with
    an empty given label and a nil given function. *)
Theorem GWT_panics_iff tc given givenF when_ whenF then_ thenF :
  match GWT tc given givenF when_ whenF then_ thenF with
  | inl _ => gwtViolated given givenF when_ whenF then_ thenF = true
  | inr b =>
      gwtViolated given givenF when_ whenF then_ thenF = false /\
      TC b = tc /\ Given b = given /\ When b = when_ /\ Then b = then_ /\
      Act b = whenF /\ isSome (Arrange b) = isSome givenF /\
      isSome (Assert b) = true
  end /\
  WT tc when_ whenF then_ thenF = GWT tc "" None when_ whenF then_ thenF.
Proof.
  split; [| reflexivity].
  unfold GWT, gwtViolated.
  destruct givenF, given, when_, whenF, then_, thenF; simpl;
    repeat split; reflexivity.
Qed.

(** ** The test function on a live [*testing.T] *)

Lemma resolveGetT_live b : resolveGetT b (StdT Live) <> None.
Proof. unfold resolveGetT. destruct (getT b); discriminate. Qed.


(** ** [New] and [NewI] *)

Lemma composePrefix_negative (i : Z) (prefix : string) :
  i < 0 -> composePrefix i prefix = composePrefix (-1) prefix.
Proof.
  intros H. unfold composePrefix.
  destruct (Z.leb_spec 0 i); [lia | reflexivity].
Qed.

Lemma bind_cong {A B} (m m' : M A) (k k' : A -> M B) (w : W) :
  m w = m' w -> (forall a w', k a w' = k' a w') -> bind m k w = bind m' k' w.
Proof.
  intros E H. simpl. unfold mbind. rewrite E.
  destruct (m' w) as [[[a| |] w1] tr1]; [rewrite H | |]; reflexivity.
Qed.

Lemma f_negative gT rH i b t tc prefix w :
  i < 0 -> f gT rH i b t tc prefix w = f gT rH (-1) b t tc prefix w.
Proof.
  intros H. unfold f.
  refine (bind_cong (Helper t) (Helper t) _ _ w eq_refl _). intros _ w'.
  rewrite (composePrefix_negative prefix H). reflexivity.
Qed.

Lemma replay_negative gT rH i b t tc prefix w :
  i < 0 -> replay gT rH i b t tc prefix w = replay gT rH (-1) b t tc prefix w.
Proof.
  intros H. unfold replay.
  refine (bind_cong _ _ _ _ w (f_negative gT rH b t tc prefix w H) _).
  reflexivity.
Qed.

Lemma rangeVariants_negative gT rH i b t vs i0 w :
  i < 0 ->
  rangeVariants gT rH i b t vs i0 w = rangeVariants gT rH (-1) b t vs i0 w.
Proof.
  intros H. revert i0 w.
  induction vs as [|v vs IH]; intros i0 w; cbn [rangeVariants];
    [reflexivity |].
  destruct (SkipTC v); [apply IH |].
  destruct (isEmpty (Kind v)).
  - refine (bind_cong _ _ _ _ w eq_refl _). intros _ w'. apply IH.
  - refine (bind_cong _ _ _ _ w eq_refl _). intros tc w'.
    refine (bind_cong _ _ _ _ w' (replay_negative gT rH b t tc (Kind v) w' H) _).
    intros _ w2. apply IH.
Qed.

Lemma runAll_negative gT rH i b t w :
  i < 0 -> runAll gT rH i b t w = runAll gT rH (-1) b t w.
Proof.
  intros H. unfold runAll, basis.
  refine (bind_cong _ _ _ _ w eq_refl _). intros _ w1.
  refine (bind_cong _ _ _ _ w1 _ _).
  - refine (bind_cong _ _ _ _ w1 eq_refl _). intros tc1 w2.
    apply replay_negative, H.
  - intros _ w2. destruct (Variants b); [| reflexivity].
    refine (bind_cong _ _ _ _ w2 eq_refl _). intros p w3.
    refine (bind_cong _ _ _ _ w3 eq_refl _). intros _ w4.
    refine (bind_cong _ _ _ _ w4 eq_refl _). intros vs w5.
    apply rangeVariants_negative, H.
Qed.

(** X11: [New] builds the test function that [NewI] builds for any ordinal below
    zero: run on any context and in any world, the two do the same, log the
    same and end the same. *)
Theorem New_is_NewI_below_zero b p i t w :
  i < 0 ->
  bind (NewI b p i) (fun run => run t) w = bind (New b p) (fun run => run t) w.
Proof.
  intros H. destruct p; [| reflexivity].
  assert (E1 : NewI b Live i w
               = (Ret (runAll (resolveGetT b) (runHook b) i b), w, []))
    by reflexivity.
  assert (E2 : New b Live w
               = (Ret (runAll (resolveGetT b) (runHook b) (-1) b), w, []))
    by reflexivity.
  rewrite (bind_Ret _ _ _ E1), (bind_Ret _ _ _ E2), !prepend_nil.
  apply runAll_negative, H.
Qed.

(** ** The generator after a basis that failed *)

(** X12: On a live [*testing.T] the generator of the variants is called only
    after the basis test case opened a scope: a run that opens no scope has
    ended the calling test function with a hard failure of the basis test
    case, before [Variants] was looked at. *)
Theorem live_run_without_scope_skips_variants b tableTestIndex w :
  let r := runNewI b tableTestIndex (StdT Live) w in
  existsb opens (trace r) = false -> st r = Goexit /\ seeds (trace r) = [].
Proof.
  intros r. unfold r. clear r.
  assert (E : newI b (StdT Live) tableTestIndex w
              = (Ret (runAll (resolveGetT b) (runHook b) tableTestIndex b),
                 w, []))
    by reflexivity.
  unfold runNewI. rewrite (bind_Ret _ _ _ E), prepend_nil.
  apply runAll_without_scope, resolveGetT_live.
Qed.

(** ** The test function on the recording double *)


(** ** The default translation of the context *)

(** X14: With the default [getT], a test function run on anything but a live
    [*testing.T] panics before it reaches any phase: no callback of the
    lifecycle but [CloneTC] is called, no scope is opened and no failure is
    reported. *)
Theorem default_getT_needs_live b tableTestIndex t w :
  getT b = None -> t <> StdT Live ->
  let r := runNewI b tableTestIndex t w in
  st r = Panicked /\ phases (trace r) = [] /\ scopes (trace r) = [] /\
  fatals (trace r) = [] /\ errors (trace r) = [] /\ seeds (trace r) = [].
Proof.
  intros Hg Ht r. unfold r, runNewI, newI, runAll, basis, replay, f,
    givenTest, givenRest, cloneTC, callGetT, resolveGetT.
  rewrite Hg.
  destruct t as [[|]|]; [contradiction | repeat split |].
  destruct (CloneTC b), (hasGivenPhase b), (Arrange b); repeat split.
Qed.

(** ** A descriptor built by [GWT], run *)


End Engine.

(** * The scenarios, run *)

(** Scenario A: [When = w], [Then = t], no Arrange: the scopes are [when w]
    and in it [then t], and nothing fails. *)
Example scenarioA_run :
  runNewI (@scenarioPlain nat nat unit 0%nat 0%nat "" "w" "t" None None) (-1)
          (StdT Live) tt =
  (Ret tt, tt,
   [EvValidate; EvRun SWhen "when w"; EvAct; EvRun SThen "then t";
    EvAssert; EvExit SThen; EvExit SWhen]).
Proof. reflexivity. Qed.

(** Scenario B on the recording double: four soft failures, one hard
    failure, no scope. *)
Example scenarioB_run :
  runNewI (@scenarioB nat nat unit 0%nat (Some nilGetT)) (-1) mT tt =
  (Ret tt, tt,
   [EvValidate; EvError msgWhenEmpty; EvError msgThenEmpty;
    EvError msgActNil; EvError msgAssertNil;
    EvFatalf fmtNotConfigured [AStr ""]]).
Proof. reflexivity. Qed.

(** On the recording double a given-scope cannot be entered: its body
    starts with [Helper] on the nil [*testing.T] that the double passes. *)
Example given_scope_on_double :
  runNewI (@scenarioPlain nat nat unit 0%nat 0%nat "g" "w" "t" None
                          (Some nilGetT)) (-1) mT tt =
  (Panicked, tt, [EvRun SGiven "given g"]).
Proof. reflexivity. Qed.

(** The claim of C1 fails: built with ordinal 7, the replay of the variant
    of kind [k] opens [7/k/when w], which does not start with [k/]. *)
Lemma variant_scope_keeps_index :
  scopes (trace (runNewI (@scenarioPlain nat nat unit 0%nat 0%nat "" "w" "t"
                            (Some [variantOf 1%nat "k" false]) None)
                         7 (StdT Live) tt)) =
    [(SWhen, "7/when w"); (SThen, "then t");
     (SWhen, "7/k/when w"); (SThen, "then t")] /\
  ~ (exists rest, "7/k/when w" = "k/" +:+ rest).
Proof.
  split; [reflexivity |]. intros [rest H]. discriminate H.
Qed.

Lemma variant_scope_prefix_witness :
  exists lbl, "7/k/when w" = "7/k/" +:+ "when " +:+ lbl.
Proof.
  apply (@variant_scope_prefix nat nat unit defaultGetT None 7
           (@scenarioPlain nat nat unit 0%nat 0%nat "" "w" "t" None None)
           (StdT Live) (variantOf 1%nat "k" false) (-1) tt SWhen
           "7/k/when w" eq_refl eq_refl).
  simpl. auto.
Defined.

(** Scenario B on the recording double, built with ordinal 4: the replay
    logs the checks, the four soft failures and the hard failure for the
    prefix [4/], and opens no scope.  With the given label [g] on a live
    [*testing.T]: one hard failure, and the given-scope is the one scope. *)
Lemma validation_gate_witness :
  let tr := trace (replay (fun _ => Some Nil) None 4
                     (@scenarioB nat nat unit 0%nat (Some nilGetT))
                     mT 0%nat "" tt) in
  let trg := trace (replay defaultGetT None (-1)
                      (@scenarioBGiven nat nat unit 0%nat "g" None)
                      (StdT Live) 0%nat "" tt) in
  (tr = [EvValidate; EvError msgWhenEmpty; EvError msgThenEmpty;
         EvError msgActNil; EvError msgAssertNil;
         EvFatalf fmtNotConfigured [AStr "4/"]] /\
   scopes tr = []) /\
  fatals trg = [(fmtNotConfigured, [AStr ""])] /\
  exists lbl, scopes trg = [(SGiven, "given " +:+ lbl)].
Proof.
  intros tr trg. split.
  - apply (proj2 (proj2 (@validation_gate nat nat unit (fun _ => Some Nil)
                           None 4 (scenarioB 0%nat (Some nilGetT))
                           mT 0%nat "" tt)));
      try reflexivity; discriminate.
  - destruct (proj1 (@validation_gate nat nat unit defaultGetT None (-1)
                       (scenarioBGiven 0%nat "g" None)
                       (StdT Live) 0%nat "" tt))
      as (pre & trd & post & b' & _ & _ & _ & _ & Herr & Hfail & _).
    { simpl. auto 10. }
    assert (Hv : violations b' <> []).
    { rewrite <- Herr. discriminate. }
    destruct (Hfail Hv) as (_ & Hf & Hs). split; [exact Hf | exact Hs].
Defined.

(** The claim of C3 fails for a replay with a given phase: with the given
    label [g] and all four checks violated, on a live [*testing.T], the
    replay logs the four soft failures and the hard failure, and it has
    opened a scope, the given-scope, before. *)
Lemma checks_fail_inside_the_given_scope :
  let b := @scenarioBGiven nat nat unit 0%nat "g" None in
  let r := replay defaultGetT None (-1) b (StdT Live) 0%nat "" tt in
  violations b = [msgWhenEmpty; msgThenEmpty; msgActNil; msgAssertNil] /\
  errors (trace r) = [msgWhenEmpty; msgThenEmpty; msgActNil; msgAssertNil] /\
  fatals (trace r) = [(fmtNotConfigured, [AStr ""])] /\
  scopes (trace r) = [(SGiven, "given g")] /\
  scopes (trace r) <> [].
Proof. repeat split. discriminate. Qed.

Lemma nil_given_aborts_witness :
  let r := replay defaultGetT None 3
             (@scenarioNilGiven nat nat unit 0%nat 0%nat "ctx" noHooks)
             (StdT Live) 0%nat "" tt in
  st r = Goexit /\
  fatals (trace r) = [(fmtNilGiven, [AStr "3/"])] /\
  errors (trace r) = [] /\
  scopes (trace r) = [] /\
  Forall (fun ph => ph = PArrange \/ ph = PAfterArrange) (phases (trace r)).
Proof.
  apply (@nil_given_aborts nat nat unit defaultGetT None 3
           (scenarioNilGiven 0%nat 0%nat "ctx" noHooks)
           (StdT Live) 0%nat "" tt
           (tcArrange "ctx" (fun x w => (x, w)) None) Live "ctx"
           (arrangeView (scenarioNilGiven 0%nat 0%nat "ctx" noHooks) 0%nat "")
           tt).
  - reflexivity.
  - discriminate.
  - reflexivity.
  - reflexivity.
Defined.


Lemma when_scope_prefix_witness :
  (exists lbl, "3/when w" = "3/" +:+ "when " +:+ lbl) /\
  (exists lbl, "when w" = "when " +:+ lbl) /\
  (exists lbl, "3/given g" = "3/" +:+ "given " +:+ lbl).
Proof.
  split; [| split].
  - destruct (@when_scope_prefix nat nat unit defaultGetT None 3
                (@scenarioPlain nat nat unit 0%nat 0%nat "" "w" "t" None None)
                (StdT Live) 0%nat "" tt) as [H _].
    destruct (H eq_refl eq_refl) as [_ Hw].
    apply (Hw "3/when w"). simpl. auto.
  - destruct (@when_scope_prefix nat nat unit defaultGetT None 3
                (@scenarioPlain nat nat unit 0%nat 0%nat "g" "w" "t" None None)
                (StdT Live) 0%nat "" tt) as [_ [H _]].
    destruct (H eq_refl) as [Hw _].
    apply (Hw "when w"). simpl. auto 10.
  - destruct (@when_scope_prefix nat nat unit defaultGetT None 3
                (@scenarioPlain nat nat unit 0%nat 0%nat "g" "w" "t" None None)
                (StdT Live) 0%nat "" tt) as [_ [H _]].
    destruct (H eq_refl) as [_ Hg].
    apply (Hg "3/given g"). simpl. auto.
Defined.

(** On the double, a skipped entry, an entry without [Kind], a variant of
    kind [k] and a second entry without [Kind]: the walk returns, and the
    two entries without [Kind] report the indices 1 and 3. *)
Lemma empty_kind_failure_witness :
  let r := rangeVariants (fun _ => Some Nil) None (-1)
             (@scenarioPlain nat nat unit 0%nat 0%nat "" "w" "t" None
                             (Some nilGetT))
             mT
             ([variantOf 1%nat "" true]
                ++ variantOf 2%nat "" false
                :: [variantOf 3%nat "k" false; variantOf 4%nat "" false])
             (-1) tt in
  st r = Ret tt /\ noKindReports (trace r) = [1; 3] /\
  NoDup (noKindReports (trace r)).
Proof.
  intros r.
  destruct (@empty_kind_failure nat nat unit (fun _ => Some Nil) None (-1)
              (scenarioPlain 0%nat 0%nat "" "w" "t" None (Some nilGetT))
              [variantOf 1%nat "" true] (variantOf 2%nat "" false)
              [variantOf 3%nat "k" false; variantOf 4%nat "" false] tt)
    as (_ & Hst & Hrep & _ & Hn & _);
    [discriminate | reflexivity | reflexivity | reflexivity |].
  split; [exact Hst | split; [exact Hrep |]].
  apply Hn. simpl. lia.
Defined.

(** The claim of C6 fails on a live [*testing.T]: of two entries without
    [Kind], the first reports its index 0 and ends the calling test
    function, and the second, at index 1, reports nothing. *)
Lemma second_entry_without_kind_is_silent :
  let r := runNewI (@scenarioPlain nat nat unit 0%nat 0%nat "" "w" "t"
                      (Some [variantOf 1%nat "" false;
                             variantOf 2%nat "" false]) None)
                   (-1) (StdT Live) tt in
  st r = Goexit /\
  fatals (trace r) = [(fmtNoKind, [AInt 0])] /\
  ~ In (fmtNoKind, [AInt 1]) (fatals (trace r)).
Proof.
  repeat split. intros [H|[]]. discriminate H.
Qed.

Lemma skipped_variant_is_silent_witness :
  rangeVariants (fun _ => Some Nil) None (-1)
    (@scenarioPlain nat nat unit 0%nat 0%nat "" "w" "t" None (Some nilGetT))
    mT
    ([] ++ variantOf 1%nat "skipped" true :: variantOf 2%nat "" false :: [])
    (-1) tt =
  (Ret tt, tt, [EvFatalf fmtNoKind [AInt 1]]).
Proof.
  apply (proj2 (@skipped_variant_is_silent nat nat unit (fun _ => Some Nil)
                  None (-1)
                  (scenarioPlain 0%nat 0%nat "" "w" "t" None (Some nilGetT))
                  mT [] (variantOf 1%nat "skipped" true)
                  [variantOf 2%nat "" false] tt eq_refl)
               (variantOf 2%nat "" false) [] tt []).
  - reflexivity.
  - reflexivity.
  - reflexivity.
Defined.



(** ** Instances of the further properties *)

(** Built with ordinal 3, a descriptor whose [Arrange] returns an empty
    label ends the calling test function right after Arrange, with the
    empty-Given failure for the prefix [3/]. *)
Lemma empty_given_aborts_witness :
  let r := replay defaultGetT None 3
             (@scenarioEmptyGiven nat nat unit 0%nat 0%nat noHooks)
             (StdT Live) 0%nat "" tt in
  st r = Goexit /\
  trace r = [EvArrange; EvFatalf fmtEmptyGiven [AStr "3/"]].
Proof.
  refine (@empty_given_aborts nat nat unit defaultGetT None 3
            (scenarioEmptyGiven 0%nat 0%nat noHooks) (StdT Live) 0%nat "" tt
            (tcArrange "" (fun x w => (x, w)) (Some (fun x w => (x, w))))
            Live "" _ _ tt eq_refl _ eq_refl eq_refl eq_refl).
  discriminate.
Defined.

(** Without ordinal and kind the prefix is empty, and the prefix of ordinal
    7 and kind [k] ends with the separator. *)
Lemma composePrefix_tells_apart_witness :
  isEmpty (composePrefix (-1) "") = true /\
  exists body, composePrefix 7 "k" = body +:+ "/".
Proof.
  split.
  - apply (proj1 (composePrefix_tells_apart (-1) 0 "" "")).
    split; [lia | reflexivity].
  - apply (proj1 (proj2 (composePrefix_tells_apart 7 7 "k" "k"))).
    reflexivity.
Defined.

(** On the double, after the first soft failure of an unconfigured variant
    of kind [k] only failures follow. *)
Lemma failure_stops_the_replay_witness :
  Forall (fun e : @event nat => isWork e = false)
         [EvError msgThenEmpty; EvFatalf fmtNotConfigured [AStr "k/"]].
Proof.
  apply (@failure_stops_the_replay nat nat unit (fun _ => Some Nil) None (-1)
           (scenarioPlain 0%nat 0%nat "" "" "" None (Some nilGetT)) mT 0%nat
           "k" tt [EvValidate] (EvError msgWhenEmpty)
           [EvError msgThenEmpty; EvFatalf fmtNotConfigured [AStr "k/"]]);
    reflexivity.
Defined.

(** A well-configured descriptor without [getT], run on the double, panics
    at once. *)
Lemma default_getT_needs_live_witness :
  let r := runNewI (@scenarioPlain nat nat unit 0%nat 0%nat "" "w" "t" None None)
                   (-1) mT tt in
  st r = Panicked /\ phases (trace r) = [] /\ scopes (trace r) = [] /\
  fatals (trace r) = [] /\ errors (trace r) = [] /\ seeds (trace r) = [].
Proof.
  apply (@default_getT_needs_live nat nat unit
           (scenarioPlain 0%nat 0%nat "" "w" "t" None None) (-1) mT tt).
  - reflexivity.
  - discriminate.
Defined.


(** A descriptor with the given label [g] and no [Arrange], on the double. *)
Lemma given_scope_panics_on_double_witness :
  let r := replay (fun _ => Some Nil) None (-1)
             (@scenarioPlain nat nat unit 0%nat 0%nat "g" "w" "t" None
                             (Some nilGetT)) mT 0%nat "" tt in
  st r = Panicked /\
  exists l name,
    trace r = l ++ [EvRun SGiven name] /\
    Forall (fun e => e = EvArrange \/ phase_of e = Some PAfterArrange) l.
Proof.
  apply (@given_scope_panics_on_double nat nat unit (fun _ => Some Nil) None
           (-1) (scenarioPlain 0%nat 0%nat "g" "w" "t" None (Some nilGetT))
           0%nat "" tt).
  reflexivity.
Defined.


(** The ordinal -5 gives the run of [New]. *)
Lemma New_is_NewI_below_zero_witness :
  bind (NewI (@scenarioPlain nat nat unit 0%nat 0%nat "" "w" "t"
                (Some [variantOf 1%nat "k" false]) None) Live (-5))
       (fun run => run (StdT Live)) tt =
  bind (New (@scenarioPlain nat nat unit 0%nat 0%nat "" "w" "t"
               (Some [variantOf 1%nat "k" false]) None) Live)
       (fun run => run (StdT Live)) tt.
Proof.
  apply (@New_is_NewI_below_zero nat nat unit
           (scenarioPlain 0%nat 0%nat "" "w" "t"
              (Some [variantOf 1%nat "k" false]) None) Live (-5) (StdT Live) tt).
  reflexivity.
Defined.

(** The replay of a variant of kind [k] of a descriptor whose [Arrange]
    returns an empty label. *)
Lemma live_replay_scope_or_exit_witness :
  let r := replay defaultGetT None 3
             (@scenarioEmptyGiven nat nat unit 0%nat 0%nat noHooks)
             (StdT Live) 0%nat "k" tt in
  st r = if existsb opens (trace r) then Ret tt else Goexit.
Proof.
  apply (@live_replay_scope_or_exit nat nat unit defaultGetT None 3).
  discriminate.
Defined.

(** A descriptor without [When] and with a generator: the run ends with the
    failure of the basis test case, and the generator is not called. *)
Lemma live_run_without_scope_skips_variants_witness :
  let r := runNewI (@scenarioPlain nat nat unit 0%nat 0%nat "" "" "t"
                      (Some [variantOf 1%nat "k" false]) None)
                   (-1) (StdT Live) tt in
  st r = Goexit /\ seeds (trace r) = [].
Proof.
  apply (@live_run_without_scope_skips_variants nat nat unit
           (scenarioPlain 0%nat 0%nat "" "" "t"
              (Some [variantOf 1%nat "k" false]) None) (-1) tt).
  reflexivity.
Defined.


(** Of five entries, the second is skipped, the third is marked
    [SkipCloneTC] and the fourth has no [Kind]: the first and the fifth are
    cloned. *)
Lemma walk_clones_what_it_runs_witness :
  clones (trace (rangeVariants (fun _ => Some Nil) None (-1)
                   (@scenarioClone nat nat unit 0%nat 0%nat S [] (fun _ w => w))
                   mT
                   [variantOf 1%nat "a" false; variantOf 2%nat "b" true;
                    {| v_TC := 3%nat; Kind := "c"; SkipTC := false;
                       SkipCloneTC := true |};
                    variantOf 4%nat "" false; variantOf 5%nat "e" false]
                   (-1) tt)) = [1%nat; 5%nat].
Proof.
  apply (@walk_clones_what_it_runs nat nat unit (fun _ => Some Nil) None (-1)
           (scenarioClone 0%nat 0%nat S [] (fun _ w => w)) mT
           [variantOf 1%nat "a" false; variantOf 2%nat "b" true;
            {| v_TC := 3%nat; Kind := "c"; SkipTC := false;
               SkipCloneTC := true |};
            variantOf 4%nat "" false; variantOf 5%nat "e" false]
           (-1) tt).
  reflexivity.
Defined.
